(** * libsha3: SHA-3 (FIPS 202) on top of KECCAK-f[1600]

    A shallow embedding of [sha3.c] / [sha3.h]:

    - the machine integers of the C code ([uint8_t], [uint32_t], [uint64_t])
      are [Z] with the wrap-around written out;
    - the two variants of [keccakf_1600] (the loop version compiled under
      [SHA3_KECCAKF_LOOP] and the default unrolled version) are written once,
      over an abstract monad in which the two C shift operators live, and are
      then run in the identity monad (the values computed) and in the option
      monad (the shifts checked for a defined shift count);
    - the context [struct sha3_ctx] is a record whose state is the 200-byte
      array [u8]; the lane view [u64] of the anonymous union is derived from
      those bytes through the byte order of the host, which the source
      selects with [__BYTE_ORDER__]. *)

From Stdlib Require Import ZArith Lia Bool Strings.Byte.
From stdpp Require Import base tactics option list.

Local Open Scope Z_scope.

(** ** Machine integers *)

Definition uint8_t  (x : Z) : Z := x mod 2^8.
Definition uint32_t (x : Z) : Z := x mod 2^32.
Definition uint64_t (x : Z) : Z := x mod 2^64.

(** [size_t] is taken to be 64 bits wide; it only ever holds [64 - n]. *)
Definition size_t (x : Z) : Z := x mod 2^64.

(** The bitwise operators of C on unsigned operands: [^], [&] and [|]. *)
Infix ".&" := Z.land (at level 40, left associativity).
Infix ".^" := Z.lxor (at level 45, left associativity).
Infix ".|" := Z.lor (at level 49, left associativity).

(** [~x] on a [uint64_t]. *)
Definition not64 (x : Z) : Z := uint64_t (Z.lnot x).

(** ** Arrays

    C arrays are lists; [A.[i]] reads (the total lookup of stdpp, whose value
    out of range is a fixed default) and [<[i:=v]> A] writes (no effect out of
    range).  In C
    both are undefined out of range; every theorem below is about arrays of
    the declared length, where all indices used are in range. *)

Notation "A .[ i ]" := (lookup_total (i%nat) A)
  (at level 1, left associativity, format "A .[ i ]").
Notation "A .[ i <- v ]" := (<[i%nat := v]> A)
  (at level 1, left associativity, format "A .[ i  <-  v ]").

(** ** The shift operators as effects

    [x << n] and [x >> n] on a 64-bit operand are undefined in C unless
    [n < 64].  The permutation is written over a monad [M] that provides the
    two operators, so that the same text can be run for its value and for its
    definedness. *)

Class Shifts (M : Type → Type) := {
  shl64 : Z → Z → M Z;
  shr64 : Z → Z → M Z
}.

(** The identity monad: shifts as total functions on [Z]. *)
Definition Pure (T : Type) : Type := T.
#[export] Instance Pure_ret : MRet Pure := λ _ x, x.
#[export] Instance Pure_bind : MBind Pure := λ _ _ f x, f x.
#[export] Instance Pure_shifts : Shifts Pure := {|
  shl64 x n := uint64_t (Z.shiftl x n);
  shr64 x n := Z.shiftr x n
|}.

(** The option monad: [None] is undefined behaviour. *)
Definition Checked (T : Type) : Type := option T.
#[export] Instance Checked_ret : MRet Checked := λ _ x, Some x.
#[export] Instance Checked_bind : MBind Checked := λ _ _ f x,
  match x with Some a => f a | None => None end.
#[export] Instance Checked_shifts : Shifts Checked := {|
  shl64 x n := if (0 <=? n) && (n <? 64) then Some (uint64_t (Z.shiftl x n)) else None;
  shr64 x n := if (0 <=? n) && (n <? 64) then Some (Z.shiftr x n) else None
|}.

(** The writer monad: the shifts executed and their counts, in order. *)
Inductive shift : Set := Shl (n : Z) | Shr (n : Z).

Definition Traced (T : Type) : Type := (list shift * T)%type.
#[export] Instance Traced_ret : MRet Traced := λ _ x, ([], x).
#[export] Instance Traced_bind : MBind Traced := λ _ _ f x,
  let '(l, y) := f x.2 in (x.1 ++ l, y).
#[export] Instance Traced_shifts : Shifts Traced := {|
  shl64 x n := ([Shl n], uint64_t (Z.shiftl x n));
  shr64 x n := ([Shr n], Z.shiftr x n)
|}.

Section permutation.
Context {M : Type → Type} `{!MRet M, !MBind M, !Shifts M}.

(** [for (i in idx) body], the loop state threaded through [M]. *)
Fixpoint mfor {S : Type} (idx : list nat) (body : nat → S → M S) (s : S) : M S :=
  match idx with
  | [] => mret s
  | i :: idx' => s' ← body i s; mfor idx' body s'
  end.

(** [rotl64]: [(x << n) | (x >> (64 - n))]. *)
Definition rotl64 (x n : Z) : M Z :=
  hi ← shl64 x n;
  lo ← shr64 x (size_t (64 - n));
  mret (hi .| lo).

Definition RC : list Z := [
  0x0000000000000001; 0x0000000000008082;
  0x800000000000808a; 0x8000000080008000;
  0x000000000000808b; 0x0000000080000001;
  0x8000000080008081; 0x8000000000008009;
  0x000000000000008a; 0x0000000000000088;
  0x0000000080008009; 0x000000008000000a;
  0x000000008000808b; 0x800000000000008b;
  0x8000000000008089; 0x8000000000008003;
  0x8000000000008002; 0x8000000000000080;
  0x000000000000800a; 0x800000008000000a;
  0x8000000080008081; 0x8000000000008080;
  0x0000000080000001; 0x8000000080008008 ].

Definition rho : list Z := [
      1; 62; 28; 27;
  36; 44;  6; 55; 20;
   3; 10; 43; 25; 39;
  41; 45; 15; 21;  8;
  18;  2; 61; 56; 14 ].

Definition pi : list nat := [
  1;  6;  9; 22; 14; 20;
  2; 12; 13; 19; 23; 15;
  4; 24; 21;  8; 16;  5;
  3; 18; 17; 11;  7; 10 ]%nat.

(** *** The loop version ([SHA3_KECCAKF_LOOP]) *)

(** The scratch arrays [parity] and [tmp] of a round are uninitialised when
    declared; here they start as zeros, and every slot is written before it
    is read. *)
Definition scratch : list Z := replicate 5 0.

Definition theta_parity (A : list Z) : list Z :=
  foldl (λ parity i,
           <[i := (A.[i] .^ A.[i + 5] .^ A.[i + 10] .^ A.[i + 15] .^ A.[i + 20])]> parity)
        scratch (seq 0 5).

Definition theta_loop (A : list Z) : M (list Z * list Z) :=
  let parity := theta_parity A in
  mfor (seq 0 5)
    (λ i '(A, tmp),
       r ← rotl64 parity.[(i + 1) mod 5] 1;
       let tmp := <[i := (parity.[(i + 4) mod 5] .^ r)]> tmp in
       let A := foldl (λ A j, <[(i + j)%nat := (A.[i + j] .^ tmp.[i])]> A) A
                      ((λ k, 5 * k)%nat <$> seq 0 5) in
       mret (A, tmp))
    (A, scratch).

Definition rho_loop (A : list Z) : M (list Z) :=
  mfor (seq 0 24)
    (λ i A, r ← rotl64 A.[i + 1] rho.[i]; mret (<[(i + 1)%nat := r]> A))
    A.

Definition pi_loop (A tmp : list Z) : list Z * list Z :=
  let tmp := <[0%nat := A.[pi.[0]]]> tmp in
  let A := foldl (λ A i, <[pi.[i] := A.[pi.[i + 1]]]> A) A (seq 0 23) in
  let A := <[pi.[23] := tmp.[0]]> A in
  (A, tmp).

Definition chi_loop (A tmp : list Z) : list Z * list Z :=
  foldl (λ '(A, tmp) i,
           let tmp := foldl (λ tmp j,
                               <[j := (not64 A.[i + (j + 1) mod 5] .& A.[i + (j + 2) mod 5])]> tmp)
                            tmp (seq 0 5) in
           let A := foldl (λ A j, <[(i + j)%nat := (A.[i + j] .^ tmp.[j])]> A)
                          A (seq 0 5) in
           (A, tmp))
        (A, tmp) ((λ k, 5 * k)%nat <$> seq 0 5).

Definition iota (i_r : nat) (A : list Z) : list Z :=
  <[0%nat := (A.[0] .^ RC.[i_r])]> A.

Definition round_loop (i_r : nat) (A : list Z) : M (list Z) :=
  '(A, tmp) ← theta_loop A;
  A ← rho_loop A;
  let '(A, tmp) := pi_loop A tmp in
  let '(A, tmp) := chi_loop A tmp in
  mret (iota i_r A).

Definition keccakf_1600_loop (A : list Z) : M (list Z) :=
  mfor (seq 0 24) round_loop A.

(** *** The unrolled version (the default) *)

(** [A[i] = rotl64(x, n)]. *)
Definition set_rotl64 (A : list Z) (i : nat) (x n : Z) : M (list Z) :=
  r ← rotl64 x n; mret A.[i <- r].

Definition round_unrolled (i_r : nat) (A : list Z) : M (list Z) :=
  let parity := scratch in
  let parity := parity.[0 <- A.[0] .^ A.[5] .^ A.[10] .^ A.[15] .^ A.[20]] in
  let parity := parity.[1 <- A.[1] .^ A.[6] .^ A.[11] .^ A.[16] .^ A.[21]] in
  let parity := parity.[2 <- A.[2] .^ A.[7] .^ A.[12] .^ A.[17] .^ A.[22]] in
  let parity := parity.[3 <- A.[3] .^ A.[8] .^ A.[13] .^ A.[18] .^ A.[23]] in
  let parity := parity.[4 <- A.[4] .^ A.[9] .^ A.[14] .^ A.[19] .^ A.[24]] in

  let tmp := scratch in
  r ← rotl64 parity.[1] 1; let tmp := tmp.[0 <- parity.[4] .^ r] in
  r ← rotl64 parity.[2] 1; let tmp := tmp.[1 <- parity.[0] .^ r] in
  r ← rotl64 parity.[3] 1; let tmp := tmp.[2 <- parity.[1] .^ r] in
  r ← rotl64 parity.[4] 1; let tmp := tmp.[3 <- parity.[2] .^ r] in
  r ← rotl64 parity.[0] 1; let tmp := tmp.[4 <- parity.[3] .^ r] in

  (* π∘ρ∘θ(A) *)
  let start := A.[1] in
  let A := A.[0 <- A.[0] .^ tmp.[0]] in
  A ← set_rotl64 A  1 (A.[ 6] .^ tmp.[1]) 44;
  A ← set_rotl64 A  6 (A.[ 9] .^ tmp.[4]) 20;
  A ← set_rotl64 A  9 (A.[22] .^ tmp.[2]) 61;
  A ← set_rotl64 A 22 (A.[14] .^ tmp.[4]) 39;
  A ← set_rotl64 A 14 (A.[20] .^ tmp.[0]) 18;
  A ← set_rotl64 A 20 (A.[ 2] .^ tmp.[2]) 62;
  A ← set_rotl64 A  2 (A.[12] .^ tmp.[2]) 43;
  A ← set_rotl64 A 12 (A.[13] .^ tmp.[3]) 25;
  A ← set_rotl64 A 13 (A.[19] .^ tmp.[4])  8;
  A ← set_rotl64 A 19 (A.[23] .^ tmp.[3]) 56;
  A ← set_rotl64 A 23 (A.[15] .^ tmp.[0]) 41;
  A ← set_rotl64 A 15 (A.[ 4] .^ tmp.[4]) 27;
  A ← set_rotl64 A  4 (A.[24] .^ tmp.[4]) 14;
  A ← set_rotl64 A 24 (A.[21] .^ tmp.[1])  2;
  A ← set_rotl64 A 21 (A.[ 8] .^ tmp.[3]) 55;
  A ← set_rotl64 A  8 (A.[16] .^ tmp.[1]) 45;
  A ← set_rotl64 A 16 (A.[ 5] .^ tmp.[0]) 36;
  A ← set_rotl64 A  5 (A.[ 3] .^ tmp.[3]) 28;
  A ← set_rotl64 A  3 (A.[18] .^ tmp.[3]) 21;
  A ← set_rotl64 A 18 (A.[17] .^ tmp.[2]) 15;
  A ← set_rotl64 A 17 (A.[11] .^ tmp.[1]) 10;
  A ← set_rotl64 A 11 (A.[ 7] .^ tmp.[2])  6;
  A ← set_rotl64 A  7 (A.[10] .^ tmp.[0])  3;
  A ← set_rotl64 A 10 (start .^ tmp.[1])  1;

  (* χ_0(A) *)
  let tmp := tmp.[0 <- not64 A.[1] .& A.[2]] in
  let tmp := tmp.[1 <- not64 A.[2] .& A.[3]] in
  let tmp := tmp.[2 <- not64 A.[3] .& A.[4]] in
  let tmp := tmp.[3 <- not64 A.[4] .& A.[0]] in
  let tmp := tmp.[4 <- not64 A.[0] .& A.[1]] in
  let A := A.[0 <- A.[0] .^ tmp.[0]] in
  let A := A.[1 <- A.[1] .^ tmp.[1]] in
  let A := A.[2 <- A.[2] .^ tmp.[2]] in
  let A := A.[3 <- A.[3] .^ tmp.[3]] in
  let A := A.[4 <- A.[4] .^ tmp.[4]] in

  (* χ_1(A) *)
  let tmp := tmp.[0 <- not64 A.[6] .& A.[7]] in
  let tmp := tmp.[1 <- not64 A.[7] .& A.[8]] in
  let tmp := tmp.[2 <- not64 A.[8] .& A.[9]] in
  let tmp := tmp.[3 <- not64 A.[9] .& A.[5]] in
  let tmp := tmp.[4 <- not64 A.[5] .& A.[6]] in
  let A := A.[5 <- A.[5] .^ tmp.[0]] in
  let A := A.[6 <- A.[6] .^ tmp.[1]] in
  let A := A.[7 <- A.[7] .^ tmp.[2]] in
  let A := A.[8 <- A.[8] .^ tmp.[3]] in
  let A := A.[9 <- A.[9] .^ tmp.[4]] in

  (* χ_2(A) *)
  let tmp := tmp.[0 <- not64 A.[11] .& A.[12]] in
  let tmp := tmp.[1 <- not64 A.[12] .& A.[13]] in
  let tmp := tmp.[2 <- not64 A.[13] .& A.[14]] in
  let tmp := tmp.[3 <- not64 A.[14] .& A.[10]] in
  let tmp := tmp.[4 <- not64 A.[10] .& A.[11]] in
  let A := A.[10 <- A.[10] .^ tmp.[0]] in
  let A := A.[11 <- A.[11] .^ tmp.[1]] in
  let A := A.[12 <- A.[12] .^ tmp.[2]] in
  let A := A.[13 <- A.[13] .^ tmp.[3]] in
  let A := A.[14 <- A.[14] .^ tmp.[4]] in

  (* χ_3(A) *)
  let tmp := tmp.[0 <- not64 A.[16] .& A.[17]] in
  let tmp := tmp.[1 <- not64 A.[17] .& A.[18]] in
  let tmp := tmp.[2 <- not64 A.[18] .& A.[19]] in
  let tmp := tmp.[3 <- not64 A.[19] .& A.[15]] in
  let tmp := tmp.[4 <- not64 A.[15] .& A.[16]] in
  let A := A.[15 <- A.[15] .^ tmp.[0]] in
  let A := A.[16 <- A.[16] .^ tmp.[1]] in
  let A := A.[17 <- A.[17] .^ tmp.[2]] in
  let A := A.[18 <- A.[18] .^ tmp.[3]] in
  let A := A.[19 <- A.[19] .^ tmp.[4]] in

  (* χ_4(A) *)
  let tmp := tmp.[0 <- not64 A.[21] .& A.[22]] in
  let tmp := tmp.[1 <- not64 A.[22] .& A.[23]] in
  let tmp := tmp.[2 <- not64 A.[23] .& A.[24]] in
  let tmp := tmp.[3 <- not64 A.[24] .& A.[20]] in
  let tmp := tmp.[4 <- not64 A.[20] .& A.[21]] in
  let A := A.[20 <- A.[20] .^ tmp.[0]] in
  let A := A.[21 <- A.[21] .^ tmp.[1]] in
  let A := A.[22 <- A.[22] .^ tmp.[2]] in
  let A := A.[23 <- A.[23] .^ tmp.[3]] in
  let A := A.[24 <- A.[24] .^ tmp.[4]] in

  (* ι(A, i_r) *)
  mret A.[0 <- A.[0] .^ RC.[i_r]].

Definition keccakf_1600_unrolled (A : list Z) : M (list Z) :=
  mfor (seq 0 24) round_unrolled A.

End permutation.



(** ** The context

    [struct sha3_ctx]: three [uint8_t] fields and the state, an anonymous
    union of [uint8_t u8[200]] and [uint64_t u64[25]].  The record keeps the
    200 bytes; the lanes are read from and written to them in the byte order
    of the host. *)

Inductive byte_order : Set := LittleEndian | BigEndian.

Inductive sha3_algo : Set := SHA3_224 | SHA3_256 | SHA3_384 | SHA3_512.

Definition algo_value (algo : sha3_algo) : Z :=
  match algo with
  | SHA3_224 => 28
  | SHA3_256 => 32
  | SHA3_384 => 48
  | SHA3_512 => 64
  end.

Record sha3_ctx : Set := Ctx {
  index : Z;
  rate : Z;
  size : Z;
  u8 : list Z
}.

Definition set_index (c : sha3_ctx) (i : Z) : sha3_ctx :=
  {| index := i; rate := rate c; size := size c; u8 := u8 c |}.
Definition set_u8 (c : sha3_ctx) (m : list Z) : sha3_ctx :=
  {| index := index c; rate := rate c; size := size c; u8 := m |}.

(** The value of an input byte. *)
Definition byte_value (b : byte) : Z := Z.of_N (Byte.to_N b).

(** Eight bytes as a 64-bit word, least significant byte first. *)
Definition le_combine (bs : list Z) : Z :=
  foldr (λ b w, b .| w ≪ 8) 0 bs.

(** The [n] low bytes of a word, least significant byte first. *)
Fixpoint le_split (n : nat) (w : Z) : list Z :=
  match n with
  | O => []
  | S n' => (w .& 0xff) :: le_split n' (w ≫ 8)
  end.

(** What the host reads from, and writes to, eight bytes of memory accessed
    as a [uint64_t]. *)
Definition combine64 (h : byte_order) (bs : list Z) : Z :=
  match h with
  | LittleEndian => le_combine bs
  | BigEndian => le_combine (reverse bs)
  end.

Definition split64 (h : byte_order) (w : Z) : list Z :=
  match h with
  | LittleEndian => le_split 8 w
  | BigEndian => reverse (le_split 8 w)
  end.

(** [((uint64_t * )m)[k]] as an rvalue and as an lvalue. *)
Definition load64 (h : byte_order) (m : list Z) (k : nat) : Z :=
  combine64 h (take 8 (drop (8 * k) m)).

Definition store64 (h : byte_order) (m : list Z) (k : nat) (w : Z) : list Z :=
  take (8 * k) m ++ split64 h w ++ drop (8 * k + 8) m.

(** The lane view [ctx->u64] of the state bytes, and the bytes of 25 lanes. *)
Definition u64 (h : byte_order) (m : list Z) : list Z :=
  load64 h m <$> seq 0 25.

Definition u64_bytes (h : byte_order) (A : list Z) : list Z :=
  A ≫= split64 h.

(** [bswap32] and [bswap64] exist on big-endian hosts only. *)
Definition bswap32 (x : Z) : Z :=
  x ≫ 24 .| (x ≫ 8 .& 0xff00) .| (uint32_t (x ≪ 8) .& 0xff0000) .| uint32_t (x ≪ 24).

Definition bswap64 (x : Z) : Z :=
  uint64_t (bswap32 (uint32_t x) ≪ 32) .| bswap32 (uint32_t (x ≫ 32)).

Section driver.
(** The host: [__BYTE_ORDER__]. *)
Variable h : byte_order.

(** [read64le(p)], [p] pointing to the eight bytes [bs]. *)
Definition read64le (bs : list Z) : Z :=
  match h with
  | BigEndian => bswap64 (combine64 h bs)
  | LittleEndian => combine64 h bs
  end.

(** The permutation as the driver calls it: the default build (the unrolled
    version); [keccakf_1600(ctx->u64)] reads the lanes from the state bytes
    [m] and writes them back. *)
Definition keccakf_1600 (A : list Z) : list Z :=
  keccakf_1600_unrolled (M := Pure) A.

Definition keccakf_1600_u64 (m : list Z) : list Z :=
  u64_bytes h (keccakf_1600 (u64 h m)).

Definition permute (c : sha3_ctx) : sha3_ctx :=
  set_u8 c (keccakf_1600_u64 (u8 c)).

Definition sha3_init (c : sha3_ctx) (algo : sha3_algo) : sha3_ctx :=
  {| index := 0;
     rate := uint8_t (200 - 2 * algo_value algo);
     size := uint8_t (algo_value algo);
     u8 := replicate 200 0 |}.

(** [if (ctx->index == ctx->rate) { ctx->index = 0; keccakf_1600(ctx->u64); }] *)
Definition block_boundary (c : sha3_ctx) : sha3_ctx :=
  if index c =? rate c then permute (set_index c 0) else c.

(** One iteration of the loop of [sha3_update_aligned], on the eight bytes
    [bs] at [p]. *)
Definition absorb_word (c : sha3_ctx) (bs : list Z) : sha3_ctx :=
  let k := Z.to_nat (index c / 8) in
  let c := set_u8 c (store64 h (u8 c) k (load64 h (u8 c) k .^ read64le bs)) in
  let c := set_index c (uint8_t (index c + 8)) in
  block_boundary c.

(** [sha3_update_aligned]; [len] is the length of [buf].  The caller has
    checked that it is a multiple of 8; an incomplete last word, which the
    C loop would read past the end of the buffer, ends the loop here. *)
Fixpoint sha3_update_aligned (c : sha3_ctx) (buf : list byte) : sha3_ctx :=
  match buf with
  | b0 :: b1 :: b2 :: b3 :: b4 :: b5 :: b6 :: b7 :: buf' =>
      sha3_update_aligned
        (absorb_word c (byte_value <$> [b0; b1; b2; b3; b4; b5; b6; b7])) buf'
  | _ => c
  end.

(** One iteration of the byte loop of [sha3_update]. *)
Definition absorb_byte (c : sha3_ctx) (b : byte) : sha3_ctx :=
  let c :=
    match h with
    | BigEndian =>
        let i := index c in
        let c := set_index c (uint8_t (index c + 1)) in
        let j := Z.to_nat (i / 8 + (7 - i mod 8)) in
        set_u8 c (u8 c).[j <- (u8 c).[j] .^ byte_value b]
    | LittleEndian =>
        let j := Z.to_nat (index c) in
        let c := set_index c (uint8_t (index c + 1)) in
        set_u8 c (u8 c).[j <- (u8 c).[j] .^ byte_value b]
    end in
  block_boundary c.

(** [sha3_update(ctx, buf, len)]: [addr] is the address [buf] points to and
    the list is the [len] bytes there. *)
Definition sha3_update (c : sha3_ctx) (addr : Z) (buf : list byte) : sha3_ctx :=
  let len := Z.of_nat (length buf) in
  if (len .& 7 =? 0) && (index c .& 7 =? 0) && (addr .& 7 =? 0)
  then sha3_update_aligned c buf
  else foldl absorb_byte c buf.

(** [sha3_final(ctx, md)]: the bytes written to [md] and the context left
    behind. *)
Definition sha3_final (c : sha3_ctx) : list Z * sha3_ctx :=
  let i := Z.to_nat (index c) in
  let c := set_u8 c (u8 c).[i <- (u8 c).[i] .^ 0x06] in
  let r := Z.to_nat (rate c - 1) in
  let c := set_u8 c (u8 c).[r <- (u8 c).[r] .^ 0x80] in
  let c := permute c in
  let md := take (Z.to_nat (size c)) (u8 c) in
  (md, set_u8 c (replicate 200 0)).

End driver.

(** The three calls of the interface in a row. *)
Definition sha3 (h : byte_order) (algo : sha3_algo) (c : sha3_ctx)
    (addr : Z) (msg : list byte) : list Z :=
  (sha3_final h (sha3_update h (sha3_init c algo) addr msg)).1.


(** ** The driver with the bounds of the arrays

    In C an access to [ctx->u8] outside its 200 bytes, to [ctx->u64] outside
    its 25 lanes, or to the input beyond its [len] bytes is undefined.  Here
    the driver is written once more with each of these accesses checked:
    [None] is an access out of bounds. *)

Definition in_bounds (i n : Z) : bool := (0 <=? i) && (i <? n).

Section driver_checked.
Variable h : byte_order.

(** [ctx->u8[j] ^= v] *)
Definition xor_u8 (c : sha3_ctx) (j v : Z) : option sha3_ctx :=
  if in_bounds j 200
  then Some (set_u8 c (u8 c).[Z.to_nat j <- (u8 c).[Z.to_nat j] .^ v])
  else None.

(** [ctx->u64[k] ^= w] *)
Definition xor_u64 (c : sha3_ctx) (k w : Z) : option sha3_ctx :=
  if in_bounds k 25
  then Some (set_u8 c (store64 h (u8 c) (Z.to_nat k)
                         (load64 h (u8 c) (Z.to_nat k) .^ w)))
  else None.

(** The loop of [sha3_update_aligned]: [while (len)] with [len -= 8] reads
    eight bytes at a time, beyond the end of the input when [len] is not a
    multiple of 8. *)
Fixpoint sha3_update_aligned_checked (c : sha3_ctx) (buf : list byte) : option sha3_ctx :=
  match buf with
  | [] => Some c
  | b0 :: b1 :: b2 :: b3 :: b4 :: b5 :: b6 :: b7 :: buf' =>
      match xor_u64 c (index c / 8)
              (read64le h (byte_value <$> [b0; b1; b2; b3; b4; b5; b6; b7])) with
      | Some c =>
          let c := set_index c (uint8_t (index c + 8)) in
          sha3_update_aligned_checked (block_boundary h c) buf'
      | None => None
      end
  | _ => None
  end.

Definition absorb_byte_checked (c : sha3_ctx) (b : byte) : option sha3_ctx :=
  match h with
  | BigEndian =>
      let i := index c in
      let c := set_index c (uint8_t (index c + 1)) in
      match xor_u8 c (i / 8 + (7 - i mod 8)) (byte_value b) with
      | Some c => Some (block_boundary h c)
      | None => None
      end
  | LittleEndian =>
      let i := index c in
      let c := set_index c (uint8_t (index c + 1)) in
      match xor_u8 c i (byte_value b) with
      | Some c => Some (block_boundary h c)
      | None => None
      end
  end.

(** The byte loop of [sha3_update]. *)
Fixpoint absorb_bytes_checked (c : sha3_ctx) (buf : list byte) : option sha3_ctx :=
  match buf with
  | [] => Some c
  | b :: buf' =>
      match absorb_byte_checked c b with
      | Some c => absorb_bytes_checked c buf'
      | None => None
      end
  end.

Definition sha3_update_checked (c : sha3_ctx) (addr : Z) (buf : list byte) : option sha3_ctx :=
  let len := Z.of_nat (length buf) in
  if (len .& 7 =? 0) && (index c .& 7 =? 0) && (addr .& 7 =? 0)
  then sha3_update_aligned_checked c buf
  else absorb_bytes_checked c buf.

(** [memcpy(md, ctx->u8, ctx->size)] reads [size] bytes of the 200. *)
Definition sha3_final_checked (c : sha3_ctx) : option (list Z * sha3_ctx) :=
  match xor_u8 c (index c) 0x06 with
  | Some c =>
      match xor_u8 c (rate c - 1) 0x80 with
      | Some c =>
          let c := permute h c in
          if size c <=? 200
          then Some (take (Z.to_nat (size c)) (u8 c), set_u8 c (replicate 200 0))
          else None
      | None => None
      end
  | None => None
  end.

End driver_checked.


(** ** The permutation in the words of the specification

    The step mappings as the specification describes them: functions of the
    lane coordinates [(x, y)], lane [(x, y)] being at flat index [x + 5y], each
    reading the whole state produced by the previous mapping. *)

Module Spec.

Definition lane (A : list Z) (x y : nat) : Z := A.[x + 5 * y].

(** The state whose lane [(x, y)] is [f x y]. *)
Definition state_of (f : nat → nat → Z) : list Z :=
  (λ k, f (k mod 5) (k / 5))%nat <$> seq 0 25.

(** Circular left rotation of a 64-bit value. *)
Definition rotateLeft (w n : Z) : Z := rotl64 (M := Pure) w n.

Definition parity (A : list Z) (x : nat) : Z :=
  lane A x 0 .^ lane A x 1 .^ lane A x 2 .^ lane A x 3 .^ lane A x 4.

Definition theta (A : list Z) : list Z :=
  state_of (λ x y,
    lane A x y .^ (parity A ((x + 4) mod 5) .^ rotateLeft (parity A ((x + 1) mod 5)) 1)).

(** The rotation offsets of the standard (FIPS 202, Algorithm 2): starting
    from [(x, y) = (1, 0)], step [t] gives lane [(x, y)] the offset
    [(t + 1)(t + 2) / 2] and moves to [(y, (2x + 3y) mod 5)]. *)
Fixpoint rho_walk (n t x y : nat) : list (nat * nat * Z) :=
  match n with
  | O => []
  | S n' =>
      (x, y, Z.of_nat ((t + 1) * (t + 2) / 2)) ::
      rho_walk n' (t + 1) y ((2 * x + 3 * y) mod 5)
  end%nat.

Definition rho_offset (x y : nat) : Z :=
  match List.find (λ e, Nat.eqb e.1.1 x && Nat.eqb e.1.2 y) (rho_walk 24 0 1 0) with
  | Some e => e.2 mod 64
  | None => 0
  end.

Definition rho (A : list Z) : list Z :=
  state_of (λ x y,
    match x, y with
    | O, O => lane A 0 0
    | _, _ => rotateLeft (lane A x y) (rho_offset x y)
    end).

(** FIPS 202, Algorithm 3: [A'[x, y] = A[(x + 3y) mod 5, x]]. *)
Definition pi (A : list Z) : list Z :=
  state_of (λ x y, lane A ((x + 3 * y) mod 5) x).

Definition chi (A : list Z) : list Z :=
  state_of (λ x y,
    lane A x y .^ (not64 (lane A ((x + 1) mod 5) y) .& lane A ((x + 2) mod 5) y)).

Definition iota (i_r : nat) (A : list Z) : list Z :=
  state_of (λ x y,
    match x, y with
    | O, O => lane A 0 0 .^ RC.[i_r]
    | _, _ => lane A x y
    end).

Definition round (i_r : nat) (A : list Z) : list Z :=
  iota i_r (chi (pi (rho (theta A)))).

Definition keccak_f (A : list Z) : list Z :=
  foldl (λ A i_r, round i_r A) A (seq 0 24).

End Spec.

(** ** FIPS 202

    The standard, transcribed: bit strings are lists of booleans, a state
    array is a function of the coordinates [(x, y, z)], and the step mappings,
    KECCAK-p, the sponge construction, the padding rule and the four hash
    functions are those of Sections 3 to 6.  Section and algorithm numbers
    refer to the standard. *)

Module FIPS202.

(** Section 2.3: [Trunc_s(X)], [0^s] and [X ⊕ Y]. *)
Definition Trunc (s : nat) (X : list bool) : list bool := take s X.
Definition zeros (s : nat) : list bool := replicate s false.
Definition xor_string (X Y : list bool) : list bool := zip_with xorb X Y.

(** Section 3.1: the width [b] of the permutation, the lane size [w] and
    its binary logarithm [l]. *)
Definition b : nat := 1600.
Definition w : Z := 64.
Definition l : nat := 6.

Definition state_array : Type := Z → Z → Z → bool.

(** Section 3.1.2: [A[x, y, z] = S[w(5y + x) + z]]. *)
Definition array_of_string (S : list bool) : state_array :=
  λ x y z, S.[Z.to_nat (w * (5 * y + x) + z)].

(** Section 3.1.3: lanes, planes and the string of a state array. *)
Definition Lane (A : state_array) (i j : Z) : list bool :=
  (λ z, A i j (Z.of_nat z)) <$> seq 0 (Z.to_nat w).

Definition Plane (A : state_array) (j : Z) : list bool :=
  Lane A 0 j ++ Lane A 1 j ++ Lane A 2 j ++ Lane A 3 j ++ Lane A 4 j.

Definition string_of_array (A : state_array) : list bool :=
  Plane A 0 ++ Plane A 1 ++ Plane A 2 ++ Plane A 3 ++ Plane A 4.

(** [(z - k) mod w], the arithmetic of the third coordinate. *)
Definition zsub (z k : Z) : Z := (z - k) mod w.

(** Algorithm 1: θ. *)
Definition theta (A : state_array) : state_array :=
  let C := λ x z,
    xorb (xorb (xorb (xorb (A x 0 z) (A x 1 z)) (A x 2 z)) (A x 3 z)) (A x 4 z) in
  let D := λ x z, xorb (C ((x - 1) mod 5) z) (C ((x + 1) mod 5) (zsub z 1)) in
  λ x y z, xorb (A x y z) (D x z).

(** [A'[x, y, z] = lane z] for all [z], the rest of [A'] as it is. *)
Definition assign_lane (A' : state_array) (x y : Z) (lane : Z → bool) : state_array :=
  λ x' y' z, if (x' =? x) && (y' =? y) then lane z else A' x' y' z.

(** Algorithm 2: ρ. *)
Definition rho (A : state_array) : state_array :=
  let A' := assign_lane (λ _ _ _, false) 0 0 (A 0 0) in
  (foldl (λ '(x, y, A') t,
            (y, (2 * x + 3 * y) mod 5,
             assign_lane A' x y (λ z, A x y (zsub z ((t + 1) * (t + 2) / 2)))))
         (1, 0, A') (Z.of_nat <$> seq 0 24)).2.

(** Algorithm 3: π. *)
Definition pi (A : state_array) : state_array :=
  λ x y z, A ((x + 3 * y) mod 5) x z.

(** Algorithm 4: χ. *)
Definition chi (A : state_array) : state_array :=
  λ x y z,
    xorb (A x y z) (andb (xorb (A ((x + 1) mod 5) y z) true) (A ((x + 2) mod 5) y z)).

(** Algorithm 5: [rc(t)]. *)
Definition rc (t : Z) : bool :=
  if t mod 255 =? 0 then true
  else
    let R := [true; false; false; false; false; false; false; false] in
    let R := foldl (λ R _,
                      let R := false :: R in
                      let R := R.[0 <- xorb R.[0] R.[8]] in
                      let R := R.[4 <- xorb R.[4] R.[8]] in
                      let R := R.[5 <- xorb R.[5] R.[8]] in
                      let R := R.[6 <- xorb R.[6] R.[8]] in
                      Trunc 8 R)
                   R (seq 1 (Z.to_nat (t mod 255))) in
    R.[0].

(** Algorithm 6: the round constant, and ι. *)
Definition RC (i_r : Z) : list bool :=
  foldl (λ RC j, RC.[2 ^ j - 1 <- rc (Z.of_nat j + 7 * i_r)])
        (zeros (Z.to_nat w)) (seq 0 (l + 1)).

Definition iota (A : state_array) (i_r : Z) : state_array :=
  λ x y z,
    if (x =? 0) && (y =? 0) then xorb (A 0 0 z) (RC i_r).[Z.to_nat z] else A x y z.

(** Section 3.3: [Rnd(A, i_r) = ι(χ(π(ρ(θ(A)))), i_r)]. *)
Definition Rnd (A : state_array) (i_r : Z) : state_array :=
  iota (chi (pi (rho (theta A)))) i_r.

(** Algorithm 7: KECCAK-p[1600, n_r], the rounds [12 + 2l - n_r] to
    [12 + 2l - 1]. *)
Definition KECCAK_p (n_r : nat) (S : list bool) : list bool :=
  let A := array_of_string S in
  let A := foldl Rnd A (Z.of_nat <$> seq (12 + 2 * l - n_r) n_r) in
  string_of_array A.

(** Algorithm 9: [pad10*1(x, m)]. *)
Definition pad10star1 (x m : Z) : list bool :=
  let j := (- m - 2) mod x in
  [true] ++ zeros (Z.to_nat j) ++ [true].

(** The [n] blocks of [r] bits of [P]. *)
Fixpoint blocks (r n : nat) (P : list bool) : list (list bool) :=
  match n with
  | O => []
  | S n' => take r P :: blocks r n' (drop r P)
  end.

(** Steps 7 to 10 of Algorithm 8: [Z] grows by [Trunc_r(S)] until it has [d]
    bits; [fuel] bounds the number of further applications of [f]. *)
Fixpoint squeeze (fuel : nat) (f : list bool → list bool) (r d : nat)
    (S Z : list bool) : list bool :=
  let Z := Z ++ Trunc r S in
  if decide (d ≤ length Z)%nat then Trunc d Z
  else
    match fuel with
    | O => Trunc d Z
    | S fuel' => squeeze fuel' f r d (f S) Z
    end.

(** Algorithm 8: SPONGE[f, pad, r](N, d). *)
Definition SPONGE (f : list bool → list bool) (pad : Z → Z → list bool)
    (r : nat) (N : list bool) (d : nat) : list bool :=
  let P := N ++ pad (Z.of_nat r) (Z.of_nat (length N)) in
  let n := (length P / r)%nat in
  let c := (b - r)%nat in
  let S := foldl (λ S P_i, f (xor_string S (P_i ++ zeros c))) (zeros b) (blocks r n P) in
  squeeze d f r d S [].

(** Section 5.2: KECCAK[c]. *)
Definition KECCAK (c : nat) (N : list bool) (d : nat) : list bool :=
  SPONGE (KECCAK_p 24) pad10star1 (1600 - c) N d.

(** Section 6.1: the hash functions. *)
Definition SHA3_224 (M : list bool) : list bool := KECCAK 448 (M ++ [false; true]) 224.
Definition SHA3_256 (M : list bool) : list bool := KECCAK 512 (M ++ [false; true]) 256.
Definition SHA3_384 (M : list bool) : list bool := KECCAK 768 (M ++ [false; true]) 384.
Definition SHA3_512 (M : list bool) : list bool := KECCAK 1024 (M ++ [false; true]) 512.

(** Appendix B.1: a byte is the bits [b0 .. b7] with the value
    [b0 + 2 b1 + ... + 128 b7]; a string of bytes is the bits of its bytes in
    a row. *)
Definition bits_of_byte (h : Z) : list bool :=
  (λ j, Z.testbit h (Z.of_nat j)) <$> seq 0 8.

Definition h2b (H : list Z) : list bool := H ≫= bits_of_byte.

Definition byte_of_bits (B : list bool) : Z :=
  foldr (λ (bit : bool) h, Z.b2z bit + 2 * h) 0 B.

Fixpoint b2h (n : nat) (S : list bool) : list Z :=
  match n with
  | O => []
  | S n' => byte_of_bits (take 8 S) :: b2h n' (drop 8 S)
  end.

End FIPS202.

(** The digest of the message [msg] for the selector [algo] according to the
    standard, as bytes. *)
Definition fips202_digest (algo : sha3_algo) (msg : list byte) : list Z :=
  let M := FIPS202.h2b (byte_value <$> msg) in
  match algo with
  | SHA3_224 => FIPS202.b2h 28 (FIPS202.SHA3_224 M)
  | SHA3_256 => FIPS202.b2h 32 (FIPS202.SHA3_256 M)
  | SHA3_384 => FIPS202.b2h 48 (FIPS202.SHA3_384 M)
  | SHA3_512 => FIPS202.b2h 64 (FIPS202.SHA3_512 M)
  end.

(** ** Well-formed contexts *)

Definition is_byte (b : Z) : Prop := 0 ≤ b < 256.

#[export] Instance is_byte_dec (b : Z) : Decision (is_byte b).
Proof. unfold is_byte. apply _. Defined.

(** What [sha3_init] establishes and [sha3_update] maintains: the parameters
    of one of the four algorithms, a fill index below the rate, and 200 state
    bytes. *)
Record initialized (c : sha3_ctx) : Prop := Initialized {
  init_size : size c ∈ [28; 32; 48; 64];
  init_rate : rate c = 200 - 2 * size c;
  init_index : 0 ≤ index c < rate c;
  init_length : length (u8 c) = 200%nat;
  init_bytes : Forall is_byte (u8 c)
}.

(** ** Auxiliary definitions *)

(** [m] after the bytes [vs] have been XORed into it from offset [j] on, one
    byte after the other. *)
Fixpoint xor_bytes (m : list Z) (j : nat) (vs : list Z) : list Z :=
  match vs with
  | [] => m
  | v :: vs' => xor_bytes m.[j <- m.[j] .^ v] (S j) vs'
  end.

(** ** Lanes as bits *)

Definition is_lane (w : Z) : Prop := 0 ≤ w < 2 ^ 64.

(** The state array of 25 lanes: bit [z] of lane [(x, y)] is bit [z] of the
    word at index [x + 5y]. *)
Definition array_of_lanes (L : list Z) : FIPS202.state_array :=
  λ x y z, Z.testbit L.[Z.to_nat (5 * y + x)] z.

(** Two state arrays with the same bits. *)
Definition same_bits (A B : FIPS202.state_array) : Prop :=
  ∀ x y z, 0 ≤ x < 5 → 0 ≤ y < 5 → 0 ≤ z < 64 → A x y z = B x y z.

(** The [n] low bits of a word, least significant first; the 64 bits of a
    lane, and the 1600 bits of 25 lanes. *)
Definition bits (n : nat) (w : Z) : list bool :=
  (λ z, Z.testbit w (Z.of_nat z)) <$> seq 0 n.

Definition lane_bits (w : Z) : list bool := bits 64 w.

Definition lanes_bits (L : list Z) : list bool := L ≫= lane_bits.

(** ** The sponge on bytes *)

(** The padding of a message that leaves [k] bytes in a block of [r] bytes:
    the suffix 01 and [pad10*1], as bytes. *)
Definition pad_bytes (r k : nat) : list Z :=
  if decide (k + 1 = r)%nat then [0x86]
  else [0x06] ++ replicate (r - k - 2) 0 ++ [0x80].

(** The state [m] after the first [n] blocks of [r] bytes of [P] have been
    absorbed on a little-endian host. *)
Fixpoint absorb_blocks (n r : nat) (m P : list Z) : list Z :=
  match n with
  | O => m
  | S n' =>
      absorb_blocks n' r
        (keccakf_1600_u64 LittleEndian (xor_bytes m 0 (take r P))) (drop r P)
  end.

(** A shift of a rotation whose count is one the permutation may use. *)
Definition rotation_shift (s : shift) : Prop :=
  match s with
  | Shl n => 1 ≤ n ≤ 62
  | Shr n => 2 ≤ n ≤ 63
  end.

(** The digest with the hexadecimal notation [x], as [n] bytes. *)
Definition digest (n : nat) (x : Z) : list Z := reverse (le_split n x).

(** * Properties *)

(** ** Tactics *)

(** Read the fields of an updated context. *)
Ltac fields := unfold set_index, set_u8; cbn [index rate size u8].

(** Evaluate a term down to the bitwise operations on the lanes. *)
Ltac lanewise :=
  cbv -[Z.lxor Z.land Z.lor Z.shiftl Z.shiftr Z.lnot uint64_t].

(** Name the 25 lanes of a state. *)
Ltac lanes25 A H :=
  do 25 (destruct A as [|? A]; [discriminate H|]);
  destruct A; [clear H|discriminate H].

(** ** The two versions of the permutation *)

Lemma mfor_pure {S : Type} (idx : list nat) (body : nat → S → Pure S) (s : S) :
  mfor (M := Pure) idx body s = foldl (λ s i, body i s) s idx.
Proof. revert s. induction idx as [|i idx IH]; intros s; [done|]. apply IH. Qed.

Lemma round_loop_unrolled (i_r : nat) (A : list Z) :
  length A = 25%nat →
  round_loop (M := Pure) i_r A = round_unrolled (M := Pure) i_r A.
Proof. intros H. lanes25 A H. lanewise. reflexivity. Qed.

Lemma round_loop_spec (i_r : nat) (A : list Z) :
  length A = 25%nat →
  round_loop (M := Pure) i_r A = Spec.round i_r A.
Proof. intros H. lanes25 A H. lanewise. reflexivity. Qed.

Lemma round_unrolled_length (i_r : nat) (A : list Z) :
  length A = 25%nat → length (round_unrolled (M := Pure) i_r A) = 25%nat.
Proof. intros H. lanes25 A H. reflexivity. Qed.

Lemma round_loop_checked (i_r : nat) (A : list Z) :
  length A = 25%nat →
  round_loop (M := Checked) i_r A = Some (round_loop (M := Pure) i_r A).
Proof. intros H. lanes25 A H. lanewise. reflexivity. Qed.

Lemma round_unrolled_checked (i_r : nat) (A : list Z) :
  length A = 25%nat →
  round_unrolled (M := Checked) i_r A = Some (round_unrolled (M := Pure) i_r A).
Proof. intros H. lanes25 A H. lanewise. reflexivity. Qed.

Lemma mfor_pure_cons {S : Type} (i : nat) (idx : list nat)
    (body : nat → S → Pure S) (s : S) :
  mfor (M := Pure) (i :: idx) body s = mfor (M := Pure) idx body (body i s).
Proof. reflexivity. Qed.

Lemma mfor_checked_cons {S : Type} (i : nat) (idx : list nat)
    (body : nat → S → Checked S) (s s' : S) :
  body i s = Some s' →
  mfor (M := Checked) (i :: idx) body s = mfor (M := Checked) idx body s'.
Proof. intros H. cbn [mfor]. rewrite H. reflexivity. Qed.

Lemma rounds_unrolled_length (idx : list nat) (A : list Z) :
  length A = 25%nat →
  length (mfor (M := Pure) idx round_unrolled A) = 25%nat.
Proof.
  revert A. induction idx as [|i idx IH]; intros A HA; [exact HA|].
  rewrite mfor_pure_cons. apply IH, round_unrolled_length, HA.
Qed.

Lemma rounds_loop_unrolled (idx : list nat) (A : list Z) :
  length A = 25%nat →
  mfor (M := Pure) idx round_loop A = mfor (M := Pure) idx round_unrolled A.
Proof.
  revert A. induction idx as [|i idx IH]; intros A HA; [reflexivity|].
  rewrite !mfor_pure_cons, round_loop_unrolled by exact HA.
  apply IH, round_unrolled_length, HA.
Qed.

Lemma keccakf_1600_loop_unrolled (A : list Z) :
  length A = 25%nat →
  keccakf_1600_loop (M := Pure) A = keccakf_1600_unrolled (M := Pure) A.
Proof. apply rounds_loop_unrolled. Qed.

Lemma keccakf_1600_unrolled_length (A : list Z) :
  length A = 25%nat → length (keccakf_1600_unrolled (M := Pure) A) = 25%nat.
Proof. apply rounds_unrolled_length. Qed.

Lemma rounds_loop_checked (idx : list nat) (A : list Z) :
  length A = 25%nat →
  mfor (M := Checked) idx round_loop A = Some (mfor (M := Pure) idx round_loop A).
Proof.
  revert A. induction idx as [|i idx IH]; intros A HA; [reflexivity|].
  rewrite (mfor_checked_cons _ _ _ _ _ (round_loop_checked i A HA)), mfor_pure_cons.
  apply IH. rewrite round_loop_unrolled by exact HA.
  apply round_unrolled_length, HA.
Qed.

Lemma rounds_unrolled_checked (idx : list nat) (A : list Z) :
  length A = 25%nat →
  mfor (M := Checked) idx round_unrolled A
  = Some (mfor (M := Pure) idx round_unrolled A).
Proof.
  revert A. induction idx as [|i idx IH]; intros A HA; [reflexivity|].
  rewrite (mfor_checked_cons _ _ _ _ _ (round_unrolled_checked i A HA)), mfor_pure_cons.
  apply IH, round_unrolled_length, HA.
Qed.

Lemma keccakf_1600_loop_spec (A : list Z) :
  length A = 25%nat → keccakf_1600_loop (M := Pure) A = Spec.keccak_f A.
Proof.
  unfold keccakf_1600_loop, Spec.keccak_f.
  generalize (seq 0 24). intros idx. revert A.
  induction idx as [|i idx IH]; intros A HA; [reflexivity|].
  rewrite mfor_pure_cons. cbn [foldl]. rewrite <- round_loop_spec by exact HA.
  apply IH. rewrite round_loop_unrolled by exact HA.
  apply round_unrolled_length, HA.
Qed.

Lemma rotl64_checked_defined (x n : Z) :
  is_Some (rotl64 (M := Checked) x n) ↔ 1 ≤ n ≤ 63.
Proof.
  unfold rotl64, shl64, shr64, Checked_shifts, mbind, Checked_bind, size_t.
  destruct (Z.leb_spec 0 n), (Z.ltb_spec n 64); cbn [andb].
  - destruct (Z.eq_dec n 0) as [->|].
    + cbn. split; [intros [? [=]]|lia].
    + rewrite (Z.mod_small (64 - n)) by lia.
      destruct (Z.leb_spec 0 (64 - n)), (Z.ltb_spec (64 - n) 64); try lia.
      cbn. split; [lia|eauto].
  - split; [intros [? [=]]|lia].
  - split; [intros [? [=]]|lia].
  - split; [intros [? [=]]|lia].
Qed.

(** ** Bytes *)

Lemma is_byte_land (b : Z) : is_byte b ↔ b .& 0xff = b.
Proof.
  unfold is_byte. change 0xff with (Z.ones 8). rewrite Z.land_ones by lia.
  split; [intros H; apply Z.mod_small; lia|].
  intros <-. apply Z.mod_pos_bound. lia.
Qed.

Lemma is_byte_land_ff (w : Z) : is_byte (w .& 0xff).
Proof.
  apply is_byte_land. rewrite <- Z.land_assoc. reflexivity.
Qed.

Lemma land_lxor_distr_l (a b c : Z) : (a .^ b) .& c = (a .& c) .^ (b .& c).
Proof.
  apply Z.bits_inj'. intros n _. rewrite Z.land_spec, !Z.lxor_spec, !Z.land_spec.
  destruct (Z.testbit a n), (Z.testbit b n), (Z.testbit c n); reflexivity.
Qed.

Lemma is_byte_lxor (a b : Z) : is_byte a → is_byte b → is_byte (a .^ b).
Proof.
  rewrite !is_byte_land. intros Ha Hb.
  rewrite land_lxor_distr_l, Ha, Hb. reflexivity.
Qed.

Lemma is_byte_value (b : byte) : is_byte (byte_value b).
Proof.
  unfold is_byte, byte_value. pose proof (Byte.to_N_bounded b). lia.
Qed.

Lemma testbit_byte_high (b n : Z) : is_byte b → 8 ≤ n → Z.testbit b n = false.
Proof.
  intros Hb Hn. apply is_byte_land in Hb. rewrite <- Hb.
  change 0xff with (Z.ones 8). rewrite Z.land_spec, Z.ones_spec_high by lia.
  apply andb_false_r.
Qed.

Lemma Forall_is_byte_insert (m : list Z) (j : nat) (b : Z) :
  Forall is_byte m → is_byte b → Forall is_byte m.[j <- b].
Proof. intros Hm Hb. apply Forall_insert; assumption. Qed.

Lemma is_byte_lookup_total (m : list Z) (j : nat) :
  Forall is_byte m → is_byte m.[j].
Proof.
  intros Hm. destruct (decide (j < length m)%nat) as [Hj|Hj].
  - eapply Forall_lookup_total_1; eassumption.
  - rewrite list_lookup_total_alt, lookup_ge_None_2 by lia. done.
Qed.

Lemma Forall_is_byte_le_split (n : nat) (w : Z) : Forall is_byte (le_split n w).
Proof.
  revert w. induction n as [|n IH]; intros w; cbn [le_split]; constructor.
  - apply is_byte_land_ff.
  - apply IH.
Qed.

Lemma length_le_split (n : nat) (w : Z) : length (le_split n w) = n.
Proof. revert w. induction n as [|n IH]; intros w; cbn; [done|]. by rewrite IH. Qed.

Lemma Forall_is_byte_split64 (h : byte_order) (w : Z) : Forall is_byte (split64 h w).
Proof.
  destruct h; unfold split64; [|apply Forall_reverse]; apply Forall_is_byte_le_split.
Qed.

Lemma length_split64 (h : byte_order) (w : Z) : length (split64 h w) = 8%nat.
Proof. destruct h; unfold split64; rewrite ?length_reverse; apply length_le_split. Qed.

Lemma u64_bytes_cons (h : byte_order) (a : Z) (A : list Z) :
  u64_bytes h (a :: A) = split64 h a ++ u64_bytes h A.
Proof. reflexivity. Qed.

Lemma length_u64_bytes (h : byte_order) (A : list Z) :
  length (u64_bytes h A) = (8 * length A)%nat.
Proof.
  induction A as [|a A IH]; [done|].
  rewrite u64_bytes_cons, length_app, length_split64, IH. cbn [length]. lia.
Qed.

Lemma Forall_is_byte_u64_bytes (h : byte_order) (A : list Z) :
  Forall is_byte (u64_bytes h A).
Proof.
  induction A as [|a A IH]; [constructor|].
  rewrite u64_bytes_cons. apply Forall_app. split; [apply Forall_is_byte_split64|apply IH].
Qed.

Lemma length_u64 (h : byte_order) (m : list Z) : length (u64 h m) = 25%nat.
Proof. unfold u64. by rewrite length_fmap, length_seq. Qed.

(** ** Contexts stay well-formed *)

Lemma initialized_rate (c : sha3_ctx) :
  initialized c →
  rate c ∈ [144; 136; 104; 72] ∧ rate c mod 8 = 0 ∧ 0 < rate c ≤ 144.
Proof.
  intros [Hs Hr _ _ _]. rewrite Hr.
  repeat (apply elem_of_cons in Hs as [->|Hs]); [..|by apply elem_of_nil in Hs];
    (split; [repeat constructor|split; [reflexivity|lia]]).
Qed.

Lemma sha3_init_initialized (c : sha3_ctx) (algo : sha3_algo) :
  initialized (sha3_init c algo).
Proof.
  destruct algo;
    (split; unfold sha3_init; cbn [index rate size u8 algo_value];
     [repeat constructor|reflexivity|split; [lia|reflexivity]
     |apply length_replicate|apply Forall_replicate; unfold is_byte; lia]).
Qed.

Lemma permute_fields (h : byte_order) (c : sha3_ctx) :
  index (permute h c) = index c ∧ rate (permute h c) = rate c ∧
  size (permute h c) = size c ∧ length (u8 (permute h c)) = 200%nat ∧
  Forall is_byte (u8 (permute h c)).
Proof.
  unfold permute, keccakf_1600_u64. fields. repeat split.
  - rewrite length_u64_bytes. unfold keccakf_1600.
    rewrite keccakf_1600_unrolled_length; [reflexivity|apply length_u64].
  - apply Forall_is_byte_u64_bytes.
Qed.

Lemma block_boundary_initialized (h : byte_order) (c : sha3_ctx) :
  size c ∈ [28; 32; 48; 64] → rate c = 200 - 2 * size c →
  0 < index c ≤ rate c → length (u8 c) = 200%nat → Forall is_byte (u8 c) →
  initialized (block_boundary h c).
Proof.
  intros Hs Hr Hi Hl Hb. unfold block_boundary.
  destruct (Z.eqb_spec (index c) (rate c)) as [E|E].
  - destruct (permute_fields h (set_index c 0)) as (Ei & Er & Es & El & Eb).
    split; rewrite ?Ei, ?Er, ?Es; fields; try assumption. lia.
  - split; try assumption. lia.
Qed.

Lemma absorb_byte_initialized (h : byte_order) (c : sha3_ctx) (b : byte) :
  initialized c → initialized (absorb_byte h c b).
Proof.
  intros Hc. destruct (initialized_rate c Hc) as (_ & _ & Hr).
  destruct Hc as [Hs Hrate Hi Hl Hb].
  assert (uint8_t (index c + 1) = index c + 1) as Hu
    by (unfold uint8_t; apply Z.mod_small; lia).
  unfold absorb_byte.
  destruct h; apply block_boundary_initialized; fields; rewrite ?Hu;
    try assumption; try lia; rewrite ?length_insert; try assumption;
    (apply Forall_is_byte_insert; [assumption|]);
    (apply is_byte_lxor; [by apply is_byte_lookup_total|apply is_byte_value]).
Qed.

Lemma absorb_bytes_initialized (h : byte_order) (c : sha3_ctx) (buf : list byte) :
  initialized c → initialized (foldl (absorb_byte h) c buf).
Proof.
  revert c. induction buf as [|b buf IH]; intros c Hc; [exact Hc|].
  apply IH, absorb_byte_initialized, Hc.
Qed.

(** ** Words and their bytes *)

Lemma le_combine_cons (b : Z) (bs : list Z) :
  le_combine (b :: bs) = b .| le_combine bs ≪ 8.
Proof. reflexivity. Qed.

Lemma byte_lor_low (b w : Z) : is_byte b → (b .| w ≪ 8) .& 0xff = b.
Proof.
  intros Hb. apply Z.bits_inj'. intros n Hn.
  change 0xff with (Z.ones 8). rewrite Z.land_spec, Z.lor_spec.
  destruct (Z.lt_ge_cases n 8).
  - rewrite Z.shiftl_spec_low, Z.ones_spec_low by lia.
    by rewrite orb_false_r, andb_true_r.
  - rewrite Z.ones_spec_high, (testbit_byte_high b n) by (assumption || lia).
    apply andb_false_r.
Qed.

Lemma byte_lor_high (b w : Z) : is_byte b → (b .| w ≪ 8) ≫ 8 = w.
Proof.
  intros Hb. apply Z.bits_inj'. intros n Hn.
  rewrite Z.shiftr_spec, Z.lor_spec, Z.shiftl_spec by lia.
  rewrite (testbit_byte_high b (n + 8)) by (assumption || lia).
  cbn [orb]. f_equal. lia.
Qed.

Lemma byte_lor_lxor (a b v w : Z) :
  is_byte a → is_byte b →
  (a .| v ≪ 8) .^ (b .| w ≪ 8) = (a .^ b) .| (v .^ w) ≪ 8.
Proof.
  intros Ha Hb. apply Z.bits_inj'. intros n Hn.
  rewrite Z.lxor_spec, !Z.lor_spec, Z.lxor_spec.
  destruct (Z.lt_ge_cases n 8).
  - rewrite !Z.shiftl_spec_low by lia. by rewrite !orb_false_r.
  - rewrite !Z.shiftl_spec, Z.lxor_spec by lia.
    by rewrite (testbit_byte_high a n), (testbit_byte_high b n) by (assumption || lia).
Qed.

Lemma le_split_le_combine (bs : list Z) :
  Forall is_byte bs → le_split (length bs) (le_combine bs) = bs.
Proof.
  induction 1 as [|b bs Hb _ IH]; [reflexivity|].
  cbn [length le_split]. rewrite le_combine_cons.
  by rewrite byte_lor_low, byte_lor_high, IH.
Qed.

Lemma le_combine_lxor (xs vs : list Z) :
  Forall is_byte xs → Forall is_byte vs → length xs = length vs →
  le_combine xs .^ le_combine vs = le_combine (zip_with Z.lxor xs vs).
Proof.
  intros Hxs. revert vs. induction Hxs as [|x xs Hx _ IH]; intros vs Hvs Hlen.
  - destruct vs; [reflexivity|discriminate].
  - destruct Hvs as [|v vs Hv Hvs]; [discriminate|].
    cbn [zip_with]. rewrite !le_combine_cons, byte_lor_lxor by assumption.
    rewrite IH by (assumption || (cbn in Hlen; lia)). reflexivity.
Qed.

Lemma Forall_is_byte_zip_lxor (xs vs : list Z) :
  Forall is_byte xs → Forall is_byte vs → Forall is_byte (zip_with Z.lxor xs vs).
Proof.
  intros Hxs. revert vs. induction Hxs as [|x xs Hx _ IH]; intros vs Hvs; [constructor|].
  destruct Hvs as [|v vs Hv Hvs]; [constructor|].
  cbn [zip_with]. constructor; [by apply is_byte_lxor|by apply IH].
Qed.

Lemma le_split_lxor (xs vs : list Z) :
  Forall is_byte xs → Forall is_byte vs → length xs = length vs →
  le_split (length xs) (le_combine xs .^ le_combine vs) = zip_with Z.lxor xs vs.
Proof.
  intros Hxs Hvs Hlen. rewrite le_combine_lxor by assumption.
  replace (length xs) with (length (zip_with Z.lxor xs vs))
    by (rewrite length_zip_with; lia).
  apply le_split_le_combine, Forall_is_byte_zip_lxor; assumption.
Qed.

(** ** XORing a run of bytes into the state *)

Lemma xor_bytes_app (pre mid post vs : list Z) :
  length mid = length vs →
  xor_bytes (pre ++ mid ++ post) (length pre) vs
  = pre ++ zip_with Z.lxor mid vs ++ post.
Proof.
  revert pre mid. induction vs as [|v vs IH]; intros pre mid Hlen.
  - destruct mid; [reflexivity|discriminate].
  - destruct mid as [|x mid]; [discriminate|].
    cbn [xor_bytes zip_with app].
    rewrite list_lookup_total_middle by reflexivity.
    rewrite insert_app_r_alt, Nat.sub_diag by lia. cbn [insert list_insert].
    replace (S (length pre)) with (length (pre ++ [x .^ v]))
      by (rewrite length_app; cbn; lia).
    rewrite (cons_middle (x .^ v) pre), (app_assoc pre).
    rewrite IH by (cbn in Hlen; lia).
    by rewrite <- app_assoc.
Qed.

Lemma middle_split (m : list Z) (j n : nat) :
  m = take j m ++ take n (drop j m) ++ drop (j + n) m.
Proof. by rewrite <- drop_drop, !take_drop. Qed.

Lemma xor_bytes_zip (m : list Z) (j : nat) (vs : list Z) :
  (j + length vs ≤ length m)%nat →
  xor_bytes m j vs
  = take j m ++ zip_with Z.lxor (take (length vs) (drop j m)) vs
      ++ drop (j + length vs) m.
Proof.
  intros Hlen.
  pose proof (xor_bytes_app (take j m) (take (length vs) (drop j m))
                (drop (j + length vs) m) vs) as H.
  rewrite <- middle_split in H.
  replace (length (take j m)) with j in H by (rewrite length_take; lia).
  apply H. rewrite length_take, length_drop. lia.
Qed.

Lemma length_xor_bytes (m : list Z) (j : nat) (vs : list Z) :
  length (xor_bytes m j vs) = length m.
Proof.
  revert m j. induction vs as [|v vs IH]; intros m j; [reflexivity|].
  cbn [xor_bytes]. by rewrite IH, length_insert.
Qed.

Lemma Forall_is_byte_xor_bytes (m : list Z) (j : nat) (vs : list Z) :
  Forall is_byte m → Forall is_byte vs → Forall is_byte (xor_bytes m j vs).
Proof.
  intros Hm Hvs. revert m j Hm. induction Hvs as [|v vs Hv _ IH]; intros m j Hm; [exact Hm|].
  cbn [xor_bytes]. apply IH, Forall_is_byte_insert; [exact Hm|].
  apply is_byte_lxor; [by apply is_byte_lookup_total|exact Hv].
Qed.

Lemma store64_xor_le (m : list Z) (k : nat) (vs : list Z) :
  Forall is_byte m → Forall is_byte vs → length vs = 8%nat →
  (8 * k + 8 ≤ length m)%nat →
  store64 LittleEndian m k (load64 LittleEndian m k .^ le_combine vs)
  = xor_bytes m (8 * k) vs.
Proof.
  intros Hm Hvs Hlen Hk. rewrite xor_bytes_zip by lia.
  unfold store64, load64, split64, combine64. rewrite Hlen.
  f_equal. f_equal.
  assert (length (take 8 (drop (8 * k) m)) = 8%nat) as H8
    by (rewrite length_take, length_drop; lia).
  rewrite <- H8 at 1. apply le_split_lxor.
  - by apply Forall_take, Forall_drop.
  - exact Hvs.
  - lia.
Qed.

(** ** The byte loop on a little-endian host *)

Lemma absorb_byte_le_inner (c : sha3_ctx) (b : byte) :
  0 ≤ index c < 255 → index c + 1 ≠ rate c →
  absorb_byte LittleEndian c b
  = {| index := index c + 1; rate := rate c; size := size c;
       u8 := xor_bytes (u8 c) (Z.to_nat (index c)) [byte_value b] |}.
Proof.
  intros Hi Hr. unfold absorb_byte, block_boundary. fields.
  replace (uint8_t (index c + 1)) with (index c + 1)
    by (unfold uint8_t; symmetry; apply Z.mod_small; lia).
  destruct (Z.eqb_spec (index c + 1) (rate c)); [contradiction|reflexivity].
Qed.

Lemma absorb_byte_le_last (c : sha3_ctx) (b : byte) :
  0 ≤ index c < 255 →
  absorb_byte LittleEndian c b
  = block_boundary LittleEndian
      {| index := index c + 1; rate := rate c; size := size c;
         u8 := xor_bytes (u8 c) (Z.to_nat (index c)) [byte_value b] |}.
Proof.
  intros Hi. unfold absorb_byte. fields.
  replace (uint8_t (index c + 1)) with (index c + 1)
    by (unfold uint8_t; symmetry; apply Z.mod_small; lia).
  reflexivity.
Qed.

Lemma xor_bytes_cons (m : list Z) (j : nat) (v : Z) (vs : list Z) :
  xor_bytes (xor_bytes m j [v]) (S j) vs = xor_bytes m j (v :: vs).
Proof. reflexivity. Qed.

(** A run of bytes that ends at or before the end of the block: the bytes are
    XORed in at the fill index, and the permutation runs if the block is
    full. *)
Lemma absorb_bytes_le_run (c : sha3_ctx) (bs : list byte) :
  bs ≠ [] → 0 ≤ index c → rate c ≤ 255 →
  index c + Z.of_nat (length bs) ≤ rate c →
  foldl (absorb_byte LittleEndian) c bs
  = block_boundary LittleEndian
      {| index := index c + Z.of_nat (length bs); rate := rate c; size := size c;
         u8 := xor_bytes (u8 c) (Z.to_nat (index c)) (byte_value <$> bs) |}.
Proof.
  revert c. induction bs as [|b bs IH]; intros c Hne Hi Hr Hlen; [done|].
  cbn [length] in Hlen. cbn [foldl].
  destruct bs as [|b' bs].
  - cbn [foldl length fmap list_fmap]. rewrite absorb_byte_le_last by lia. reflexivity.
  - rewrite absorb_byte_le_inner by (cbn [length] in Hlen; lia).
    rewrite IH; fields; [|done|lia|lia|cbn [length] in *; lia].
    f_equal. f_equal; [cbn [length]; lia|].
    replace (Z.to_nat (index c + 1)) with (S (Z.to_nat (index c))) by lia.
    apply xor_bytes_cons.
Qed.

(** ** The word loop on a little-endian host *)

Lemma absorb_word_le (c : sha3_ctx) (bs : list byte) :
  initialized c → index c mod 8 = 0 → length bs = 8%nat →
  absorb_word LittleEndian c (byte_value <$> bs)
  = foldl (absorb_byte LittleEndian) c bs.
Proof.
  intros Hc Hi Hbs. destruct (initialized_rate c Hc) as (_ & Hr8 & Hr).
  destruct Hc as [_ _ Hidx Hlen Hbytes].
  assert (index c + 8 ≤ rate c) as Hfit.
  { apply Z.mod_divide in Hi as [q Hq]; [|lia]. apply Z.mod_divide in Hr8 as [q' Hq']; [|lia].
    lia. }
  rewrite absorb_bytes_le_run; [|by destruct bs|lia|lia|lia].
  unfold absorb_word, read64le, combine64. fields.
  rewrite store64_xor_le.
  - rewrite Hbs. f_equal. f_equal.
    + unfold uint8_t. apply Z.mod_small. lia.
    + f_equal. apply Z.mod_divide in Hi as [q Hq]; [|lia]. rewrite Hq.
      rewrite Z.div_mul by lia. lia.
  - exact Hbytes.
  - apply Forall_fmap, Forall_forall. intros ? _. apply is_byte_value.
  - by rewrite length_fmap.
  - apply Z.mod_divide in Hi as [q Hq]; [|lia]. rewrite Hq, Z.div_mul by lia. lia.
Qed.

Lemma absorb_word_le_index (c : sha3_ctx) (bs : list byte) :
  initialized c → index c mod 8 = 0 → length bs = 8%nat →
  index (foldl (absorb_byte LittleEndian) c bs) mod 8 = 0.
Proof.
  intros Hc Hi Hbs. destruct (initialized_rate c Hc) as (_ & Hr8 & Hr).
  destruct Hc as [_ _ Hidx Hlen Hbytes].
  assert (index c + 8 ≤ rate c) as Hfit.
  { apply Z.mod_divide in Hi as [q Hq]; [|lia]. apply Z.mod_divide in Hr8 as [q' Hq']; [|lia].
    lia. }
  rewrite absorb_bytes_le_run; [|by destruct bs|lia|lia|lia].
  unfold block_boundary. fields. rewrite Hbs.
  destruct (Z.eqb_spec (index c + Z.of_nat 8) (rate c)).
  - match goal with |- index (permute ?h ?c') mod 8 = 0 =>
      destruct (permute_fields h c') as (-> & _) end.
    reflexivity.
  - fields. change (Z.of_nat 8) with 8. rewrite <- Zplus_mod_idemp_l, Hi. reflexivity.
Qed.

Lemma sha3_update_aligned_le_words (n : nat) (c : sha3_ctx) (buf : list byte) :
  initialized c → index c mod 8 = 0 → length buf = (8 * n)%nat →
  sha3_update_aligned LittleEndian c buf = foldl (absorb_byte LittleEndian) c buf.
Proof.
  revert c buf. induction n as [|n IH]; intros c buf Hc Hi Hlen.
  - destruct buf; [reflexivity|cbn [length] in Hlen; lia].
  - do 8 (destruct buf as [|? buf]; [cbn [length] in Hlen; lia|]).
    cbn [sha3_update_aligned].
    change (?a :: ?b :: ?c' :: ?d :: ?e :: ?f :: ?g :: ?i :: buf)
      with ([a; b; c'; d; e; f; g; i] ++ buf).
    rewrite foldl_app.
    rewrite (absorb_word_le c) by (assumption || reflexivity).
    apply IH.
    + by apply absorb_bytes_initialized.
    + by apply absorb_word_le_index.
    + cbn [length] in Hlen. lia.
Qed.

Lemma land_7 (x : Z) : x .& 7 = x mod 8.
Proof. change 7 with (Z.ones 3). by rewrite Z.land_ones. Qed.

Lemma sha3_update_aligned_le (c : sha3_ctx) (buf : list byte) :
  initialized c → index c mod 8 = 0 → Z.of_nat (length buf) mod 8 = 0 →
  sha3_update_aligned LittleEndian c buf = foldl (absorb_byte LittleEndian) c buf.
Proof.
  intros Hc Hi Hlen. apply Z.mod_divide in Hlen as [q Hq]; [|lia].
  apply (sha3_update_aligned_le_words (Z.to_nat q)); [assumption..|lia].
Qed.

Lemma sha3_update_le (c : sha3_ctx) (addr : Z) (buf : list byte) :
  initialized c →
  sha3_update LittleEndian c addr buf = foldl (absorb_byte LittleEndian) c buf.
Proof.
  intros Hc. unfold sha3_update. rewrite !land_7.
  destruct (Z.eqb_spec (Z.of_nat (length buf) mod 8) 0);
    destruct (Z.eqb_spec (index c mod 8) 0);
    destruct (Z.eqb_spec (addr mod 8) 0); cbn [andb]; try reflexivity.
  by apply sha3_update_aligned_le.
Qed.

Lemma sha3_update_le_initialized (c : sha3_ctx) (addr : Z) (buf : list byte) :
  initialized c → initialized (sha3_update LittleEndian c addr buf).
Proof.
  intros Hc. rewrite sha3_update_le by exact Hc. by apply absorb_bytes_initialized.
Qed.

(** ** The shifts executed by the permutation *)

Lemma mfor_traced_cons {S : Type} (i : nat) (idx : list nat)
    (body : nat → S → Traced S) (s : S) :
  mfor (M := Traced) (i :: idx) body s
  = ((body i s).1 ++ (mfor (M := Traced) idx body (body i s).2).1,
     (mfor (M := Traced) idx body (body i s).2).2).
Proof.
  cbn [mfor]. unfold mbind, Traced_bind.
  by destruct (mfor (M := Traced) idx body (body i s).2).
Qed.

Lemma round_loop_traced (i_r : nat) (A : list Z) :
  length A = 25%nat →
  Forall rotation_shift (round_loop (M := Traced) i_r A).1 ∧
  (round_loop (M := Traced) i_r A).2 = round_loop (M := Pure) i_r A.
Proof.
  intros H. lanes25 A H. split; [|lanewise; reflexivity].
  lanewise. repeat constructor; discriminate.
Qed.

Lemma round_unrolled_traced (i_r : nat) (A : list Z) :
  length A = 25%nat →
  Forall rotation_shift (round_unrolled (M := Traced) i_r A).1 ∧
  (round_unrolled (M := Traced) i_r A).2 = round_unrolled (M := Pure) i_r A.
Proof.
  intros H. lanes25 A H. split; [|lanewise; reflexivity].
  lanewise. repeat constructor; discriminate.
Qed.

Lemma rounds_unrolled_traced (idx : list nat) (A : list Z) :
  length A = 25%nat →
  Forall rotation_shift (mfor (M := Traced) idx round_unrolled A).1.
Proof.
  revert A. induction idx as [|i idx IH]; intros A HA; [constructor|].
  rewrite mfor_traced_cons. cbn [fst].
  destruct (round_unrolled_traced i A HA) as [Ht Hv].
  apply Forall_app. split; [exact Ht|].
  apply IH. rewrite Hv. apply round_unrolled_length, HA.
Qed.

Lemma rounds_loop_traced (idx : list nat) (A : list Z) :
  length A = 25%nat →
  Forall rotation_shift (mfor (M := Traced) idx round_loop A).1.
Proof.
  revert A. induction idx as [|i idx IH]; intros A HA; [constructor|].
  rewrite mfor_traced_cons. cbn [fst].
  destruct (round_loop_traced i A HA) as [Ht Hv].
  apply Forall_app. split; [exact Ht|].
  apply IH. rewrite Hv, round_loop_unrolled by exact HA.
  apply round_unrolled_length, HA.
Qed.

(** ** What [sha3_final] computes *)

Lemma sha3_final_context (h : byte_order) (c : sha3_ctx) :
  (sha3_final h c).2
  = {| index := index c; rate := rate c; size := size c; u8 := replicate 200 0 |}.
Proof. reflexivity. Qed.

Lemma sha3_final_digest (h : byte_order) (c : sha3_ctx) :
  (sha3_final h c).1
  = take (Z.to_nat (size c))
      (keccakf_1600_u64 h
         (u8 c).[Z.to_nat (index c) <- (u8 c).[Z.to_nat (index c)] .^ 0x06]
               .[Z.to_nat (rate c - 1) <-
                   (u8 c).[Z.to_nat (index c) <- (u8 c).[Z.to_nat (index c)] .^ 0x06]
                         .[Z.to_nat (rate c - 1)] .^ 0x80]).
Proof. reflexivity. Qed.

(** * FIPS 202 and the code *)

(** ** Bits of the lane operations *)

Lemma is_lane_testbit_high (w z : Z) : is_lane w → 64 ≤ z → Z.testbit w z = false.
Proof.
  intros [Hw0 Hw] Hz. destruct (Z.eq_dec w 0) as [->|Hne]; [apply Z.bits_0|].
  apply Z.bits_above_log2; [lia|]. apply Z.log2_lt_pow2; [lia|].
  pose proof (Z.pow_le_mono_r 2 64 z). lia.
Qed.

Lemma is_lane_bits (w : Z) :
  0 ≤ w → (∀ z, 64 ≤ z → Z.testbit w z = false) → is_lane w.
Proof.
  intros Hw0 Hhigh. split; [exact Hw0|].
  destruct (Z.lt_ge_cases w (2 ^ 64)) as [|Hge]; [assumption|exfalso].
  assert (64 ≤ Z.log2 w) as Hlog by (apply Z.log2_le_pow2; lia).
  specialize (Hhigh (Z.log2 w) Hlog). rewrite Z.bit_log2 in Hhigh by lia. discriminate.
Qed.

Lemma is_lane_uint64_t (w : Z) : is_lane (uint64_t w).
Proof. unfold is_lane, uint64_t. apply Z.mod_pos_bound. lia. Qed.

Lemma is_lane_lxor (a b : Z) : is_lane a → is_lane b → is_lane (a .^ b).
Proof.
  intros Ha Hb. apply is_lane_bits; [apply Z.lxor_nonneg; unfold is_lane in *; lia|].
  intros z Hz. by rewrite Z.lxor_spec, !is_lane_testbit_high.
Qed.

Lemma is_lane_land (a b : Z) : is_lane b → is_lane (a .& b).
Proof.
  intros Hb. apply is_lane_bits; [apply Z.land_nonneg; unfold is_lane in *; lia|].
  intros z Hz. rewrite Z.land_spec, (is_lane_testbit_high b) by assumption.
  apply andb_false_r.
Qed.

Lemma is_lane_lor (a b : Z) : is_lane a → is_lane b → is_lane (a .| b).
Proof.
  intros Ha Hb. apply is_lane_bits; [apply Z.lor_nonneg; unfold is_lane in *; lia|].
  intros z Hz. by rewrite Z.lor_spec, !is_lane_testbit_high.
Qed.

Lemma is_lane_shiftr (a n : Z) : is_lane a → 0 ≤ n → is_lane (a ≫ n).
Proof.
  intros Ha Hn. apply is_lane_bits; [apply Z.shiftr_nonneg; unfold is_lane in *; lia|].
  intros z Hz. rewrite Z.shiftr_spec by lia. apply is_lane_testbit_high; [assumption|lia].
Qed.

Lemma testbit_uint64_t (w z : Z) :
  0 ≤ z < 64 → Z.testbit (uint64_t w) z = Z.testbit w z.
Proof. intros Hz. unfold uint64_t. apply Z.mod_pow2_bits_low. lia. Qed.

Lemma testbit_not64 (a z : Z) :
  0 ≤ z < 64 → Z.testbit (uint64_t (Z.lnot a)) z = negb (Z.testbit a z).
Proof. intros Hz. rewrite testbit_uint64_t, Z.lnot_spec by lia. reflexivity. Qed.

(** A rotation, as the evaluation of [rotl64] leaves it. *)
Lemma testbit_rotl64 (q n m z : Z) :
  is_lane q → 0 < n < 64 → m = 64 - n → 0 ≤ z < 64 →
  Z.testbit (uint64_t (q ≪ n) .| q ≫ m) z = Z.testbit q (FIPS202.zsub z n).
Proof.
  intros Hq Hn -> Hz. unfold FIPS202.zsub, FIPS202.w.
  rewrite Z.lor_spec, testbit_uint64_t, Z.shiftr_spec by lia.
  destruct (Z.lt_ge_cases z n).
  - rewrite Z.shiftl_spec_low, orb_false_l by lia. f_equal.
    rewrite <- (Z.mod_add _ 1), Z.mod_small by lia. lia.
  - rewrite Z.shiftl_spec, (is_lane_testbit_high q (z + (64 - n))), orb_false_r by (assumption || lia).
    f_equal. rewrite Z.mod_small; lia.
Qed.

Lemma zsub_range (z k : Z) : 0 ≤ FIPS202.zsub z k < 64.
Proof. unfold FIPS202.zsub, FIPS202.w. apply Z.mod_pos_bound. lia. Qed.

Create HintDb lanes discriminated.
#[export] Hint Resolve is_lane_lxor is_lane_land is_lane_lor is_lane_uint64_t
  is_lane_shiftr : lanes.
#[export] Hint Extern 1 (0 ≤ _) => lia : lanes.

(** Evaluate down to the bits of the lanes. *)
Ltac bitwise :=
  cbv -[Z.testbit FIPS202.zsub FIPS202.RC xorb negb
        Z.lxor Z.land Z.lor Z.shiftl Z.shiftr Z.lnot uint64_t].

Ltac cases5 x :=
  match goal with
  | H : 0 ≤ x < 5 |- _ =>
      assert (x = 0 ∨ x = 1 ∨ x = 2 ∨ x = 3 ∨ x = 4)
        as [->|[->|[->|[->| ->]]]] by lia; clear H
  end.

Ltac lanes_valid H := repeat (apply Forall_cons in H as [? H]); clear H.

(** The bits of an expression over lanes, from the bits of the lanes. *)
Ltac testbits :=
  repeat first
    [ rewrite Z.lxor_spec
    | rewrite Z.land_spec
    | rewrite testbit_not64 by lia
    | rewrite testbit_rotl64 by (auto 10 with lanes || lia) ].

Ltac in_range :=
  repeat split;
  first [ apply Z.mod_pos_bound; lia | apply zsub_range | lia ].

Lemma mod5_range (x : Z) : 0 ≤ x mod 5 < 5.
Proof. apply Z.mod_pos_bound. lia. Qed.

(** *** θ *)

Lemma theta_same_bits (A B : FIPS202.state_array) :
  same_bits A B → same_bits (FIPS202.theta A) (FIPS202.theta B).
Proof.
  intros H x y z Hx Hy Hz. unfold FIPS202.theta.
  pose proof (mod5_range (x - 1)). pose proof (mod5_range (x + 1)).
  pose proof (zsub_range z 1).
  rewrite !(H x), !(H ((x - 1) mod 5)), !(H ((x + 1) mod 5)) by lia.
  reflexivity.
Qed.

Lemma theta_lanes (L : list Z) :
  length L = 25%nat → Forall is_lane L →
  same_bits (FIPS202.theta (array_of_lanes L)) (array_of_lanes (Spec.theta L)).
Proof.
  intros HL Hv x y z Hx Hy Hz. lanes25 L HL. lanes_valid Hv.
  cases5 x; cases5 y; bitwise; testbits; reflexivity.
Qed.

(** *** ρ *)

Lemma zsub_congr (z k k' : Z) :
  k mod 64 = k' mod 64 → FIPS202.zsub z k = FIPS202.zsub z k'.
Proof.
  intros H. unfold FIPS202.zsub, FIPS202.w.
  rewrite (Zminus_mod z k), (Zminus_mod z k'), H. reflexivity.
Qed.

Lemma rho_same_bits (A B : FIPS202.state_array) :
  same_bits A B → same_bits (FIPS202.rho A) (FIPS202.rho B).
Proof.
  intros H x y z Hx Hy Hz.
  cases5 x; cases5 y; bitwise; apply H; in_range.
Qed.

Lemma rho_lanes (L : list Z) :
  length L = 25%nat → Forall is_lane L →
  same_bits (FIPS202.rho (array_of_lanes L)) (array_of_lanes (Spec.rho L)).
Proof.
  intros HL Hv x y z Hx Hy Hz. lanes25 L HL. lanes_valid Hv.
  cases5 x; cases5 y; bitwise; testbits;
    first [reflexivity | f_equal; apply zsub_congr; reflexivity].
Qed.

(** *** π *)

Lemma pi_same_bits (A B : FIPS202.state_array) :
  same_bits A B → same_bits (FIPS202.pi A) (FIPS202.pi B).
Proof.
  intros H x y z Hx Hy Hz. unfold FIPS202.pi. apply H; in_range.
Qed.

Lemma pi_lanes (L : list Z) :
  length L = 25%nat →
  same_bits (FIPS202.pi (array_of_lanes L)) (array_of_lanes (Spec.pi L)).
Proof.
  intros HL x y z Hx Hy Hz. lanes25 L HL.
  cases5 x; cases5 y; bitwise; reflexivity.
Qed.

(** *** χ *)

Lemma chi_same_bits (A B : FIPS202.state_array) :
  same_bits A B → same_bits (FIPS202.chi A) (FIPS202.chi B).
Proof.
  intros H x y z Hx Hy Hz. unfold FIPS202.chi.
  pose proof (mod5_range (x + 1)). pose proof (mod5_range (x + 2)).
  rewrite (H x), (H ((x + 1) mod 5)), (H ((x + 2) mod 5)) by lia.
  reflexivity.
Qed.

Lemma chi_lanes (L : list Z) :
  length L = 25%nat →
  same_bits (FIPS202.chi (array_of_lanes L)) (array_of_lanes (Spec.chi L)).
Proof.
  intros HL x y z Hx Hy Hz. lanes25 L HL.
  cases5 x; cases5 y; bitwise; testbits; rewrite xorb_true_r; reflexivity.
Qed.

(** *** ι *)

Lemma lookup_lane_bits (w z : Z) :
  0 ≤ z < 64 → (lane_bits w).[Z.to_nat z] = Z.testbit w z.
Proof.
  intros Hz. unfold lane_bits, bits.
  rewrite (list_lookup_total_fmap (λ z, Z.testbit w (Z.of_nat z)) (seq 0 64))
    by (rewrite length_seq; lia).
  rewrite lookup_total_seq_lt by lia. f_equal. lia.
Qed.

Lemma RC_bits (i_r : nat) :
  (i_r < 24)%nat → FIPS202.RC (Z.of_nat i_r) = lane_bits RC.[i_r].
Proof.
  intros H. do 24 (destruct i_r as [|i_r]; [vm_compute; reflexivity|]). lia.
Qed.

Lemma Spec_iota_lookup (i_r : nat) (L : list Z) (k : nat) :
  length L = 25%nat → (k < 25)%nat →
  (Spec.iota i_r L).[k] = if decide (k = 0%nat) then L.[0] .^ RC.[i_r] else L.[k].
Proof.
  intros HL Hk. lanes25 L HL.
  do 25 (destruct k as [|k]; [lanewise; reflexivity|]). lia.
Qed.

Lemma iota_same_bits (A B : FIPS202.state_array) (i_r : Z) :
  same_bits A B → same_bits (FIPS202.iota A i_r) (FIPS202.iota B i_r).
Proof.
  intros H x y z Hx Hy Hz. unfold FIPS202.iota.
  rewrite (H x y z), (H 0 0 z) by lia. reflexivity.
Qed.

Lemma iota_lanes (i_r : nat) (L : list Z) :
  length L = 25%nat → (i_r < 24)%nat →
  same_bits (FIPS202.iota (array_of_lanes L) (Z.of_nat i_r))
            (array_of_lanes (Spec.iota i_r L)).
Proof.
  intros HL Hi x y z Hx Hy Hz. unfold FIPS202.iota, array_of_lanes.
  rewrite Spec_iota_lookup by lia. rewrite RC_bits, lookup_lane_bits by lia.
  destruct (Z.eqb_spec x 0) as [->|Hx0]; [destruct (Z.eqb_spec y 0) as [->|Hy0]|];
    cbn [andb].
  - rewrite decide_True by reflexivity. by rewrite Z.lxor_spec.
  - rewrite decide_False by lia. reflexivity.
  - rewrite decide_False by lia. reflexivity.
Qed.

(** *** Lanes stay 64 bits wide *)

Lemma is_lane_RC (i_r : nat) : is_lane RC.[i_r].
Proof.
  destruct (decide (i_r < 24)%nat) as [H|H].
  - do 24 (destruct i_r as [|i_r]; [split; [discriminate|reflexivity]|]). lia.
  - rewrite list_lookup_total_alt, lookup_ge_None_2 by (cbn; lia).
    split; [discriminate|reflexivity].
Qed.

Lemma Spec_theta_lanes (L : list Z) :
  length L = 25%nat → Forall is_lane L →
  length (Spec.theta L) = 25%nat ∧ Forall is_lane (Spec.theta L).
Proof.
  intros HL Hv. lanes25 L HL. lanes_valid Hv.
  split; [reflexivity|].
  cbv -[Z.lxor Z.land Z.lor Z.shiftl Z.shiftr Z.lnot uint64_t is_lane].
  repeat (apply Forall_cons_2; [auto 10 with lanes|]). apply Forall_nil_2.
Qed.

Lemma Spec_rho_lanes (L : list Z) :
  length L = 25%nat → Forall is_lane L →
  length (Spec.rho L) = 25%nat ∧ Forall is_lane (Spec.rho L).
Proof.
  intros HL Hv. lanes25 L HL. lanes_valid Hv.
  split; [reflexivity|].
  cbv -[Z.lxor Z.land Z.lor Z.shiftl Z.shiftr Z.lnot uint64_t is_lane].
  repeat (apply Forall_cons_2; [auto 10 with lanes|]). apply Forall_nil_2.
Qed.

Lemma Spec_pi_lanes (L : list Z) :
  length L = 25%nat → Forall is_lane L →
  length (Spec.pi L) = 25%nat ∧ Forall is_lane (Spec.pi L).
Proof.
  intros HL Hv. lanes25 L HL. lanes_valid Hv.
  split; [reflexivity|].
  cbv -[Z.lxor Z.land Z.lor Z.shiftl Z.shiftr Z.lnot uint64_t is_lane].
  repeat (apply Forall_cons_2; [auto 10 with lanes|]). apply Forall_nil_2.
Qed.

Lemma Spec_chi_lanes (L : list Z) :
  length L = 25%nat → Forall is_lane L →
  length (Spec.chi L) = 25%nat ∧ Forall is_lane (Spec.chi L).
Proof.
  intros HL Hv. lanes25 L HL. lanes_valid Hv.
  split; [reflexivity|].
  cbv -[Z.lxor Z.land Z.lor Z.shiftl Z.shiftr Z.lnot uint64_t is_lane].
  repeat (apply Forall_cons_2; [auto 10 with lanes|]). apply Forall_nil_2.
Qed.

Lemma Spec_iota_lanes (i_r : nat) (L : list Z) :
  length L = 25%nat → Forall is_lane L →
  length (Spec.iota i_r L) = 25%nat ∧ Forall is_lane (Spec.iota i_r L).
Proof.
  intros HL Hv.
  assert (length (Spec.iota i_r L) = 25%nat) as Hlen by (clear Hv; lanes25 L HL; reflexivity).
  split; [exact Hlen|].
  apply Forall_lookup_2. intros k w Hk.
  pose proof (lookup_lt_Some _ _ _ Hk) as Hlt.
  apply list_lookup_total_correct in Hk as <-.
  rewrite Spec_iota_lookup by lia. case_decide.
  - apply is_lane_lxor; [|apply is_lane_RC]. by apply Forall_lookup_total_1; [|lia].
  - by apply Forall_lookup_total_1; [|lia].
Qed.

(** *** The round *)

Lemma same_bits_trans (A B C : FIPS202.state_array) :
  same_bits A B → same_bits B C → same_bits A C.
Proof. intros H1 H2 x y z Hx Hy Hz. by rewrite H1, H2. Qed.

Lemma Rnd_lanes (A : FIPS202.state_array) (i_r : nat) (L : list Z) :
  length L = 25%nat → Forall is_lane L → (i_r < 24)%nat →
  same_bits A (array_of_lanes L) →
  same_bits (FIPS202.Rnd A (Z.of_nat i_r)) (array_of_lanes (Spec.round i_r L)) ∧
  length (Spec.round i_r L) = 25%nat ∧ Forall is_lane (Spec.round i_r L).
Proof.
  intros HL Hv Hi HA. unfold FIPS202.Rnd, Spec.round.
  destruct (Spec_theta_lanes L HL Hv) as [HL1 Hv1].
  destruct (Spec_rho_lanes _ HL1 Hv1) as [HL2 Hv2].
  destruct (Spec_pi_lanes _ HL2 Hv2) as [HL3 Hv3].
  destruct (Spec_chi_lanes _ HL3 Hv3) as [HL4 Hv4].
  split; [|by apply Spec_iota_lanes].
  eapply same_bits_trans; [|by apply iota_lanes].
  apply iota_same_bits.
  eapply same_bits_trans; [|by apply chi_lanes].
  apply chi_same_bits.
  eapply same_bits_trans; [|by apply pi_lanes].
  apply pi_same_bits.
  eapply same_bits_trans; [|by apply rho_lanes].
  apply rho_same_bits.
  eapply same_bits_trans; [|by apply theta_lanes].
  by apply theta_same_bits.
Qed.

Lemma rounds_lanes (idx : list nat) (A : FIPS202.state_array) (L : list Z) :
  length L = 25%nat → Forall is_lane L → Forall (λ i, i < 24)%nat idx →
  same_bits A (array_of_lanes L) →
  same_bits (foldl FIPS202.Rnd A (Z.of_nat <$> idx))
            (array_of_lanes (foldl (λ L i_r, Spec.round i_r L) L idx)) ∧
  length (foldl (λ L i_r, Spec.round i_r L) L idx) = 25%nat ∧
  Forall is_lane (foldl (λ L i_r, Spec.round i_r L) L idx).
Proof.
  intros HL Hv Hidx. revert A L HL Hv.
  induction Hidx as [|i idx Hi _ IH]; intros A L HL Hv HA; [done|].
  rewrite fmap_cons. cbn [foldl].
  destruct (Rnd_lanes A i L HL Hv Hi HA) as (HA' & HL' & Hv').
  by apply IH.
Qed.

(** ** Strings, state arrays and lanes *)

Lemma length_bits (n : nat) (w : Z) : length (bits n w) = n.
Proof. unfold bits. by rewrite length_fmap, length_seq. Qed.

Lemma lookup_lanes_bits (L : list Z) (k j : nat) :
  (k < length L)%nat → (j < 64)%nat →
  (lanes_bits L).[64 * k + j] = (lane_bits L.[k]).[j].
Proof.
  revert k. induction L as [|a L IH]; intros k Hk Hj; [cbn in Hk; lia|].
  unfold lanes_bits. rewrite bind_cons. fold (lanes_bits L).
  destruct k as [|k].
  - rewrite lookup_total_app_l by (unfold lane_bits; rewrite length_bits; lia).
    f_equal.
  - rewrite lookup_total_app_r by (unfold lane_bits; rewrite length_bits; lia).
    unfold lane_bits at 1. rewrite length_bits.
    replace (64 * S k + j - 64)%nat with (64 * k + j)%nat by lia.
    rewrite IH by (cbn in Hk; lia). reflexivity.
Qed.

Lemma array_of_string_lanes (L : list Z) :
  length L = 25%nat →
  same_bits (FIPS202.array_of_string (lanes_bits L)) (array_of_lanes L).
Proof.
  intros HL x y z Hx Hy Hz. unfold FIPS202.array_of_string, array_of_lanes, FIPS202.w.
  replace (Z.to_nat (64 * (5 * y + x) + z))
    with (64 * Z.to_nat (5 * y + x) + Z.to_nat z)%nat by lia.
  rewrite lookup_lanes_bits by lia. apply lookup_lane_bits, Hz.
Qed.

Lemma Lane_lanes (A : FIPS202.state_array) (L : list Z) (i j : Z) :
  same_bits A (array_of_lanes L) → 0 ≤ i < 5 → 0 ≤ j < 5 →
  FIPS202.Lane A i j = lane_bits L.[Z.to_nat (5 * j + i)].
Proof.
  intros HA Hi Hj. unfold FIPS202.Lane, lane_bits, bits.
  apply list_fmap_ext. intros k z Hz.
  apply lookup_seq in Hz as [-> Hz]. cbn in Hz.
  apply HA; lia.
Qed.

Lemma string_of_array_lanes (A : FIPS202.state_array) (L : list Z) :
  length L = 25%nat → same_bits A (array_of_lanes L) →
  FIPS202.string_of_array A = lanes_bits L.
Proof.
  intros HL HA. unfold FIPS202.string_of_array, FIPS202.Plane.
  rewrite !(Lane_lanes A L) by (assumption || lia).
  lanes25 L HL. unfold lanes_bits. cbn [mbind list_bind app]. cbn [Z.to_nat].
  rewrite <- !app_assoc. reflexivity.
Qed.

(** KECCAK-f[1600] on the bits of 25 lanes is the permutation of the
    specification on the lanes. *)
Lemma KECCAK_p_lanes (L : list Z) :
  length L = 25%nat → Forall is_lane L →
  FIPS202.KECCAK_p 24 (lanes_bits L) = lanes_bits (Spec.keccak_f L) ∧
  length (Spec.keccak_f L) = 25%nat ∧ Forall is_lane (Spec.keccak_f L).
Proof.
  intros HL Hv. unfold FIPS202.KECCAK_p, Spec.keccak_f.
  change (12 + 2 * FIPS202.l - 24)%nat with 0%nat.
  destruct (rounds_lanes (seq 0 24) (FIPS202.array_of_string (lanes_bits L)) L)
    as (HA & HL' & Hv'); try assumption.
  - apply Forall_seq. intros; lia.
  - by apply array_of_string_lanes.
  - split; [|by split]. by apply string_of_array_lanes.
Qed.

(** ** Bytes and lanes on a little-endian host *)

Lemma bits_split (n : nat) (w : Z) :
  bits (8 + n) w = bits 8 w ++ bits n (w ≫ 8).
Proof.
  unfold bits. rewrite seq_app, fmap_app. f_equal.
  change (0 + 8)%nat with (8 + 0)%nat.
  rewrite <- (fmap_add_seq 8 0 n), <- list_fmap_compose.
  apply list_fmap_ext. intros _ k _. cbn [compose].
  rewrite Z.shiftr_spec by lia. f_equal. lia.
Qed.

Lemma bits8_land (w : Z) : bits 8 (w .& 0xff) = bits 8 w.
Proof.
  unfold bits. apply list_fmap_ext. intros i k Hk.
  apply lookup_seq in Hk as [-> Hk]. change 0xff with (Z.ones 8).
  rewrite Z.land_spec, Z.ones_spec_low by lia. apply andb_true_r.
Qed.

Lemma h2b_cons (h : Z) (H : list Z) :
  FIPS202.h2b (h :: H) = bits 8 h ++ FIPS202.h2b H.
Proof. reflexivity. Qed.

Lemma h2b_app (H1 H2 : list Z) :
  FIPS202.h2b (H1 ++ H2) = FIPS202.h2b H1 ++ FIPS202.h2b H2.
Proof. apply bind_app. Qed.

Lemma length_h2b (H : list Z) : length (FIPS202.h2b H) = (8 * length H)%nat.
Proof.
  induction H as [|h H IH]; [reflexivity|].
  rewrite h2b_cons, length_app, length_bits, IH. cbn [length]. lia.
Qed.

Lemma bits_le_combine (bs : list Z) :
  Forall is_byte bs → bits (8 * length bs) (le_combine bs) = FIPS202.h2b bs.
Proof.
  induction 1 as [|b bs Hb _ IH]; [reflexivity|].
  rewrite le_combine_cons, h2b_cons. cbn [length].
  replace (8 * S (length bs))%nat with (8 + 8 * length bs)%nat by lia.
  rewrite bits_split, byte_lor_high, IH by exact Hb. f_equal.
  rewrite <- bits8_land, byte_lor_low by exact Hb. reflexivity.
Qed.

Lemma bits_le_split (n : nat) (w : Z) :
  FIPS202.h2b (le_split n w) = bits (8 * n) w.
Proof.
  revert w. induction n as [|n IH]; intros w; [reflexivity|].
  cbn [le_split]. rewrite h2b_cons, IH, bits8_land.
  replace (8 * S n)%nat with (8 + 8 * n)%nat by lia.
  by rewrite bits_split.
Qed.

Lemma le_combine_bound (bs : list Z) :
  Forall is_byte bs → 0 ≤ le_combine bs < 2 ^ (8 * Z.of_nat (length bs)).
Proof.
  induction 1 as [|b bs Hb _ IH]; [cbn; lia|].
  rewrite le_combine_cons. cbn [length].
  assert (0 ≤ b .| le_combine bs ≪ 8) as Hnn.
  { apply Z.lor_nonneg. split; [unfold is_byte in Hb; lia|]. apply Z.shiftl_nonneg. lia. }
  split; [exact Hnn|].
  apply Z.bounded_iff_bits_nonneg; [lia|exact Hnn|].
  intros z Hz. rewrite Z.lor_spec, Z.shiftl_spec by lia.
  rewrite (testbit_byte_high b z) by (assumption || lia). cbn [orb].
  apply (Z.bounded_iff_bits_nonneg (8 * Z.of_nat (length bs))); lia.
Qed.

Lemma is_lane_le_combine (bs : list Z) :
  Forall is_byte bs → length bs = 8%nat → is_lane (le_combine bs).
Proof.
  intros Hbs Hlen. pose proof (le_combine_bound bs Hbs) as H.
  rewrite Hlen in H. exact H.
Qed.

Lemma load64_le_succ (m : list Z) (k : nat) :
  load64 LittleEndian m (S k) = load64 LittleEndian (drop 8 m) k.
Proof.
  unfold load64. rewrite drop_drop. do 3 f_equal. lia.
Qed.

Lemma lanes_bits_load (n : nat) (m : list Z) :
  length m = (8 * n)%nat → Forall is_byte m →
  lanes_bits (load64 LittleEndian m <$> seq 0 n) = FIPS202.h2b m ∧
  Forall is_lane (load64 LittleEndian m <$> seq 0 n).
Proof.
  revert m. induction n as [|n IH]; intros m Hlen Hm.
  - destruct m; [split; [reflexivity|constructor]|discriminate].
  - destruct (IH (drop 8 m)) as [IHb IHv];
      [rewrite length_drop; lia|by apply Forall_drop|].
    assert (load64 LittleEndian m <$> seq 1 n
            = load64 LittleEndian (drop 8 m) <$> seq 0 n) as Hshift.
    { rewrite <- fmap_S_seq, <- list_fmap_compose. apply list_fmap_ext.
      intros _ k _. apply load64_le_succ. }
    cbn [seq]. rewrite fmap_cons, Hshift.
    assert (length (take 8 m) = 8%nat) as H8 by (rewrite length_take; lia).
    split.
    + unfold lanes_bits. rewrite bind_cons. fold (lanes_bits (load64 LittleEndian (drop 8 m) <$> seq 0 n)).
      rewrite IHb. rewrite <- (take_drop 8 m) at 3. rewrite h2b_app. f_equal.
      unfold load64, combine64, lane_bits. rewrite Nat.mul_0_r, drop_0.
      replace 64%nat with (8 * length (take 8 m))%nat by (rewrite H8; reflexivity).
      apply bits_le_combine. by apply Forall_take.
    + constructor; [|exact IHv].
      unfold load64, combine64. rewrite Nat.mul_0_r, drop_0.
      apply is_lane_le_combine; [by apply Forall_take|exact H8].
Qed.

Lemma h2b_u64_bytes (L : list Z) :
  FIPS202.h2b (u64_bytes LittleEndian L) = lanes_bits L.
Proof.
  induction L as [|a L IH]; [reflexivity|].
  rewrite u64_bytes_cons, h2b_app, IH. unfold lanes_bits at 2. rewrite bind_cons.
  f_equal. apply bits_le_split.
Qed.

(** The permutation as the driver calls it, on the bits of the state bytes. *)
Lemma keccakf_1600_u64_bits (m : list Z) :
  length m = 200%nat → Forall is_byte m →
  FIPS202.h2b (keccakf_1600_u64 LittleEndian m)
  = FIPS202.KECCAK_p 24 (FIPS202.h2b m).
Proof.
  intros Hlen Hb. unfold keccakf_1600_u64, keccakf_1600.
  destruct (lanes_bits_load 25 m Hlen Hb) as [Hbits Hv].
  fold (u64 LittleEndian m) in *.
  destruct (KECCAK_p_lanes (u64 LittleEndian m) (length_u64 _ _) Hv) as (Hk & _ & _).
  rewrite h2b_u64_bytes, <- keccakf_1600_loop_unrolled, keccakf_1600_loop_spec
    by apply length_u64.
  by rewrite <- Hk, Hbits.
Qed.

(** * The sponge *)

(** ** The code as a sponge on bytes *)

Lemma keccakf_1600_u64_bytes (h : byte_order) (m : list Z) :
  length (keccakf_1600_u64 h m) = 200%nat ∧ Forall is_byte (keccakf_1600_u64 h m).
Proof.
  unfold keccakf_1600_u64, keccakf_1600. split.
  - rewrite length_u64_bytes, keccakf_1600_unrolled_length; [reflexivity|apply length_u64].
  - apply Forall_is_byte_u64_bytes.
Qed.

Lemma absorb_blocks_bytes (n r : nat) (m P : list Z) :
  length m = 200%nat → Forall is_byte m →
  length (absorb_blocks n r m P) = 200%nat ∧ Forall is_byte (absorb_blocks n r m P).
Proof.
  revert m P. induction n as [|n IH]; intros m P Hl Hb; [split; assumption|].
  cbn [absorb_blocks]. apply IH; apply keccakf_1600_u64_bytes.
Qed.

Lemma absorb_blocks_app (n r : nat) (m P Q : list Z) :
  (n * r ≤ length P)%nat →
  absorb_blocks n r m (P ++ Q) = absorb_blocks n r m P.
Proof.
  revert m P. induction n as [|n IH]; intros m P Hlen; [reflexivity|].
  cbn [absorb_blocks]. rewrite take_app_le, drop_app_le by lia.
  apply IH. rewrite length_drop. lia.
Qed.

Lemma absorb_blocks_succ (n r : nat) (m P : list Z) :
  absorb_blocks (S n) r m P
  = keccakf_1600_u64 LittleEndian
      (xor_bytes (absorb_blocks n r m P) 0 (take r (drop (n * r) P))).
Proof.
  revert m P. induction n as [|n IH]; intros m P; [reflexivity|].
  change (absorb_blocks (S (S n)) r m P)
    with (absorb_blocks (S n) r
            (keccakf_1600_u64 LittleEndian (xor_bytes m 0 (take r P))) (drop r P)).
  rewrite IH. cbn [absorb_blocks]. rewrite drop_drop. reflexivity.
Qed.

(** The byte loop from the start of a block: [n] whole blocks are absorbed
    and permuted, the [k] bytes left are XORed into the state. *)
Lemma absorb_bytes_le_blocks (n : nat) (c : sha3_ctx) (msg : list byte) (k : nat) :
  initialized c → index c = 0 →
  length msg = (n * Z.to_nat (rate c) + k)%nat → (k < Z.to_nat (rate c))%nat →
  foldl (absorb_byte LittleEndian) c msg
  = {| index := Z.of_nat k; rate := rate c; size := size c;
       u8 := xor_bytes (absorb_blocks n (Z.to_nat (rate c)) (u8 c) (byte_value <$> msg)) 0
               (drop (n * Z.to_nat (rate c)) (byte_value <$> msg)) |}.
Proof.
  revert c msg. induction n as [|n IH]; intros c msg Hc Hi Hlen Hk.
  - cbn [absorb_blocks Nat.mul]. rewrite drop_0.
    destruct (initialized_rate c Hc) as (_ & _ & Hr).
    destruct msg as [|b msg].
    + cbn [length] in Hlen. replace k with 0%nat by lia.
      destruct c as [i r d m]. cbn [index] in Hi. rewrite Hi. reflexivity.
    + rewrite absorb_bytes_le_run by (discriminate || lia).
      unfold block_boundary. fields. rewrite Hi, Hlen, Z.add_0_l.
      destruct (Z.eqb_spec (Z.of_nat (0 * Z.to_nat (rate c) + k)) (rate c)); [lia|].
      reflexivity.
  - destruct (initialized_rate c Hc) as (_ & _ & Hr).
    set (r := Z.to_nat (rate c)) in *.
    rewrite <- (take_drop r msg) at 1. rewrite foldl_app.
    assert (length (take r msg) = r) as Htake by (rewrite length_take; lia).
    rewrite (absorb_bytes_le_run c (take r msg));
      [|intros E; rewrite E in Htake; cbn in Htake; lia|lia|lia|lia].
    unfold block_boundary. fields. rewrite Hi, Htake, Z.add_0_l.
    destruct (Z.eqb_spec (Z.of_nat r) (rate c)); [|lia].
    unfold permute. fields.
    rewrite IH; fields.
    + f_equal. rewrite fmap_drop, fmap_take. fold r.
      set (P := byte_value <$> msg).
      cbn [absorb_blocks]. rewrite drop_drop.
      replace (r + n * r)%nat with (S n * r)%nat by lia. reflexivity.
    + destruct Hc as [Hs Hrate Hidx Hl Hb].
      destruct (keccakf_1600_u64_bytes LittleEndian
                  (xor_bytes (u8 c) (Z.to_nat 0) (byte_value <$> take r msg))) as [Hl' Hb'].
      split; fields; try assumption. lia.
    + reflexivity.
    + rewrite length_drop. fold r. lia.
    + exact Hk.
Qed.

(** The two XORs of [sha3_final] absorb the padding bytes. *)

Lemma xor_bytes_app2 (m : list Z) (j : nat) (a b : list Z) :
  xor_bytes m j (a ++ b) = xor_bytes (xor_bytes m j a) (j + length a) b.
Proof.
  revert m j. induction a as [|x a IH]; intros m j.
  - cbn [app length xor_bytes]. by rewrite Nat.add_0_r.
  - cbn [app length xor_bytes]. rewrite IH. f_equal. lia.
Qed.

Lemma xor_byte_zero (m : list Z) (j : nat) : m.[j <- m.[j] .^ 0] = m.
Proof.
  rewrite Z.lxor_0_r. destruct (decide (j < length m)%nat) as [Hj|Hj].
  - apply list_insert_id, list_lookup_lookup_total_lt, Hj.
  - apply list_insert_ge. lia.
Qed.

Lemma xor_bytes_zeros (m : list Z) (j n : nat) : xor_bytes m j (replicate n 0) = m.
Proof.
  revert j. induction n as [|n IH]; intros j; [reflexivity|].
  cbn [replicate xor_bytes]. rewrite xor_byte_zero. apply IH.
Qed.

Lemma length_pad_bytes (r k : nat) : (k < r)%nat → length (pad_bytes r k) = (r - k)%nat.
Proof.
  intros Hk. unfold pad_bytes. case_decide; [cbn; lia|].
  rewrite length_app, length_app, length_replicate. cbn [length]. lia.
Qed.

Lemma Forall_is_byte_pad_bytes (r k : nat) : Forall is_byte (pad_bytes r k).
Proof.
  unfold pad_bytes. case_decide.
  - repeat constructor; unfold is_byte; lia.
  - apply Forall_app. split; [repeat constructor; unfold is_byte; lia|].
    apply Forall_app. split; [apply Forall_replicate; unfold is_byte; lia|].
    repeat constructor; unfold is_byte; lia.
Qed.

Lemma final_pad (m : list Z) (r k : nat) :
  (k < r ≤ length m)%nat →
  m.[k <- m.[k] .^ 0x06].[r - 1 <- m.[k <- m.[k] .^ 0x06].[r - 1] .^ 0x80]
  = xor_bytes m k (pad_bytes r k).
Proof.
  intros Hk. unfold pad_bytes. case_decide as Hlast.
  - replace (r - 1)%nat with k by lia. cbn [xor_bytes].
    rewrite list_lookup_total_insert_eq by lia.
    rewrite list_insert_insert_eq, Z.lxor_assoc. reflexivity.
  - cbn [app xor_bytes].
    rewrite xor_bytes_app2, xor_bytes_zeros, length_replicate. cbn [xor_bytes].
    replace (S k + (r - k - 2))%nat with (r - 1)%nat by lia. reflexivity.
Qed.

(** The three calls as a sponge on bytes: the message and its padding are
    absorbed in [n + 1] blocks and the digest is the head of the state. *)
Lemma sha3_le_sponge (algo : sha3_algo) (c0 : sha3_ctx) (msg : list byte) :
  let r := Z.to_nat (200 - 2 * algo_value algo) in
  let n := (length msg / r)%nat in
  let k := (length msg mod r)%nat in
  (sha3_final LittleEndian
     (foldl (absorb_byte LittleEndian) (sha3_init c0 algo) msg)).1
  = take (Z.to_nat (algo_value algo))
      (absorb_blocks (S n) r (replicate 200 0)
         ((byte_value <$> msg) ++ pad_bytes r k)).
Proof.
  intros r n k.
  pose proof (sha3_init_initialized c0 algo) as Hc.
  assert (rate (sha3_init c0 algo) = 200 - 2 * algo_value algo
          ∧ size (sha3_init c0 algo) = algo_value algo
          ∧ u8 (sha3_init c0 algo) = replicate 200 0) as (Hrate & Hsize & Hu8)
    by (by destruct algo).
  assert (0 < r ≤ 144)%nat as Hr by (subst r; destruct algo; cbn; lia).
  assert (length msg = n * r + k ∧ k < r)%nat as [Hlen Hk].
  { subst n k. pose proof (Nat.div_mod_eq (length msg) r).
    pose proof (Nat.mod_upper_bound (length msg) r). lia. }
  rewrite (absorb_bytes_le_blocks n _ msg k Hc eq_refl)
    by (rewrite Hrate; fold r; assumption).
  rewrite sha3_final_digest. fields. rewrite Hrate, Hsize, Hu8. fold r.
  set (M := byte_value <$> msg).
  assert (length M = length msg) as HM by (subst M; apply length_fmap).
  set (mB := absorb_blocks n r (replicate 200 0) M).
  destruct (absorb_blocks_bytes n r (replicate 200 0) M) as [HlB HbB];
    [apply length_replicate|apply Forall_replicate; unfold is_byte; lia|].
  fold mB in HlB, HbB.
  replace (Z.to_nat (Z.of_nat k)) with k by lia.
  replace (Z.to_nat (200 - 2 * algo_value algo - 1)) with (r - 1)%nat by lia.
  rewrite final_pad by (rewrite length_xor_bytes; lia).
  assert (length (drop (n * r) M) = k) as Hrem by (rewrite length_drop; lia).
  assert (xor_bytes (xor_bytes mB 0 (drop (n * r) M)) k (pad_bytes r k)
          = xor_bytes mB 0 (drop (n * r) M ++ pad_bytes r k)) as ->
    by (rewrite xor_bytes_app2, Hrem; reflexivity).
  rewrite absorb_blocks_succ, absorb_blocks_app by lia. fold mB.
  rewrite drop_app_le by lia.
  rewrite (take_ge (drop (n * r) M ++ pad_bytes r k))
    by (rewrite length_app, length_pad_bytes, Hrem; lia).
  reflexivity.
Qed.

(** ** The sponge of the standard on the bits of the bytes *)

Lemma bits_lxor (n : nat) (a b : Z) :
  bits n (a .^ b) = zip_with xorb (bits n a) (bits n b).
Proof.
  unfold bits. induction (seq 0 n) as [|z zs IH]; [reflexivity|].
  cbn [fmap list_fmap zip_with]. rewrite Z.lxor_spec. f_equal. apply IH.
Qed.

Lemma h2b_lxor (a b : list Z) :
  length a = length b →
  FIPS202.h2b (zip_with Z.lxor a b) = zip_with xorb (FIPS202.h2b a) (FIPS202.h2b b).
Proof.
  revert b. induction a as [|x a IH]; intros [|y b] Hlen; try discriminate; [reflexivity|].
  cbn [zip_with]. rewrite !h2b_cons, zip_with_app by (by rewrite !length_bits).
  rewrite bits_lxor, IH by (cbn in Hlen; lia). reflexivity.
Qed.

Lemma xorb_zeros (X : list bool) (n : nat) :
  n = length X → zip_with xorb X (FIPS202.zeros n) = X.
Proof.
  intros ->. unfold FIPS202.zeros. induction X as [|x X IH]; [reflexivity|].
  cbn [length replicate zip_with]. by rewrite xorb_false_r, IH.
Qed.

Lemma h2b_take (n : nat) (H : list Z) :
  take (8 * n) (FIPS202.h2b H) = FIPS202.h2b (take n H).
Proof.
  revert H. induction n as [|n IH]; intros H; [reflexivity|].
  destruct H as [|h H]; [reflexivity|].
  rewrite firstn_cons, !h2b_cons.
  replace (8 * S n)%nat with (length (bits 8 h) + 8 * n)%nat
    by (rewrite length_bits; lia).
  rewrite take_app_add, IH. reflexivity.
Qed.

Lemma h2b_drop (n : nat) (H : list Z) :
  drop (8 * n) (FIPS202.h2b H) = FIPS202.h2b (drop n H).
Proof.
  revert H. induction n as [|n IH]; intros H; [reflexivity|].
  destruct H as [|h H]; [reflexivity|].
  rewrite skipn_cons, !h2b_cons.
  replace (8 * S n)%nat with (length (bits 8 h) + 8 * n)%nat
    by (rewrite length_bits; lia).
  rewrite drop_app_add, IH. reflexivity.
Qed.

Lemma h2b_zeros (n : nat) : FIPS202.h2b (replicate n 0) = FIPS202.zeros (8 * n).
Proof.
  induction n as [|n IH]; [reflexivity|].
  cbn [replicate]. rewrite h2b_cons, IH.
  replace (8 * S n)%nat with (8 + 8 * n)%nat by lia.
  unfold FIPS202.zeros. rewrite replicate_add. reflexivity.
Qed.

(** XORing a block into the head of the state, on bits. *)
Lemma h2b_xor_bytes (m blk : list Z) :
  (length blk ≤ length m)%nat →
  FIPS202.h2b (xor_bytes m 0 blk)
  = FIPS202.xor_string (FIPS202.h2b m)
      (FIPS202.h2b blk ++ FIPS202.zeros (8 * (length m - length blk))).
Proof.
  intros Hlen. rewrite xor_bytes_zip by lia. rewrite take_0, drop_0. cbn [app plus].
  unfold FIPS202.xor_string.
  rewrite <- (take_drop (length blk) m) at 3. rewrite !h2b_app.
  rewrite zip_with_app
    by (rewrite !length_h2b, length_take; lia).
  rewrite h2b_lxor by (rewrite length_take; lia).
  rewrite xorb_zeros by (rewrite length_h2b, length_drop; reflexivity).
  reflexivity.
Qed.


(** Step 6 of the sponge: absorbing [n] blocks. *)
Lemma sponge_absorb (n r : nat) (m P : list Z) :
  length m = 200%nat → Forall is_byte m → Forall is_byte P →
  (r ≤ 200)%nat → (n * r ≤ length P)%nat →
  foldl (λ S P_i,
           FIPS202.KECCAK_p 24
             (FIPS202.xor_string S (P_i ++ FIPS202.zeros (FIPS202.b - 8 * r))))
        (FIPS202.h2b m) (FIPS202.blocks (8 * r) n (FIPS202.h2b P))
  = FIPS202.h2b (absorb_blocks n r m P).
Proof.
  revert m P. induction n as [|n IH]; intros m P Hl Hb HbP Hr HP; [reflexivity|].
  cbn [FIPS202.blocks foldl absorb_blocks].
  rewrite h2b_take, h2b_drop.
  assert (length (take r P) = r) as Htake by (rewrite length_take; lia).
  replace (FIPS202.b - 8 * r)%nat with (8 * (length m - length (take r P)))%nat at 1
    by (rewrite Hl, Htake; unfold FIPS202.b; lia).
  rewrite <- h2b_xor_bytes by lia.
  assert (Forall is_byte (xor_bytes m 0 (take r P))) as Hbx
    by (apply Forall_is_byte_xor_bytes; [assumption|by apply Forall_take]).
  rewrite <- keccakf_1600_u64_bits by (rewrite ?length_xor_bytes; assumption).
  destruct (keccakf_1600_u64_bytes LittleEndian (xor_bytes m 0 (take r P)))
    as [Hl' Hb'].
  apply IH; [exact Hl'|exact Hb'|by apply Forall_drop|exact Hr|].
  rewrite length_drop. lia.
Qed.

(** The padded message of the standard is the bits of the message bytes
    followed by the padding bytes. *)
Lemma pad_bits (r : nat) (M : list Z) :
  (0 < r)%nat →
  (FIPS202.h2b M ++ [false; true])
    ++ FIPS202.pad10star1 (Z.of_nat (8 * r))
         (Z.of_nat (length (FIPS202.h2b M ++ [false; true])))
  = FIPS202.h2b (M ++ pad_bytes r (length M mod r)).
Proof.
  intros Hr. rewrite h2b_app, <- app_assoc. f_equal.
  rewrite length_app, length_h2b. cbn [length].
  set (k := (length M mod r)%nat).
  assert (k < r)%nat as Hk by (apply Nat.mod_upper_bound; lia).
  unfold FIPS202.pad10star1.
  assert ((- Z.of_nat (8 * length M + 2) - 2) mod Z.of_nat (8 * r)
          = Z.of_nat (8 * (r - k) - 4)) as ->.
  { pose proof (Nat.div_mod_eq (length M) r) as Hdiv. fold k in Hdiv.
    symmetry. apply (Z.mod_unique_pos _ _ (- Z.of_nat (length M / r) - 1)); [lia|nia]. }
  rewrite Nat2Z.id. unfold pad_bytes. case_decide as Hlast.
  - replace (8 * (r - k) - 4)%nat with 4%nat by lia. reflexivity.
  - rewrite !h2b_app, h2b_zeros.
    replace (8 * (r - k) - 4)%nat with (5 + (8 * (r - k - 2) + 7))%nat by lia.
    unfold FIPS202.zeros. rewrite !replicate_add.
    cbn -[replicate Nat.mul]. rewrite <- !app_assoc. reflexivity.
Qed.

(** Steps 7 to 10 of the sponge, when one block is enough. *)
Lemma squeeze_once (fuel : nat) (f : list bool → list bool) (r d : nat) (S : list bool) :
  (d ≤ r ≤ length S)%nat → FIPS202.squeeze fuel f r d S [] = take d S.
Proof.
  intros Hd. destruct fuel; cbn [FIPS202.squeeze app]; unfold FIPS202.Trunc;
    (rewrite decide_True by (rewrite length_take; lia));
    rewrite take_take; f_equal; lia.
Qed.

(** Bits back to bytes. *)
Lemma bits_succ (n : nat) (w : Z) : bits (S n) w = Z.testbit w 0 :: bits n (w ≫ 1).
Proof.
  unfold bits. cbn [seq fmap list_fmap]. f_equal.
  rewrite <- fmap_S_seq, <- list_fmap_compose. apply list_fmap_ext.
  intros _ k _. cbn [compose]. rewrite Z.shiftr_spec by lia. f_equal. lia.
Qed.

Lemma byte_of_bits_bits (n : nat) (w : Z) :
  FIPS202.byte_of_bits (bits n w) = w mod 2 ^ Z.of_nat n.
Proof.
  revert w. induction n as [|n IH]; intros w; [cbn; by rewrite Z.mod_1_r|].
  rewrite bits_succ. cbn [FIPS202.byte_of_bits foldr].
  fold (FIPS202.byte_of_bits (bits n (w ≫ 1))). rewrite IH.
  rewrite Nat2Z.inj_succ, Z.pow_succ_r by lia.
  rewrite Z.rem_mul_r by lia. rewrite Z.shiftr_div_pow2 by lia.
  rewrite Z.bit0_mod. change (2 ^ 1) with 2. reflexivity.
Qed.

Lemma b2h_h2b (n : nat) (H : list Z) :
  Forall is_byte H → (n ≤ length H)%nat →
  FIPS202.b2h n (take (8 * n) (FIPS202.h2b H)) = take n H.
Proof.
  intros HH. revert n. induction HH as [|h H Hh _ IH]; intros n Hn.
  - cbn in Hn. replace n with 0%nat by lia. reflexivity.
  - destruct n as [|n]; [reflexivity|].
    rewrite h2b_cons.
    replace (8 * S n)%nat with (length (bits 8 h) + 8 * n)%nat
      by (rewrite length_bits; lia).
    rewrite take_app_add. cbn [FIPS202.b2h].
    rewrite take_app_length' by (by rewrite length_bits).
    rewrite drop_app_length' by (by rewrite length_bits).
    rewrite IH by (cbn in Hn; lia). rewrite firstn_cons. f_equal.
    rewrite byte_of_bits_bits. apply Z.mod_small. exact Hh.
Qed.

(** KECCAK[c] on a message of bytes, with the suffix 01, as the sponge on
    bytes. *)
Lemma KECCAK_bytes (r d : nat) (M : list Z) :
  Forall is_byte M → (0 < r ≤ 200)%nat → (d ≤ r)%nat →
  FIPS202.b2h d
    (FIPS202.SPONGE (FIPS202.KECCAK_p 24) FIPS202.pad10star1 (8 * r)
       (FIPS202.h2b M ++ [false; true]) (8 * d))
  = take d (absorb_blocks (S (length M / r)) r (replicate 200 0)
              (M ++ pad_bytes r (length M mod r))).
Proof.
  intros HM Hr Hd. unfold FIPS202.SPONGE.
  rewrite pad_bits by lia.
  set (k := (length M mod r)%nat). set (n := (length M / r)%nat).
  assert (length M = n * r + k ∧ k < r)%nat as [Hlen Hk].
  { subst n k. pose proof (Nat.div_mod_eq (length M) r).
    pose proof (Nat.mod_upper_bound (length M) r). lia. }
  set (P := M ++ pad_bytes r k).
  assert (length P = S n * r)%nat as HP
    by (subst P; rewrite length_app, length_pad_bytes; lia).
  assert (Forall is_byte P) as HbP
    by (apply Forall_app; split; [assumption|apply Forall_is_byte_pad_bytes]).
  rewrite length_h2b, HP.
  replace (8 * (S n * r) / (8 * r))%nat with (S n)
    by (rewrite Nat.Div0.div_mul_cancel_l, Nat.div_mul by lia; reflexivity).
  change (FIPS202.zeros FIPS202.b) with (FIPS202.zeros (8 * 200)).
  rewrite <- h2b_zeros.
  rewrite sponge_absorb;
    [|apply length_replicate|apply Forall_replicate; unfold is_byte; lia
     |assumption|lia|lia].
  destruct (absorb_blocks_bytes (S n) r (replicate 200 0) P) as [Hl Hb];
    [apply length_replicate|apply Forall_replicate; unfold is_byte; lia|].
  rewrite squeeze_once by (rewrite length_h2b, Hl; lia).
  apply b2h_h2b; [assumption|lia].
Qed.

(** On a little-endian host the three calls compute the digest of the
    standard. *)
Lemma sha3_le_fips202 (algo : sha3_algo) (c0 : sha3_ctx) (addr : Z) (msg : list byte) :
  sha3 LittleEndian algo c0 addr msg = fips202_digest algo msg.
Proof.
  unfold sha3. rewrite sha3_update_le by apply sha3_init_initialized.
  rewrite sha3_le_sponge. rewrite <- (length_fmap byte_value msg).
  assert (Forall is_byte (byte_value <$> msg)) as HM
    by (apply Forall_fmap, Forall_forall; intros ? _; apply is_byte_value).
  unfold fips202_digest, FIPS202.SHA3_224, FIPS202.SHA3_256, FIPS202.SHA3_384,
    FIPS202.SHA3_512, FIPS202.KECCAK.
  destruct algo; cbn [algo_value].
  - change (1600 - 448)%nat with (8 * 144)%nat. change 224%nat with (8 * 28)%nat.
    rewrite KECCAK_bytes by (assumption || lia). reflexivity.
  - change (1600 - 512)%nat with (8 * 136)%nat. change 256%nat with (8 * 32)%nat.
    rewrite KECCAK_bytes by (assumption || lia). reflexivity.
  - change (1600 - 768)%nat with (8 * 104)%nat. change 384%nat with (8 * 48)%nat.
    rewrite KECCAK_bytes by (assumption || lia). reflexivity.
  - change (1600 - 1024)%nat with (8 * 72)%nat. change 512%nat with (8 * 64)%nat.
    rewrite KECCAK_bytes by (assumption || lia). reflexivity.
Qed.

(** * The claims *)

(** ** Initialisation *)

(** C8: for each of the four algorithm selectors, [sha3_init] sets the fill
    index to 0, the rate to [200 - 2 * algo] (144, 136, 104 or 72), the digest
    size to [algo], and all 200 state bytes to zero, whatever the context
    held before. *)
Theorem sha3_init_sets_parameters (c : sha3_ctx) (algo : sha3_algo) :
  let c' := sha3_init c algo in
  index c' = 0 ∧
  rate c' = 200 - 2 * algo_value algo ∧
  size c' = algo_value algo ∧
  u8 c' = replicate 200 0 ∧
  length (u8 c') = 200%nat ∧
  (algo_value algo, rate c') ∈ [(28, 144); (32, 136); (48, 104); (64, 72)].
Proof.
  destruct algo; unfold sha3_init; cbn [index rate size u8 algo_value];
    repeat split; try reflexivity; try apply length_replicate; repeat constructor.
Qed.

(** ** Finalisation *)

(** C4: for an initialised context, [sha3_final] hands to the permutation the
    state bytes with 0x06 XORed into the byte at the fill index and 0x80 into
    the byte at [rate - 1] (0x86 in all when the two coincide), applies the
    permutation once, and writes the first [size] bytes of the result: 28,
    32, 48 or 64 bytes. *)
Theorem sha3_final_pads_and_writes_digest
    (h : byte_order) (c : sha3_ctx) (Hc : initialized c) :
  let i := Z.to_nat (index c) in
  let r := Z.to_nat (rate c - 1) in
  ∃ padded : list Z,
    length padded = 200%nat ∧
    (∀ j : nat, (j < 200)%nat →
       padded.[j] = (u8 c).[j] .^ (if decide (j = i) then 0x06 else 0)
                               .^ (if decide (j = r) then 0x80 else 0)) ∧
    (i = r → padded.[i] = (u8 c).[i] .^ 0x86) ∧
    (sha3_final h c).1
      = take (Z.to_nat (size c)) (keccakf_1600_u64 h padded) ∧
    Z.of_nat (length (sha3_final h c).1) = size c ∧
    size c ∈ [28; 32; 48; 64].
Proof.
  intros i r. destruct (initialized_rate c Hc) as (_ & _ & Hr).
  destruct Hc as [Hs Hrate Hidx Hlen Hbytes].
  exists (u8 c).[i <- (u8 c).[i] .^ 0x06]
               .[r <- (u8 c).[i <- (u8 c).[i] .^ 0x06].[r] .^ 0x80].
  assert (i < 200 ∧ r < 200)%nat as [Hi200 Hr200] by (subst i r; lia).
  assert (∀ j : nat, (j < 200)%nat →
    (u8 c).[i <- (u8 c).[i] .^ 0x06].[r <- (u8 c).[i <- (u8 c).[i] .^ 0x06].[r] .^ 0x80].[j]
    = (u8 c).[j] .^ (if decide (j = i) then 0x06 else 0)
                 .^ (if decide (j = r) then 0x80 else 0)) as Hpoint.
  { intros j Hj.
    rewrite !list_lookup_total_insert, ?length_insert, Hlen.
    repeat case_decide; try (exfalso; lia); destruct_and?;
      rewrite ?Z.lxor_0_r; congruence. }
  split; [by rewrite !length_insert|].
  split; [exact Hpoint|].
  split.
  { intros Hir. rewrite Hpoint by lia. rewrite !decide_True by congruence.
    rewrite Z.lxor_assoc. reflexivity. }
  split; [apply sha3_final_digest|].
  split; [|exact Hs].
  rewrite sha3_final_digest, length_take. unfold keccakf_1600_u64.
  rewrite length_u64_bytes.
  unfold keccakf_1600. rewrite keccakf_1600_unrolled_length by apply length_u64.
  repeat (apply elem_of_cons in Hs as [Hs|Hs]; [rewrite Hs; reflexivity|]).
  by apply elem_of_nil in Hs.
Qed.

Lemma sha3_final_pads_and_writes_digest_witness :
  let c := sha3_update LittleEndian (sha3_init (Ctx 0 0 0 []) SHA3_512) 1
             (replicate 71 "a"%byte) in
  index c = rate c - 1 ∧ length (sha3_final LittleEndian c).1 = 64%nat.
Proof.
  intros c.
  assert (initialized c) as Hc
    by apply sha3_update_le_initialized, sha3_init_initialized.
  split; [vm_compute; reflexivity|].
  destruct (sha3_final_pads_and_writes_digest LittleEndian c Hc)
    as (padded & _ & _ & _ & _ & Hlen & _).
  apply Nat2Z.inj. rewrite Hlen. vm_compute. reflexivity.
Defined.

(** C9, as amended: after [sha3_final] all 200 state bytes are zero, the rate
    and the size are unchanged, and the fill index keeps the value it had on
    entry; the context left behind is a freshly initialised one exactly when
    that fill index was 0. *)
Theorem sha3_final_wipes_state_keeps_index
    (h : byte_order) (c : sha3_ctx) (Hc : initialized c) :
  let c' := (sha3_final h c).2 in
  u8 c' = replicate 200 0 ∧
  rate c' = rate c ∧
  size c' = size c ∧
  index c' = index c ∧
  (∀ (c0 : sha3_ctx) (algo : sha3_algo),
     c' = sha3_init c0 algo ↔ index c = 0 ∧ size c = algo_value algo).
Proof.
  intros c'. subst c'. rewrite sha3_final_context. fields.
  do 4 (split; [reflexivity|]).
  intros c0 algo. split.
  - unfold sha3_init. intros Heq. injection Heq as Hi _ Hs.
    split; [exact Hi|]. rewrite Hs. by destruct algo.
  - intros [Hi Hs]. destruct Hc as [_ Hr _ _ _]. unfold sha3_init.
    rewrite Hi, Hr, Hs. by destruct algo.
Qed.

Lemma sha3_final_wipes_state_keeps_index_witness :
  let c := sha3_update LittleEndian (sha3_init (Ctx 0 0 0 []) SHA3_256) 1
             ["a"; "b"; "c"]%byte in
  index (sha3_final LittleEndian c).2 = 3 ∧
  (sha3_final LittleEndian c).2 ≠ sha3_init c SHA3_256.
Proof.
  intros c.
  assert (initialized c) as Hc
    by apply sha3_update_le_initialized, sha3_init_initialized.
  destruct (sha3_final_wipes_state_keeps_index LittleEndian c Hc)
    as (_ & _ & _ & Hi & Hfresh).
  split; [rewrite Hi; vm_compute; reflexivity|].
  intros H. apply Hfresh in H as [H _]. vm_compute in H. discriminate H.
Defined.

(** C9, as stated, fails on a context that is finalised right after its
    initialisation: the fill index is 0 on entry, and the context left behind
    is again the freshly initialised one. *)
Lemma sha3_final_of_fresh_context_is_fresh :
  let c := sha3_init (Ctx 0 0 0 []) SHA3_256 in
  initialized c ∧ (sha3_final LittleEndian c).2 = sha3_init (Ctx 0 0 0 []) SHA3_256.
Proof. split; [apply sha3_init_initialized|reflexivity]. Qed.

(** ** The permutation *)

(** C5: [keccakf_1600] (both versions) is 24 rounds, indexed 0 to 23, each the
    sequence θ, ρ, π, χ, ι of the specification; θ XORs into lane [(x, y)]
    the value [parity[(x+4) mod 5] ^ rotateLeft(parity[(x+1) mod 5], 1)], the
    parity of a column being the XOR of its five lanes; ι changes lane 0
    only, by the round constant of the 24-entry table. *)
Theorem keccakf_1600_is_24_rounds_of_five_steps
    (A : list Z) (HA : length A = 25%nat) :
  keccakf_1600_loop (M := Pure) A = Spec.keccak_f A ∧
  keccakf_1600_unrolled (M := Pure) A = Spec.keccak_f A ∧
  (∀ B : list Z, Spec.keccak_f B = foldl (λ B i_r, Spec.round i_r B) B (seq 0 24)) ∧
  (∀ (i_r : nat) (B : list Z),
     Spec.round i_r B = Spec.iota i_r (Spec.chi (Spec.pi (Spec.rho (Spec.theta B))))) ∧
  length RC = 24%nat ∧
  (∀ x y : nat, (x < 5)%nat → (y < 5)%nat →
     Spec.parity A x = A.[x] .^ A.[x + 5] .^ A.[x + 10] .^ A.[x + 15] .^ A.[x + 20] ∧
     Spec.lane (Spec.theta A) x y
     = Spec.lane A x y .^ (Spec.parity A ((x + 4) mod 5)
                           .^ rotl64 (M := Pure) (Spec.parity A ((x + 1) mod 5)) 1)) ∧
  (∀ i_r k : nat, (k < 25)%nat →
     (Spec.iota i_r A).[k] = if decide (k = 0%nat) then A.[0] .^ RC.[i_r] else A.[k]).
Proof.
  split; [apply keccakf_1600_loop_spec, HA|].
  split; [rewrite <- keccakf_1600_loop_unrolled by exact HA;
          apply keccakf_1600_loop_spec, HA|].
  do 3 (split; [reflexivity|]).
  lanes25 A HA. split.
  - intros x y Hx Hy.
    do 5 (destruct x as [|x]; [
      do 5 (destruct y as [|y]; [split; lanewise; reflexivity|]); exfalso; lia|]).
    exfalso; lia.
  - intros i_r k Hk.
    do 25 (destruct k as [|k]; [lanewise; reflexivity|]). exfalso; lia.
Qed.

Lemma keccakf_1600_is_24_rounds_of_five_steps_witness :
  (keccakf_1600_loop (M := Pure) (replicate 25 0)).[0] = 0xF1258F7940E1DDE7 ∧
  Spec.lane (Spec.theta (Z.of_nat <$> seq 1 25)) 0 0 = 1 .^ (13 .^ 28).
Proof.
  assert (length (Z.of_nat <$> seq 1 25) = 25%nat) as H25 by (vm_compute; reflexivity).
  destruct (keccakf_1600_is_24_rounds_of_five_steps (replicate 25 0) eq_refl)
    as (-> & _).
  destruct (keccakf_1600_is_24_rounds_of_five_steps (Z.of_nat <$> seq 1 25) H25)
    as (_ & _ & _ & _ & _ & Htheta & _).
  split; [vm_compute; reflexivity|].
  destruct (Htheta 0%nat 0%nat) as [_ ->]; [lia..|]. vm_compute. reflexivity.
Defined.

(** C6: on every 25-lane state the loop version and the unrolled version of
    [keccakf_1600] produce the same state, round by round and in all. *)
Theorem keccakf_1600_loop_and_unrolled_agree
    (A : list Z) (HA : length A = 25%nat) :
  (∀ i_r : nat, round_loop (M := Pure) i_r A = round_unrolled (M := Pure) i_r A) ∧
  keccakf_1600_loop (M := Pure) A = keccakf_1600_unrolled (M := Pure) A.
Proof.
  split; [intros i_r; apply round_loop_unrolled, HA|].
  apply keccakf_1600_loop_unrolled, HA.
Qed.

Lemma keccakf_1600_loop_and_unrolled_agree_witness :
  keccakf_1600_loop (M := Pure) (Z.of_nat <$> seq 1 25)
  = keccakf_1600_unrolled (M := Pure) (Z.of_nat <$> seq 1 25).
Proof.
  apply (keccakf_1600_loop_and_unrolled_agree (Z.of_nat <$> seq 1 25)).
  vm_compute. reflexivity.
Defined.

(** C10: [rotl64(x, n)] is defined exactly when [1 ≤ n ≤ 63]; the ρ table
    holds values from 1 to 62 only; and on every state both versions of
    [keccakf_1600] run to their result with every shift defined, the shifts
    executed being left shifts by 1 to 62 and right shifts by 2 to 63. *)
Theorem keccakf_1600_rotations_are_defined
    (A : list Z) (HA : length A = 25%nat) :
  (∀ x n : Z, is_Some (rotl64 (M := Checked) x n) ↔ 1 ≤ n ≤ 63) ∧
  Forall (λ n, 1 ≤ n ≤ 62) rho ∧
  keccakf_1600_loop (M := Checked) A = Some (keccakf_1600_loop (M := Pure) A) ∧
  keccakf_1600_unrolled (M := Checked) A = Some (keccakf_1600_unrolled (M := Pure) A) ∧
  Forall rotation_shift (keccakf_1600_loop (M := Traced) A).1 ∧
  Forall rotation_shift (keccakf_1600_unrolled (M := Traced) A).1.
Proof.
  split; [apply rotl64_checked_defined|].
  split; [repeat constructor; discriminate|].
  split; [apply rounds_loop_checked, HA|].
  split; [apply rounds_unrolled_checked, HA|].
  split; [apply rounds_loop_traced, HA|apply rounds_unrolled_traced, HA].
Qed.

Lemma keccakf_1600_rotations_are_defined_witness :
  is_Some (keccakf_1600_unrolled (M := Checked) (replicate 25 0)) ∧
  is_Some (keccakf_1600_loop (M := Checked) (replicate 25 0)).
Proof.
  destruct (keccakf_1600_rotations_are_defined (replicate 25 0) eq_refl)
    as (_ & _ & -> & -> & _).
  split; eexists; reflexivity.
Defined.

(** ** Absorption *)

Lemma sha3_updates_le (c : sha3_ctx) (chunks : list (Z * list byte)) :
  initialized c →
  foldl (λ c chunk, sha3_update LittleEndian c chunk.1 chunk.2) c chunks
  = foldl (absorb_byte LittleEndian) c (concat (snd <$> chunks)).
Proof.
  revert c. induction chunks as [|[addr buf] chunks IH]; intros c Hc; [reflexivity|].
  cbn [foldl fmap list_fmap concat fst snd].
  rewrite foldl_app, <- (sha3_update_le c addr buf) by exact Hc.
  apply IH, sha3_update_le_initialized, Hc.
Qed.

(** C2, evaluated.  Nine bytes 01 .. 09 are absorbed by the byte loop into a
    fresh SHA3-256 context.  A little-endian host XORs the ninth byte into
    state byte 8, the least significant byte of lane 1.  A big-endian host
    computes the position [i / 8 + (7 - i % 8)], which for [i = 8] is again
    state byte 8, there the most significant byte of lane 1, where byte
    [8 * (i / 8) + (7 - i % 8) = 15] is the least significant one: the lanes
    of the two hosts differ. *)
Theorem sha3_update_big_endian_misplaces_byte_8 :
  let c := sha3_init (Ctx 0 0 0 []) SHA3_256 in
  let msg := [x01; x02; x03; x04; x05; x06; x07; x08; x09] in
  take 2 (u64 LittleEndian (u8 (sha3_update LittleEndian c 0 msg)))
    = [0x0807060504030201; 0x0000000000000009] ∧
  take 2 (u64 BigEndian (u8 (sha3_update BigEndian c 0 msg)))
    = [0x0807060504030201; 0x0900000000000000] ∧
  take 16 (u8 (sha3_update BigEndian c 0 msg))
    = [8; 7; 6; 5; 4; 3; 2; 1; 9; 0; 0; 0; 0; 0; 0; 0].
Proof. vm_compute. repeat split; reflexivity. Qed.

(** C7, by host.  On a little-endian host the word loop of
    [sha3_update_aligned] leaves an initialised context whose fill index is a
    multiple of 8 exactly as the byte loop of [sha3_update] does, for every
    input whose length is a multiple of 8.  On a big-endian host the two
    differ already on sixteen bytes absorbed into a fresh context: the word
    loop stores each lane with its bytes reversed, the byte loop puts bytes
    8 to 15 where bytes of lane 0 and the first byte of lane 1 are. *)
Theorem sha3_update_aligned_and_byte_loop_by_host :
  (∀ (c : sha3_ctx) (buf : list byte),
     initialized c → index c mod 8 = 0 → Z.of_nat (length buf) mod 8 = 0 →
     sha3_update_aligned LittleEndian c buf
     = foldl (absorb_byte LittleEndian) c buf) ∧
  (let c := sha3_init (Ctx 0 0 0 []) SHA3_256 in
   let buf := [x01; x02; x03; x04; x05; x06; x07; x08;
               x09; x0a; x0b; x0c; x0d; x0e; x0f; x10] in
   take 16 (u8 (sha3_update_aligned BigEndian c buf))
     = [8; 7; 6; 5; 4; 3; 2; 1; 16; 15; 14; 13; 12; 11; 10; 9] ∧
   take 16 (u8 (foldl (absorb_byte BigEndian) c buf))
     = [8; 23; 9; 11; 9; 15; 9; 11; 9; 0; 0; 0; 0; 0; 0; 0]).
Proof.
  split; [apply sha3_update_aligned_le|].
  vm_compute. split; reflexivity.
Qed.

Lemma sha3_update_aligned_and_byte_loop_by_host_witness :
  let c := sha3_init (Ctx 0 0 0 []) SHA3_256 in
  let buf := [x01; x02; x03; x04; x05; x06; x07; x08;
              x09; x0a; x0b; x0c; x0d; x0e; x0f; x10] in
  sha3_update_aligned LittleEndian c buf = foldl (absorb_byte LittleEndian) c buf.
Proof.
  intros c buf.
  apply (proj1 sha3_update_aligned_and_byte_loop_by_host c buf);
    [apply sha3_init_initialized|reflexivity|reflexivity].
Defined.

(** C3, by host.  On a little-endian host the digest (and the context left
    behind) does not depend on how the input is cut into [sha3_update] calls,
    nor on the addresses of the pieces.  On a big-endian host sixteen bytes
    absorbed in one call from an aligned buffer and the same bytes absorbed
    as nine bytes and then seven give different digests. *)
Theorem sha3_chunking_by_host :
  (∀ (algo : sha3_algo) (c0 : sha3_ctx) (chunks : list (Z * list byte)) (addr : Z),
     sha3_final LittleEndian
       (foldl (λ c chunk, sha3_update LittleEndian c chunk.1 chunk.2)
              (sha3_init c0 algo) chunks)
     = sha3_final LittleEndian
         (sha3_update LittleEndian (sha3_init c0 algo) addr (concat (snd <$> chunks)))) ∧
  (let c := sha3_init (Ctx 0 0 0 []) SHA3_256 in
   let msg := [x01; x02; x03; x04; x05; x06; x07; x08;
               x09; x0a; x0b; x0c; x0d; x0e; x0f; x10] in
   take 4 (sha3_final BigEndian (sha3_update BigEndian c 0 msg)).1
     = [51; 215; 21; 30] ∧
   take 4 (sha3_final BigEndian
             (sha3_update BigEndian (sha3_update BigEndian c 0 (take 9 msg))
                9 (drop 9 msg))).1
     = [139; 191; 81; 234]).
Proof.
  split.
  - intros algo c0 chunks addr.
    rewrite sha3_updates_le, sha3_update_le by apply sha3_init_initialized.
    reflexivity.
  - vm_compute. split; reflexivity.
Qed.

(** ** Conformance *)

(** C1, by host.  On a little-endian host the three calls reproduce the
    published FIPS 202 digests of the empty message and of "abc" for
    SHA3-224, SHA3-256, SHA3-384 and SHA3-512.  On a big-endian host the
    digest of the empty message already differs: [sha3_final] XORs the
    padding into, and copies the digest from, the bytes of the state as the
    host stores them, the most significant byte of each lane first. *)
Theorem sha3_fips202_vectors_by_host :
  let c0 := Ctx 0 0 0 [] in
  let abc := ["a"; "b"; "c"]%byte in
  sha3 LittleEndian SHA3_224 c0 0 []
    = digest 28 0x6b4e03423667dbb73b6e15454f0eb1abd4597f9a1b078e3f5b5a6bc7 ∧
  sha3 LittleEndian SHA3_256 c0 0 []
    = digest 32 0xa7ffc6f8bf1ed76651c14756a061d662f580ff4de43b49fa82d80a4b80f8434a ∧
  sha3 LittleEndian SHA3_384 c0 0 []
    = digest 48 0x0c63a75b845e4f7d01107d852e4c2485c51a50aaaa94fc61995e71bbee983a2ac3713831264adb47fb6bd1e058d5f004 ∧
  sha3 LittleEndian SHA3_512 c0 0 []
    = digest 64 0xa69f73cca23a9ac5c8b567dc185a756e97c982164fe25859e0d1dcc1475c80a615b2123af1f5f94c11e3e9402c3ac558f500199d95b6d3e301758586281dcd26 ∧
  sha3 LittleEndian SHA3_224 c0 0 abc
    = digest 28 0xe642824c3f8cf24ad09234ee7d3c766fc9a3a5168d0c94ad73b46fdf ∧
  sha3 LittleEndian SHA3_256 c0 0 abc
    = digest 32 0x3a985da74fe225b2045c172d6bd390bd855f086e3e9d525b46bfe24511431532 ∧
  sha3 LittleEndian SHA3_384 c0 0 abc
    = digest 48 0xec01498288516fc926459f58e2c6ad8df9b473cb0fc08c2596da7cf0e49be4b298d88cea927ac7f539f1edf228376d25 ∧
  sha3 LittleEndian SHA3_512 c0 0 abc
    = digest 64 0xb751850b1a57168a5693cd924b6b096e08f621827444f70d884f5d0240d2712e10e116e9192af3c91a7ec57647e3934057340b4cf408d5a56592f8274eec53f0 ∧
  sha3 BigEndian SHA3_256 c0 0 []
    = digest 32 0x9f29a58d4d8c44374da56e6bf8ee63c583b0f8fe593c973587ba7eb1848123b5.
Proof. vm_compute. repeat split; reflexivity. Qed.


(** * Further properties *)

(** ** Rotation *)

Lemma rotl64_pure (x n : Z) :
  1 ≤ n ≤ 63 → rotl64 (M := Pure) x n = uint64_t (x ≪ n) .| x ≫ (64 - n).
Proof.
  intros Hn. unfold rotl64, shl64, shr64, Pure_shifts, mbind, Pure_bind, mret, Pure_ret, size_t.
  rewrite (Z.mod_small (64 - n)) by lia. reflexivity.
Qed.

Lemma zsub_zsub (z n : Z) :
  0 ≤ z < 64 → FIPS202.zsub (FIPS202.zsub z (64 - n)) n = z.
Proof.
  intros Hz. unfold FIPS202.zsub, FIPS202.w.
  rewrite Zminus_mod_idemp_l.
  replace (z - (64 - n) - n) with (z + (-1) * 64) by lia.
  rewrite Z.mod_add by lia. apply Z.mod_small. lia.
Qed.

(** X1: [rotl64(x, n)] on a 64-bit [x] with [1 ≤ n ≤ 63] is the circular
    rotation: the result is a 64-bit value whose bit [z] is bit
    [(z - n) mod 64] of [x], and rotating on by [64 - n] gives [x] back. *)
Theorem rotl64_is_circular_rotation (x n : Z) (Hx : is_lane x) (Hn : 1 ≤ n ≤ 63) :
  is_lane (rotl64 (M := Pure) x n) ∧
  (∀ z, 0 ≤ z < 64 →
     Z.testbit (rotl64 (M := Pure) x n) z = Z.testbit x ((z - n) mod 64)) ∧
  rotl64 (M := Pure) (rotl64 (M := Pure) x n) (64 - n) = x.
Proof.
  assert (is_lane (rotl64 (M := Pure) x n)) as Hrot
    by (rewrite rotl64_pure by lia; auto with lanes).
  assert (∀ z, 0 ≤ z < 64 →
    Z.testbit (rotl64 (M := Pure) x n) z = Z.testbit x (FIPS202.zsub z n)) as Hbit
    by (intros z Hz; rewrite rotl64_pure by lia; apply testbit_rotl64; (assumption || lia)).
  split; [exact Hrot|]. split; [exact Hbit|].
  apply Z.bits_inj'. intros z Hz0.
  destruct (Z.lt_ge_cases z 64) as [Hz|Hz].
  - rewrite (rotl64_pure _ (64 - n)) by lia.
    rewrite testbit_rotl64 by (assumption || lia).
    rewrite Hbit by apply zsub_range.
    rewrite zsub_zsub by lia. reflexivity.
  - rewrite (rotl64_pure _ (64 - n)) by lia.
    rewrite !is_lane_testbit_high; auto with lanes.
Qed.

Lemma rotl64_is_circular_rotation_witness :
  rotl64 (M := Pure) 0x8000000000000001 1 = 3 ∧
  rotl64 (M := Pure) (rotl64 (M := Pure) 0x8000000000000001 1) 63 = 0x8000000000000001.
Proof.
  split; [reflexivity|].
  apply (rotl64_is_circular_rotation 0x8000000000000001 1); [split|]; lia.
Defined.

(** ** Byte order *)

Ltac zdiv := Z.div_mod_to_equations; lia.

Lemma testbit_le_combine (bs : list Z) (i : Z) :
  Forall is_byte bs → 0 ≤ i < 8 * Z.of_nat (length bs) →
  Z.testbit (le_combine bs) i = Z.testbit bs.[Z.to_nat (i / 8)] (i mod 8).
Proof.
  intros Hbs. revert i. induction Hbs as [|b bs Hb _ IH]; intros i Hi.
  - cbn [length] in Hi. lia.
  - rewrite le_combine_cons, Z.lor_spec. cbn [length] in Hi.
    destruct (Z.lt_ge_cases i 8).
    + rewrite Z.shiftl_spec_low, orb_false_r by lia.
      rewrite Z.div_small, Z.mod_small by lia. reflexivity.
    + rewrite Z.shiftl_spec, (testbit_byte_high b i), IH by (assumption || lia).
      cbn [orb].
      replace (Z.to_nat (i / 8)) with (S (Z.to_nat ((i - 8) / 8))) by zdiv.
      replace ((i - 8) mod 8) with (i mod 8) by zdiv.
      reflexivity.
Qed.

Lemma testbit_ones_shiftl (k z : Z) :
  0 ≤ k → 0 ≤ z →
  Z.testbit (Z.ones 8 ≪ k) z = (k <=? z) && (z <? k + 8).
Proof.
  intros Hk Hz. rewrite Z.shiftl_spec by lia.
  destruct (Z.leb_spec k z), (Z.ltb_spec z (k + 8)); cbn [andb].
  - apply Z.ones_spec_low. lia.
  - apply Z.ones_spec_high. lia.
  - apply Z.testbit_neg_r. lia.
  - apply Z.testbit_neg_r. lia.
Qed.

Lemma testbit_uint32_t (w z : Z) :
  0 ≤ z → Z.testbit (uint32_t w) z = (z <? 32) && Z.testbit w z.
Proof.
  intros Hz. unfold uint32_t. destruct (Z.ltb_spec z 32); cbn [andb].
  - apply Z.mod_pow2_bits_low. lia.
  - apply Z.mod_pow2_bits_high. lia.
Qed.

Lemma testbit_high (k w z : Z) :
  0 ≤ k → 0 ≤ w < 2 ^ k → k ≤ z → Z.testbit w z = false.
Proof.
  intros Hk Hw Hz. apply (Z.bounded_iff_bits_nonneg k w); lia.
Qed.

(** Decide the comparisons of the goal in the current range of [z]. *)
Ltac decide_cmp :=
  repeat match goal with
  | |- context [?a <=? ?b] =>
      first [ rewrite (proj2 (Z.leb_le a b)) by lia
            | rewrite (proj2 (Z.leb_gt a b)) by lia ]
  | |- context [?a <? ?b] =>
      first [ rewrite (proj2 (Z.ltb_lt a b)) by lia
            | rewrite (proj2 (Z.ltb_ge a b)) by lia ]
  end.

(** Bits of [x] outside its width [k] are clear. *)
Ltac clear_bits k x :=
  repeat match goal with
  | |- context [Z.testbit x ?i] =>
      first [ rewrite (Z.testbit_neg_r x i) by lia
            | rewrite (testbit_high k x i) by lia ]
  end;
  cbn [andb orb]; rewrite ?andb_false_r, ?orb_false_r, ?andb_true_r;
  cbn [andb orb].

(** The bits of [bswap32]: bit [z] of byte [j] comes from byte [3 - j]. *)
Lemma testbit_bswap32 (x z : Z) :
  0 ≤ x < 2 ^ 32 → 0 ≤ z →
  Z.testbit (bswap32 x) z
  = (z <? 32) && Z.testbit x (8 * (3 - z / 8) + z mod 8).
Proof.
  intros Hx Hz. unfold bswap32.
  change 0xff00 with (Z.ones 8 ≪ 8). change 0xff0000 with (Z.ones 8 ≪ 16).
  rewrite !Z.lor_spec, !Z.land_spec, !testbit_ones_shiftl, !testbit_uint32_t,
    !Z.shiftr_spec, !Z.shiftl_spec by lia.
  assert (z < 8 ∨ 8 ≤ z < 16 ∨ 16 ≤ z < 24 ∨ 24 ≤ z < 32 ∨ 32 ≤ z)
    as [H|[H|[H|[H|H]]]] by lia;
    decide_cmp; clear_bits 32 x; try reflexivity; f_equal; zdiv.
Qed.

Lemma uint32_t_bound (w : Z) : 0 ≤ uint32_t w < 2 ^ 32.
Proof. unfold uint32_t. apply Z.mod_pos_bound. lia. Qed.

Lemma uint64_t_bound (w : Z) : 0 ≤ uint64_t w < 2 ^ 64.
Proof. unfold uint64_t. apply Z.mod_pos_bound. lia. Qed.

Lemma bswap32_bound (x : Z) : 0 ≤ x < 2 ^ 32 → 0 ≤ bswap32 x < 2 ^ 32.
Proof.
  intros Hx.
  assert (0 ≤ bswap32 x) as Hnn.
  { unfold bswap32. rewrite !Z.lor_nonneg, !Z.land_nonneg, !Z.shiftr_nonneg.
    pose proof (uint32_t_bound (x ≪ 8)). pose proof (uint32_t_bound (x ≪ 24)).
    lia. }
  split; [exact Hnn|].
  apply Z.bounded_iff_bits_nonneg; [lia|exact Hnn|].
  intros z Hz. rewrite testbit_bswap32 by lia.
  rewrite (proj2 (Z.ltb_ge z 32)) by lia. reflexivity.
Qed.

(** [bswap32] is its own inverse. *)
Lemma bswap32_involutive (x : Z) : 0 ≤ x < 2 ^ 32 → bswap32 (bswap32 x) = x.
Proof.
  intros Hx. apply Z.bits_inj'. intros z Hz.
  rewrite testbit_bswap32 by (apply bswap32_bound, Hx || lia).
  destruct (Z.ltb_spec z 32); cbn [andb].
  - rewrite testbit_bswap32 by (exact Hx || zdiv).
    rewrite (proj2 (Z.ltb_lt _ 32)) by zdiv. cbn [andb]. f_equal. zdiv.
  - symmetry. apply (testbit_high 32); lia.
Qed.

Lemma testbit_uint64_t_any (w z : Z) :
  0 ≤ z → Z.testbit (uint64_t w) z = (z <? 64) && Z.testbit w z.
Proof.
  intros Hz. unfold uint64_t. destruct (Z.ltb_spec z 64); cbn [andb].
  - apply Z.mod_pow2_bits_low. lia.
  - apply Z.mod_pow2_bits_high. lia.
Qed.

(** The bits of [bswap64]: bit [z] of byte [j] comes from byte [7 - j]. *)
Lemma testbit_bswap64 (x z : Z) :
  0 ≤ x < 2 ^ 64 → 0 ≤ z →
  Z.testbit (bswap64 x) z
  = (z <? 64) && Z.testbit x (8 * (7 - z / 8) + z mod 8).
Proof.
  intros Hx Hz. unfold bswap64.
  rewrite Z.lor_spec, testbit_uint64_t_any, Z.shiftl_spec by lia.
  destruct (Z.ltb_spec z 32).
  - rewrite (Z.testbit_neg_r _ (z - 32)), andb_false_r by lia. cbn [orb].
    rewrite testbit_bswap32 by (apply uint32_t_bound || lia).
    rewrite testbit_uint32_t, Z.shiftr_spec by zdiv.
    rewrite !(proj2 (Z.ltb_lt _ _)) by zdiv. cbn [andb]. f_equal. zdiv.
  - rewrite (testbit_high 32 (bswap32 _) z), orb_false_r
      by (apply bswap32_bound, uint32_t_bound || lia).
    destruct (Z.ltb_spec z 64); cbn [andb]; [|reflexivity].
    rewrite testbit_bswap32 by (apply uint32_t_bound || lia).
    rewrite testbit_uint32_t by zdiv.
    rewrite !(proj2 (Z.ltb_lt _ _)) by zdiv. cbn [andb]. f_equal. zdiv.
Qed.

Lemma bswap64_bound (x : Z) : 0 ≤ x < 2 ^ 64 → 0 ≤ bswap64 x < 2 ^ 64.
Proof.
  intros Hx.
  assert (0 ≤ bswap64 x) as Hnn.
  { unfold bswap64. rewrite Z.lor_nonneg.
    pose proof (uint64_t_bound (bswap32 (uint32_t x) ≪ 32)).
    pose proof (bswap32_bound _ (uint32_t_bound (x ≫ 32))). lia. }
  split; [exact Hnn|].
  apply Z.bounded_iff_bits_nonneg; [lia|exact Hnn|].
  intros z Hz. rewrite testbit_bswap64 by lia.
  rewrite (proj2 (Z.ltb_ge z 64)) by lia. reflexivity.
Qed.

Lemma bswap64_involutive (x : Z) : 0 ≤ x < 2 ^ 64 → bswap64 (bswap64 x) = x.
Proof.
  intros Hx. apply Z.bits_inj'. intros z Hz.
  rewrite testbit_bswap64 by (apply bswap64_bound, Hx || lia).
  destruct (Z.ltb_spec z 64); cbn [andb].
  - rewrite testbit_bswap64 by (exact Hx || zdiv).
    rewrite (proj2 (Z.ltb_lt _ 64)) by zdiv. cbn [andb]. f_equal. zdiv.
  - symmetry. apply (testbit_high 64); lia.
Qed.

(** A byte-swapped word read least significant byte first is the word read
    most significant byte first. *)
Lemma bswap_le_combine (n : nat) (swap : Z → Z) (bs : list Z) :
  (∀ x z, 0 ≤ x < 2 ^ (8 * Z.of_nat n) → 0 ≤ z →
     Z.testbit (swap x) z
     = (z <? 8 * Z.of_nat n) && Z.testbit x (8 * (Z.of_nat n - 1 - z / 8) + z mod 8)) →
  Forall is_byte bs → length bs = n →
  swap (le_combine bs) = le_combine (reverse bs).
Proof.
  intros Hswap Hbs Hlen.
  pose proof (le_combine_bound bs Hbs) as Hbound. rewrite Hlen in Hbound.
  assert (Forall is_byte (reverse bs)) as Hrev by (by apply Forall_reverse).
  pose proof (le_combine_bound (reverse bs) Hrev) as Hbound'.
  rewrite length_reverse, Hlen in Hbound'.
  apply Z.bits_inj'. intros z Hz. rewrite Hswap by (exact Hbound || lia).
  destruct (Z.ltb_spec z (8 * Z.of_nat n)); cbn [andb].
  - rewrite !testbit_le_combine by (rewrite ?length_reverse, ?Hlen; assumption || zdiv).
    replace ((8 * (Z.of_nat n - 1 - z `div` 8) + z `mod` 8) `mod` 8) with (z mod 8) by zdiv.
    f_equal.
    rewrite !list_lookup_total_alt, reverse_lookup by (rewrite Hlen; zdiv).
    do 2 f_equal. rewrite Hlen. zdiv.
  - symmetry. apply (testbit_high (8 * Z.of_nat n)); lia.
Qed.

(** ** The two views of the state *)

Lemma le_combine_le_split (n : nat) (w : Z) :
  0 ≤ w < 2 ^ (8 * Z.of_nat n) → le_combine (le_split n w) = w.
Proof.
  revert w. induction n as [|n IH]; intros w Hw.
  - change (2 ^ (8 * Z.of_nat 0)) with 1 in Hw. cbn [le_split]. unfold le_combine.
    cbn [foldr]. lia.
  - cbn [le_split]. rewrite le_combine_cons, IH.
    + apply Z.bits_inj'. intros z Hz. rewrite Z.lor_spec, Z.land_spec.
      change 0xff with (Z.ones 8).
      destruct (Z.lt_ge_cases z 8).
      * rewrite Z.ones_spec_low, Z.shiftl_spec_low, andb_true_r, orb_false_r by lia.
        reflexivity.
      * rewrite Z.ones_spec_high, Z.shiftl_spec, Z.shiftr_spec, andb_false_r by lia.
        cbn [orb]. f_equal. lia.
    + rewrite Z.shiftr_div_pow2 by lia. split; [apply Z.div_pos; lia|].
      apply Z.div_lt_upper_bound; [lia|].
      rewrite <- Z.pow_add_r by lia.
      replace (8 + 8 * Z.of_nat n) with (8 * Z.of_nat (S n)) by lia. lia.
Qed.

Lemma combine64_split64 (h : byte_order) (w : Z) :
  is_lane w → combine64 h (split64 h w) = w.
Proof.
  intros Hw. destruct h; unfold combine64, split64; rewrite ?reverse_involutive;
    apply le_combine_le_split; exact Hw.
Qed.

Lemma split64_combine64 (h : byte_order) (bs : list Z) :
  Forall is_byte bs → length bs = 8%nat → split64 h (combine64 h bs) = bs.
Proof.
  intros Hbs Hlen. destruct h; unfold combine64, split64.
  - rewrite <- Hlen. apply le_split_le_combine, Hbs.
  - rewrite <- Hlen, <- (length_reverse bs), le_split_le_combine by (by apply Forall_reverse).
    apply reverse_involutive.
Qed.

Lemma is_lane_combine64 (h : byte_order) (bs : list Z) :
  Forall is_byte bs → length bs = 8%nat → is_lane (combine64 h bs).
Proof.
  intros Hbs Hlen. destruct h; unfold combine64; apply is_lane_le_combine;
    rewrite ?length_reverse; try assumption. by apply Forall_reverse.
Qed.

Lemma is_lane_load64 (h : byte_order) (m : list Z) (k : nat) :
  Forall is_byte m → (8 * k + 8 ≤ length m)%nat → is_lane (load64 h m k).
Proof.
  intros Hm Hk. apply is_lane_combine64.
  - by apply Forall_take, Forall_drop.
  - rewrite length_take, length_drop. lia.
Qed.

Lemma load64_store64 (h : byte_order) (m : list Z) (k : nat) (w : Z) :
  is_lane w → (8 * k + 8 ≤ length m)%nat → load64 h (store64 h m k w) k = w.
Proof.
  intros Hw Hk. unfold load64, store64.
  rewrite drop_app_length' by (rewrite length_take; lia).
  rewrite take_app_length' by (by rewrite length_split64).
  apply combine64_split64, Hw.
Qed.

Lemma load64_store64_ne (h : byte_order) (m : list Z) (k j : nat) (w : Z) :
  j ≠ k → (8 * k + 8 ≤ length m)%nat →
  load64 h (store64 h m k w) j = load64 h m j.
Proof.
  intros Hjk Hk. unfold load64, store64. f_equal.
  destruct (decide (j < k)%nat) as [Hlt|Hge].
  - rewrite drop_app_le by (rewrite length_take; lia).
    rewrite take_app_le by (rewrite length_drop, length_take; lia).
    rewrite !take_drop_commute, take_take. do 2 f_equal. lia.
  - rewrite drop_app_ge by (rewrite length_take; lia).
    rewrite drop_app_ge by (rewrite length_take, length_split64; lia).
    rewrite drop_drop, length_take, length_split64. do 2 f_equal. lia.
Qed.

Lemma u64_lookup (h : byte_order) (m : list Z) (k : nat) :
  (k < 25)%nat → u64 h m !! k = Some (load64 h m k).
Proof.
  intros Hk. unfold u64. rewrite list_lookup_fmap, lookup_seq_lt by exact Hk.
  reflexivity.
Qed.

Lemma u64_lookup_total (h : byte_order) (m : list Z) (k : nat) :
  (k < 25)%nat → (u64 h m).[k] = load64 h m k.
Proof.
  intros Hk. rewrite list_lookup_total_alt, u64_lookup by exact Hk. reflexivity.
Qed.

Lemma Forall_is_lane_u64 (h : byte_order) (m : list Z) :
  Forall is_byte m → length m = 200%nat → Forall is_lane (u64 h m).
Proof.
  intros Hm Hlen. unfold u64. apply Forall_fmap, Forall_forall.
  intros k Hk. apply elem_of_seq in Hk. apply is_lane_load64; [exact Hm|lia].
Qed.

(** Storing lane [k] through the lane view changes lane [k] only. *)
Lemma u64_store64 (h : byte_order) (m : list Z) (k : nat) (w : Z) :
  is_lane w → (k < 25)%nat → length m = 200%nat →
  u64 h (store64 h m k w) = (u64 h m).[k <- w].
Proof.
  intros Hw Hk Hlen.
  apply (list_eq_same_length _ _ 25); [by rewrite length_insert, length_u64|apply length_u64|].
  intros j x y Hj Hx Hy. rewrite u64_lookup in Hx by exact Hj.
  injection Hx as <-. destruct (decide (k = j)) as [<-|Hne].
  - rewrite list_lookup_insert_eq in Hy by (rewrite length_u64; lia).
    injection Hy as <-. apply load64_store64; [exact Hw|lia].
  - rewrite list_lookup_insert_ne, u64_lookup in Hy by (exact Hne || exact Hj).
    injection Hy as <-. apply load64_store64_ne; [congruence|lia].
Qed.

Lemma load64_u64_bytes (h : byte_order) (A : list Z) (k : nat) :
  Forall is_lane A → (k < length A)%nat → load64 h (u64_bytes h A) k = A.[k].
Proof.
  intros HA. revert k. induction HA as [|a A Ha _ IH]; intros k Hk; [cbn in Hk; lia|].
  rewrite u64_bytes_cons. unfold load64. destruct k as [|k].
  - change (8 * 0)%nat with 0%nat. rewrite drop_0, take_app_length' by (by rewrite length_split64).
    apply combine64_split64, Ha.
  - rewrite drop_app_ge by (rewrite length_split64; lia).
    rewrite length_split64. replace (8 * S k - 8)%nat with (8 * k)%nat by lia.
    cbn [length] in Hk. apply (IH k). lia.
Qed.

(** Lanes written through the lane view are read back as they are. *)
Lemma u64_u64_bytes (h : byte_order) (A : list Z) :
  length A = 25%nat → Forall is_lane A → u64 h (u64_bytes h A) = A.
Proof.
  intros Hlen HA.
  apply (list_eq_same_length _ _ 25); [exact Hlen|apply length_u64|].
  intros j x y Hj Hx Hy. rewrite u64_lookup in Hx by exact Hj. injection Hx as <-.
  rewrite load64_u64_bytes, list_lookup_total_alt, Hy by (exact HA || lia).
  reflexivity.
Qed.

Lemma keccakf_1600_lanes (A : list Z) :
  length A = 25%nat → Forall is_lane A →
  length (keccakf_1600 A) = 25%nat ∧ Forall is_lane (keccakf_1600 A).
Proof.
  intros Hlen HA. unfold keccakf_1600.
  rewrite <- keccakf_1600_loop_unrolled, keccakf_1600_loop_spec by exact Hlen.
  apply KECCAK_p_lanes; assumption.
Qed.

Lemma u64_keccakf_1600_u64 (h : byte_order) (m : list Z) :
  Forall is_byte m → length m = 200%nat →
  u64 h (keccakf_1600_u64 h m) = keccakf_1600 (u64 h m).
Proof.
  intros Hm Hlen. unfold keccakf_1600_u64.
  destruct (keccakf_1600_lanes (u64 h m)) as [Hl Hv];
    [apply length_u64|by apply Forall_is_lane_u64|].
  apply u64_u64_bytes; [exact Hl|exact Hv].
Qed.

(** ** The word loop on either host *)

Lemma read64le_le_combine (h : byte_order) (bs : list Z) :
  Forall is_byte bs → length bs = 8%nat → read64le h bs = le_combine bs.
Proof.
  intros Hbs Hlen. destruct h; unfold read64le, combine64; [reflexivity|].
  rewrite (bswap_le_combine 8 bswap64).
  - apply f_equal, reverse_involutive.
  - intros x z. apply testbit_bswap64.
  - by apply Forall_reverse.
  - by rewrite length_reverse.
Qed.

Lemma length_store64 (h : byte_order) (m : list Z) (k : nat) (w : Z) :
  (8 * k + 8 ≤ length m)%nat → length (store64 h m k w) = length m.
Proof.
  intros Hk. unfold store64.
  rewrite !length_app, length_take, length_split64, length_drop. lia.
Qed.

Lemma Forall_is_byte_store64 (h : byte_order) (m : list Z) (k : nat) (w : Z) :
  Forall is_byte m → Forall is_byte (store64 h m k w).
Proof.
  intros Hm. unfold store64. rewrite !Forall_app.
  split; [by apply Forall_take|]. split; [apply Forall_is_byte_split64|by apply Forall_drop].
Qed.

(** One iteration of the word loop, seen through the lane view. *)
Lemma absorb_word_lanes (h : byte_order) (c : sha3_ctx) (bs : list Z) :
  initialized c → index c mod 8 = 0 → Forall is_byte bs → length bs = 8%nat →
  initialized (absorb_word h c bs) ∧
  index (absorb_word h c bs) mod 8 = 0 ∧
  index (absorb_word h c bs) = (index c + 8) mod rate c ∧
  rate (absorb_word h c bs) = rate c ∧
  size (absorb_word h c bs) = size c ∧
  u64 h (u8 (absorb_word h c bs))
  = (if index c + 8 =? rate c then keccakf_1600 else id)
      (u64 h (u8 c)).[Z.to_nat (index c / 8) <-
         (u64 h (u8 c)).[Z.to_nat (index c / 8)] .^ le_combine bs].
Proof.
  intros Hc Hi Hbs Hlen. destruct (initialized_rate c Hc) as (_ & Hr8 & Hr).
  destruct Hc as [Hs Hrate Hidx Hl Hb].
  assert (index c + 8 ≤ rate c) as Hfit by zdiv.
  assert (Z.to_nat (index c / 8) < 25)%nat as Hk by zdiv.
  assert (uint8_t (index c + 8) = index c + 8) as Hu
    by (unfold uint8_t; apply Z.mod_small; lia).
  unfold absorb_word. cbv zeta. fields. rewrite Hu, read64le_le_combine by assumption.
  generalize (Z.to_nat (index c / 8)) Hk. clear Hk. intros k Hk.
  assert (is_lane (load64 h (u8 c) k .^ le_combine bs)) as Hw.
  { apply is_lane_lxor; [apply is_lane_load64; [exact Hb|lia]|].
    by apply is_lane_le_combine. }
  rewrite <- (u64_lookup_total h (u8 c) k Hk) in Hw |- *.
  generalize ((u64 h (u8 c)).[k] .^ le_combine bs) Hw. clear Hw. intros w Hw.
  assert (length (store64 h (u8 c) k w) = 200%nat) as Hl'
    by (rewrite length_store64; lia).
  assert (Forall is_byte (store64 h (u8 c) k w)) as Hb'
    by (by apply Forall_is_byte_store64).
  rewrite <- (u64_store64 h (u8 c) k w Hw Hk Hl).
  generalize (store64 h (u8 c) k w) Hl' Hb'. clear Hl' Hb'. intros m' Hl' Hb'.
  unfold block_boundary. fields.
  destruct (Z.eqb_spec (index c + 8) (rate c)) as [E|E].
  - unfold permute. fields.
    destruct (keccakf_1600_u64_bytes h m') as [Hl'' Hb''].
    split; [split; fields; (assumption || lia)|].
    split; [reflexivity|].
    split; [rewrite E, Z_mod_same_full; reflexivity|].
    split; [reflexivity|]. split; [reflexivity|].
    apply u64_keccakf_1600_u64; assumption.
  - fields. split; [split; fields; (assumption || lia)|].
    split; [rewrite Z.add_mod, Hi by lia; reflexivity|].
    split; [rewrite Z.mod_small by lia; reflexivity|].
    split; [reflexivity|]. split; reflexivity.
Qed.

(** The word loop, run on two hosts from contexts with the same lanes. *)
Lemma sha3_update_aligned_lanes_words (n : nat) (h h' : byte_order)
    (c c' : sha3_ctx) (buf : list byte) :
  initialized c → initialized c' → index c mod 8 = 0 →
  index c' = index c → rate c' = rate c → size c' = size c →
  u64 h' (u8 c') = u64 h (u8 c) → length buf = (8 * n)%nat →
  index (sha3_update_aligned h' c' buf) = index (sha3_update_aligned h c buf) ∧
  rate (sha3_update_aligned h' c' buf) = rate (sha3_update_aligned h c buf) ∧
  size (sha3_update_aligned h' c' buf) = size (sha3_update_aligned h c buf) ∧
  u64 h' (u8 (sha3_update_aligned h' c' buf))
  = u64 h (u8 (sha3_update_aligned h c buf)).
Proof.
  revert c c' buf. induction n as [|n IH]; intros c c' buf Hc Hc' Hi Hidx Hr Hs HA Hlen.
  - destruct buf; [|cbn [length] in Hlen; lia]. cbn [sha3_update_aligned]. by repeat split.
  - do 8 (destruct buf as [|? buf]; [cbn [length] in Hlen; lia|]).
    cbn [sha3_update_aligned].
    match goal with
    | |- context [absorb_word h c ?bs] =>
        assert (Forall is_byte bs) as Hbs
          by (apply Forall_fmap, Forall_forall; intros ? _; apply is_byte_value);
        destruct (absorb_word_lanes h c bs Hc Hi Hbs eq_refl)
          as (Hd & Hdi & Hdx & Hdr & Hds & HdA);
        destruct (absorb_word_lanes h' c' bs Hc') as (Hd' & Hdi' & Hdx' & Hdr' & Hds' & HdA');
          [congruence|exact Hbs|reflexivity|];
        generalize dependent (absorb_word h c bs);
        generalize dependent (absorb_word h' c' bs)
    end.
    intros d' Hd' Hdi' Hdx' Hdr' Hds' HdA' d Hd Hdi Hdx Hdr Hds HdA.
    apply (IH d d' buf); try assumption; try congruence.
    + rewrite HdA', HdA, Hidx, Hr, HA. reflexivity.
    + cbn [length] in Hlen. lia.
Qed.

(** ** The context across [sha3_update], on either host *)

Lemma absorb_byte_fields (h : byte_order) (c : sha3_ctx) (b : byte) :
  initialized c →
  rate (absorb_byte h c b) = rate c ∧ size (absorb_byte h c b) = size c ∧
  index (absorb_byte h c b) = (index c + 1) mod rate c.
Proof.
  intros Hc. destruct (initialized_rate c Hc) as (_ & _ & Hr).
  destruct Hc as [_ _ Hi _ _].
  assert (uint8_t (index c + 1) = index c + 1) as Hu
    by (unfold uint8_t; apply Z.mod_small; lia).
  unfold absorb_byte, block_boundary.
  destruct h; cbv zeta; fields; rewrite Hu;
    (destruct (Z.eqb_spec (index c + 1) (rate c)) as [E|E];
     [unfold permute; fields; rewrite E, Z_mod_same_full
     |fields; rewrite Z.mod_small by lia]);
    repeat split; reflexivity.
Qed.

Lemma absorb_bytes_fields (h : byte_order) (c : sha3_ctx) (buf : list byte) :
  initialized c →
  rate (foldl (absorb_byte h) c buf) = rate c ∧
  size (foldl (absorb_byte h) c buf) = size c ∧
  index (foldl (absorb_byte h) c buf)
  = (index c + Z.of_nat (length buf)) mod rate c.
Proof.
  revert c. induction buf as [|b buf IH]; intros c Hc.
  - cbn [foldl length]. destruct Hc as [_ _ Hi _ _].
    rewrite Z.add_0_r, Z.mod_small by lia. by repeat split.
  - cbn [foldl length].
    destruct (absorb_byte_fields h c b Hc) as (Hr & Hs & Hi).
    destruct (IH (absorb_byte h c b)) as (Hr' & Hs' & Hi');
      [by apply absorb_byte_initialized|].
    rewrite Hr', Hs', Hi', Hr, Hs, Hi, Z.add_mod_idemp_l
      by (destruct (initialized_rate c Hc) as (_ & _ & ?); lia).
    repeat split; try reflexivity. f_equal. lia.
Qed.

Lemma sha3_update_aligned_words_fields (n : nat) (h : byte_order)
    (c : sha3_ctx) (buf : list byte) :
  initialized c → index c mod 8 = 0 → length buf = (8 * n)%nat →
  initialized (sha3_update_aligned h c buf) ∧
  rate (sha3_update_aligned h c buf) = rate c ∧
  size (sha3_update_aligned h c buf) = size c ∧
  index (sha3_update_aligned h c buf)
  = (index c + Z.of_nat (length buf)) mod rate c.
Proof.
  revert c buf. induction n as [|n IH]; intros c buf Hc Hi Hlen.
  - destruct buf; [|cbn [length] in Hlen; lia]. cbn [sha3_update_aligned length].
    split; [exact Hc|]. destruct Hc as [_ _ Hidx _ _].
    rewrite Z.add_0_r, Z.mod_small by lia. by repeat split.
  - assert (rate c ≠ 0) as Hr0
      by (destruct (initialized_rate c Hc) as (_ & _ & ?); lia).
    do 8 (destruct buf as [|? buf]; [cbn [length] in Hlen; lia|]).
    cbn [sha3_update_aligned].
    match goal with
    | |- context [absorb_word h c ?bs] =>
        assert (Forall is_byte bs) as Hbs
          by (apply Forall_fmap, Forall_forall; intros ? _; apply is_byte_value);
        destruct (absorb_word_lanes h c bs Hc Hi Hbs eq_refl)
          as (Hd & Hdi & Hdx & Hdr & Hds & _);
        generalize dependent (absorb_word h c bs)
    end.
    intros d Hd Hdi Hdx Hdr Hds.
    destruct (IH d buf Hd Hdi) as (Hd' & Hr' & Hs' & Hi');
      [cbn [length] in Hlen; lia|].
    split; [exact Hd'|].
    rewrite Hr', Hs', Hi', Hdr, Hds, Hdx, Z.add_mod_idemp_l by exact Hr0.
    repeat split; try reflexivity. f_equal. cbn [length]. lia.
Qed.

Lemma sha3_update_fields (h : byte_order) (c : sha3_ctx) (addr : Z) (buf : list byte) :
  initialized c →
  initialized (sha3_update h c addr buf) ∧
  rate (sha3_update h c addr buf) = rate c ∧
  size (sha3_update h c addr buf) = size c ∧
  index (sha3_update h c addr buf)
  = (index c + Z.of_nat (length buf)) mod rate c.
Proof.
  intros Hc. unfold sha3_update. cbv zeta. rewrite !land_7.
  destruct (Z.eqb_spec (Z.of_nat (length buf) mod 8) 0) as [Hlen|_];
    destruct (Z.eqb_spec (index c mod 8) 0) as [Hi|_];
    destruct (Z.eqb_spec (addr mod 8) 0) as [_|_]; cbn [andb];
    try (split; [by apply absorb_bytes_initialized|by apply absorb_bytes_fields]).
  apply Z.mod_divide in Hlen as [q Hq]; [|lia].
  apply (sha3_update_aligned_words_fields (Z.to_nat q)); [assumption..|lia].
Qed.

(** ** The steps of the loop version *)

Lemma theta_loop_spec (A : list Z) :
  length A = 25%nat → (theta_loop (M := Pure) A).1 = Spec.theta A.
Proof. intros H. lanes25 A H. lanewise. reflexivity. Qed.

Lemma rho_loop_spec (A : list Z) :
  length A = 25%nat → rho_loop (M := Pure) A = Spec.rho A.
Proof. intros H. lanes25 A H. lanewise. reflexivity. Qed.

Lemma pi_loop_spec (A tmp : list Z) :
  length A = 25%nat → length tmp = 5%nat → (pi_loop A tmp).1 = Spec.pi A.
Proof.
  intros H Htmp. lanes25 A H.
  do 5 (destruct tmp as [|? tmp]; [discriminate Htmp|]).
  destruct tmp; [|discriminate Htmp]. lanewise. reflexivity.
Qed.

Lemma chi_loop_spec (A tmp : list Z) :
  length A = 25%nat → length tmp = 5%nat → (chi_loop A tmp).1 = Spec.chi A.
Proof.
  intros H Htmp. lanes25 A H.
  do 5 (destruct tmp as [|? tmp]; [discriminate Htmp|]).
  destruct tmp; [|discriminate Htmp]. lanewise. reflexivity.
Qed.

Lemma iota_spec (i_r : nat) (A : list Z) :
  length A = 25%nat → iota i_r A = Spec.iota i_r A.
Proof. intros H. lanes25 A H. lanewise. reflexivity. Qed.

(** A step mapping of the standard, from string to string. *)
Lemma step_string (f : FIPS202.state_array → FIPS202.state_array) (L L' : list Z) :
  length L = 25%nat → length L' = 25%nat →
  (∀ A B, same_bits A B → same_bits (f A) (f B)) →
  same_bits (f (array_of_lanes L)) (array_of_lanes L') →
  FIPS202.string_of_array (f (FIPS202.array_of_string (lanes_bits L)))
  = lanes_bits L'.
Proof.
  intros HL HL' Hf H. apply string_of_array_lanes; [exact HL'|].
  eapply same_bits_trans; [|exact H]. apply Hf, array_of_string_lanes, HL.
Qed.

(** X2: each of the five loops of a round of the loop version computes the
    step mapping of FIPS 202 of its name (Algorithms 1 to 4 and 6), taken
    from the 1600-bit string of the state to the 1600-bit string of the
    result; π and χ do so whatever the scratch array [tmp] holds on
    entry. *)
Theorem loop_steps_are_the_step_mappings
    (A tmp : list Z) (i_r : nat)
    (HA : length A = 25%nat) (Hv : Forall is_lane A)
    (Htmp : length tmp = 5%nat) (Hi : (i_r < 24)%nat) :
  let step f S := FIPS202.string_of_array (f (FIPS202.array_of_string S)) in
  lanes_bits (theta_loop (M := Pure) A).1 = step FIPS202.theta (lanes_bits A) ∧
  lanes_bits (rho_loop (M := Pure) A) = step FIPS202.rho (lanes_bits A) ∧
  lanes_bits (pi_loop A tmp).1 = step FIPS202.pi (lanes_bits A) ∧
  lanes_bits (chi_loop A tmp).1 = step FIPS202.chi (lanes_bits A) ∧
  lanes_bits (iota i_r A)
  = step (λ B, FIPS202.iota B (Z.of_nat i_r)) (lanes_bits A).
Proof.
  intros step. subst step. cbv beta.
  rewrite theta_loop_spec, rho_loop_spec, pi_loop_spec, chi_loop_spec, iota_spec
    by assumption.
  split; [symmetry; apply step_string;
            [exact HA|by apply Spec_theta_lanes|apply theta_same_bits|by apply theta_lanes]|].
  split; [symmetry; apply step_string;
            [exact HA|by apply Spec_rho_lanes|apply rho_same_bits|by apply rho_lanes]|].
  split; [symmetry; apply step_string;
            [exact HA|by apply Spec_pi_lanes|apply pi_same_bits|by apply pi_lanes]|].
  split; [symmetry; apply step_string;
            [exact HA|by apply Spec_chi_lanes|apply chi_same_bits|by apply chi_lanes]|].
  symmetry. apply (step_string (λ B, FIPS202.iota B (Z.of_nat i_r)));
    [exact HA|by apply Spec_iota_lanes|intros B C; apply iota_same_bits|by apply iota_lanes].
Qed.

Lemma loop_steps_are_the_step_mappings_witness :
  lanes_bits (pi_loop (Z.of_nat <$> seq 0 25) (replicate 5 7)).1
  = FIPS202.string_of_array
      (FIPS202.pi (FIPS202.array_of_string (lanes_bits (Z.of_nat <$> seq 0 25)))).
Proof.
  refine (proj1 (proj2 (proj2
    (loop_steps_are_the_step_mappings (Z.of_nat <$> seq 0 25) (replicate 5 7) 0 _ _ _ _)))).
  - vm_compute. reflexivity.
  - apply Forall_fmap, Forall_seq. intros k Hk. unfold compose, is_lane. lia.
  - reflexivity.
  - lia.
Defined.

(** ** The tables *)

(** X3: the 24 entries of [RC] are the round constants that Algorithms 5 and 6
    of FIPS 202 compute for the rounds 0 to 23, each a 64-bit value. *)
Theorem RC_table_is_algorithm_6 :
  length RC = 24%nat ∧ Forall is_lane RC ∧
  lane_bits <$> RC = (λ i_r, FIPS202.RC (Z.of_nat i_r)) <$> seq 0 24.
Proof.
  split; [reflexivity|]. split.
  - apply Forall_lookup_2. intros i_r w Hw. rewrite <- (list_lookup_total_correct _ _ _ Hw).
    apply is_lane_RC.
  - vm_compute. reflexivity.
Qed.

(** X4: the 24 entries of [rho], for the lanes at the indices 1 to 24, are the
    offsets of Table 2 of FIPS 202 reduced modulo 64, which are the offsets
    [(t + 1)(t + 2) / 2] that the walk of Algorithm 2 gives to the lanes,
    reduced modulo 64. *)
Theorem rho_table_is_table_2_modulo_64 :
  rho = (λ t, t mod 64) <$>
          [      1; 190;  28;  91;
            36; 300;   6;  55; 276;
             3;  10; 171; 153; 231;
           105;  45;  15;  21; 136;
           210;  66; 253; 120;  78 ] ∧
  rho = (λ k, Spec.rho_offset (k mod 5) (k / 5))%nat <$> seq 1 24.
Proof. split; vm_compute; reflexivity. Qed.

(** X5: [pi] lists each of the indices 1 to 24 once, and the lane that the π
    loop moves to the lane at [pi[i]], the one at [pi[i + 1]] (at [pi[0]]
    for the last), is the lane that Algorithm 3 of FIPS 202 moves there:
    for [pi[i] = x + 5y] it is the lane at [(x + 3y) mod 5 + 5x]. *)
Theorem pi_table_is_the_cycle_of_algorithm_3 :
  length pi = 24%nat ∧ NoDup pi ∧ Forall (λ k, 1 ≤ k ≤ 24)%nat pi ∧
  (λ k, (k mod 5 + 3 * (k / 5)) mod 5 + 5 * (k mod 5))%nat <$> pi
  = drop 1 pi ++ take 1 pi.
Proof.
  split; [reflexivity|].
  split; [apply (bool_decide_unpack _); vm_compute; exact I|].
  split; [apply (bool_decide_unpack _); vm_compute; exact I|].
  vm_compute. reflexivity.
Qed.

(** ** Byte order *)

(** X6: [bswap32] reverses the order of the four bytes of a 32-bit value, and
    applied twice gives the value back. *)
Theorem bswap32_reverses_the_bytes
    (bs : list Z) (Hbs : Forall is_byte bs) (Hlen : length bs = 4%nat) :
  bswap32 (le_combine bs) = le_combine (reverse bs) ∧
  bswap32 (bswap32 (le_combine bs)) = le_combine bs.
Proof.
  split.
  - apply (bswap_le_combine 4 bswap32); [|exact Hbs|exact Hlen].
    intros x z. apply testbit_bswap32.
  - apply bswap32_involutive. pose proof (le_combine_bound bs Hbs) as H.
    rewrite Hlen in H. exact H.
Qed.

Lemma bswap32_reverses_the_bytes_witness :
  bswap32 0x44332211 = 0x11223344 ∧ bswap32 (bswap32 0x44332211) = 0x44332211.
Proof.
  apply (bswap32_reverses_the_bytes [0x11; 0x22; 0x33; 0x44]); [|reflexivity].
  apply (bool_decide_unpack _). vm_compute. exact I.
Defined.

(** X7: [bswap64] reverses the order of the eight bytes of a 64-bit value,
    and applied twice gives the value back. *)
Theorem bswap64_reverses_the_bytes
    (bs : list Z) (Hbs : Forall is_byte bs) (Hlen : length bs = 8%nat) :
  bswap64 (le_combine bs) = le_combine (reverse bs) ∧
  bswap64 (bswap64 (le_combine bs)) = le_combine bs.
Proof.
  split.
  - apply (bswap_le_combine 8 bswap64); [|exact Hbs|exact Hlen].
    intros x z. apply testbit_bswap64.
  - apply bswap64_involutive. pose proof (le_combine_bound bs Hbs) as H.
    rewrite Hlen in H. exact H.
Qed.

Lemma bswap64_reverses_the_bytes_witness :
  bswap64 0x8877665544332211 = 0x1122334455667788 ∧
  bswap64 (bswap64 0x8877665544332211) = 0x8877665544332211.
Proof.
  apply (bswap64_reverses_the_bytes [0x11; 0x22; 0x33; 0x44; 0x55; 0x66; 0x77; 0x88]);
    [|reflexivity].
  apply (bool_decide_unpack _). vm_compute. exact I.
Defined.

(** X8: on either host [read64le(p)] is the 64-bit value of the eight bytes
    at [p] with the byte at the lowest address the least significant. *)
Theorem read64le_reads_least_significant_byte_first
    (h : byte_order) (bs : list Z)
    (Hbs : Forall is_byte bs) (Hlen : length bs = 8%nat) :
  read64le h bs = le_combine bs ∧ is_lane (read64le h bs).
Proof.
  rewrite read64le_le_combine by assumption.
  split; [reflexivity|by apply is_lane_le_combine].
Qed.

Lemma read64le_reads_least_significant_byte_first_witness :
  read64le BigEndian [1; 2; 3; 4; 5; 6; 7; 8] = 0x0807060504030201 ∧
  read64le LittleEndian [1; 2; 3; 4; 5; 6; 7; 8] = 0x0807060504030201.
Proof.
  split.
  - apply (read64le_reads_least_significant_byte_first BigEndian [1; 2; 3; 4; 5; 6; 7; 8]);
      [|reflexivity].
    apply (bool_decide_unpack _). vm_compute. exact I.
  - apply (read64le_reads_least_significant_byte_first LittleEndian [1; 2; 3; 4; 5; 6; 7; 8]);
      [|reflexivity].
    apply (bool_decide_unpack _). vm_compute. exact I.
Defined.

(** ** Absorption on either host *)

(** X9: the word loop of [sha3_update_aligned] leaves the same lanes on a
    big-endian host as on a little-endian one: run from two initialised
    contexts with the same fill index (a multiple of 8), the same digest size
    and the same 25 lanes, on an input whose length is a multiple of 8, it
    ends with the same fill index, rate, size and lanes. *)
Theorem sha3_update_aligned_lanes_are_host_independent
    (c c' : sha3_ctx) (buf : list byte)
    (Hc : initialized c) (Hc' : initialized c')
    (Hi : index c mod 8 = 0) (Hlen : Z.of_nat (length buf) mod 8 = 0)
    (Hidx : index c' = index c) (Hs : size c' = size c)
    (HA : u64 BigEndian (u8 c') = u64 LittleEndian (u8 c)) :
  index (sha3_update_aligned BigEndian c' buf)
  = index (sha3_update_aligned LittleEndian c buf) ∧
  rate (sha3_update_aligned BigEndian c' buf)
  = rate (sha3_update_aligned LittleEndian c buf) ∧
  size (sha3_update_aligned BigEndian c' buf)
  = size (sha3_update_aligned LittleEndian c buf) ∧
  u64 BigEndian (u8 (sha3_update_aligned BigEndian c' buf))
  = u64 LittleEndian (u8 (sha3_update_aligned LittleEndian c buf)).
Proof.
  apply Z.mod_divide in Hlen as [q Hq]; [|lia].
  apply (sha3_update_aligned_lanes_words (Z.to_nat q)); try assumption; [|lia].
  rewrite (init_rate c Hc), (init_rate c' Hc'), Hs. reflexivity.
Qed.

Lemma sha3_update_aligned_lanes_are_host_independent_witness :
  let c := sha3_init (Ctx 0 0 0 []) SHA3_256 in
  let buf := [x01; x02; x03; x04; x05; x06; x07; x08;
              x09; x0a; x0b; x0c; x0d; x0e; x0f; x10] in
  u64 BigEndian (u8 (sha3_update_aligned BigEndian c buf))
  = u64 LittleEndian (u8 (sha3_update_aligned LittleEndian c buf)).
Proof.
  intros c buf.
  refine (proj2 (proj2 (proj2
    (sha3_update_aligned_lanes_are_host_independent c c buf _ _ _ _ _ _ _))));
    try apply sha3_init_initialized; reflexivity.
Defined.

(** X10: on either host [sha3_update] takes an initialised context to an
    initialised context with the same rate and digest size, whose fill index
    is the old one plus the number of bytes absorbed, modulo the rate. *)
Theorem sha3_update_keeps_the_context_well_formed
    (h : byte_order) (c : sha3_ctx) (addr : Z) (buf : list byte)
    (Hc : initialized c) :
  initialized (sha3_update h c addr buf) ∧
  rate (sha3_update h c addr buf) = rate c ∧
  size (sha3_update h c addr buf) = size c ∧
  index (sha3_update h c addr buf)
  = (index c + Z.of_nat (length buf)) mod rate c.
Proof. apply sha3_update_fields, Hc. Qed.

Lemma sha3_update_keeps_the_context_well_formed_witness :
  index (sha3_update BigEndian (sha3_init (Ctx 0 0 0 []) SHA3_512) 1
           (replicate 100 "a"%byte)) = 28.
Proof.
  destruct (sha3_update_keeps_the_context_well_formed BigEndian
              (sha3_init (Ctx 0 0 0 []) SHA3_512) 1 (replicate 100 "a"%byte))
    as (_ & _ & _ & ->); [apply sha3_init_initialized|].
  vm_compute. reflexivity.
Defined.

(** X11: on a little-endian host two calls of [sha3_update] on an initialised
    context leave the context that one call on the two inputs in a row
    leaves, whatever the addresses; and on either host a call with no bytes
    leaves any context as it is. *)
Theorem sha3_update_little_endian_composes
    (c : sha3_ctx) (a1 a2 a : Z) (b1 b2 : list byte) (Hc : initialized c) :
  sha3_update LittleEndian (sha3_update LittleEndian c a1 b1) a2 b2
  = sha3_update LittleEndian c a (b1 ++ b2) ∧
  (∀ (h : byte_order) (c0 : sha3_ctx), sha3_update h c0 a [] = c0).
Proof.
  split.
  - rewrite (sha3_update_le c a1), (sha3_update_le _ a2), (sha3_update_le c a), foldl_app
      by (try apply absorb_bytes_initialized; exact Hc).
    reflexivity.
  - intros h c0. unfold sha3_update. cbv zeta. cbn [length foldl sha3_update_aligned].
    destruct (_ && _); reflexivity.
Qed.

Lemma sha3_update_little_endian_composes_witness :
  let c := sha3_init (Ctx 0 0 0 []) SHA3_256 in
  sha3_update LittleEndian
    (sha3_update LittleEndian c 0 [x01; x02; x03; x04; x05; x06; x07; x08; x09])
    9 [x0a; x0b; x0c; x0d; x0e; x0f; x10]
  = sha3_update LittleEndian c 0
      ([x01; x02; x03; x04; x05; x06; x07; x08; x09]
       ++ [x0a; x0b; x0c; x0d; x0e; x0f; x10]).
Proof.
  intros c.
  exact (proj1 (sha3_update_little_endian_composes c 0 9 0
                  [x01; x02; x03; x04; x05; x06; x07; x08; x09]
                  [x0a; x0b; x0c; x0d; x0e; x0f; x10]
                  (sha3_init_initialized (Ctx 0 0 0 []) SHA3_256))).
Defined.

(** ** The digest *)

Lemma size_sha3_init (c : sha3_ctx) (algo : sha3_algo) :
  size (sha3_init c algo) = algo_value algo.
Proof. by destruct algo. Qed.

(** X12: on either host, for every message, the three calls write as many
    bytes as the selector says, 28, 32, 48 or 64, each a value from 0 to
    255. *)
Theorem sha3_digest_has_the_size_of_the_selector
    (h : byte_order) (algo : sha3_algo) (c0 : sha3_ctx) (addr : Z) (msg : list byte) :
  Z.of_nat (length (sha3 h algo c0 addr msg)) = algo_value algo ∧
  algo_value algo ∈ [28; 32; 48; 64] ∧
  Forall is_byte (sha3 h algo c0 addr msg).
Proof.
  unfold sha3. rewrite sha3_final_digest.
  destruct (sha3_update_fields h (sha3_init c0 algo) addr msg)
    as (_ & _ & -> & _); [apply sha3_init_initialized|].
  rewrite size_sha3_init.
  match goal with
  | |- context [keccakf_1600_u64 h ?m] =>
      destruct (keccakf_1600_u64_bytes h m) as [Hl Hb];
      generalize dependent (keccakf_1600_u64 h m)
  end.
  intros m' Hl Hb.
  split; [rewrite length_take, Hl; destruct algo; reflexivity|].
  split; [destruct algo; repeat constructor|].
  by apply Forall_take.
Qed.

(** X13: on a little-endian host, for each of the four selectors, every
    message, every way of cutting it into [sha3_update] calls and every
    address of the pieces, the digest written by [sha3_final] is the digest
    of FIPS 202: SHA3-224, SHA3-256, SHA3-384 or SHA3-512 of the message. *)
Theorem sha3_little_endian_is_fips202
    (algo : sha3_algo) (c0 : sha3_ctx) (chunks : list (Z * list byte)) :
  (sha3_final LittleEndian
     (foldl (λ c chunk, sha3_update LittleEndian c chunk.1 chunk.2)
            (sha3_init c0 algo) chunks)).1
  = fips202_digest algo (concat (snd <$> chunks)).
Proof.
  rewrite sha3_updates_le by apply sha3_init_initialized.
  rewrite <- (sha3_update_le _ 0) by apply sha3_init_initialized.
  pose proof (sha3_le_fips202 algo c0 0 (concat (snd <$> chunks))) as H.
  unfold sha3 in H. exact H.
Qed.

(** ** The permutation and the standard *)

(** X14: on 25 lanes of 64 bits both versions of [keccakf_1600] compute
    KECCAK-p[1600, 24] of FIPS 202 (Algorithm 7) on the 1600-bit string of
    the lanes, and return 25 lanes of 64 bits. *)
Theorem keccakf_1600_is_KECCAK_p_1600_24
    (A : list Z) (HA : length A = 25%nat) (Hv : Forall is_lane A) :
  lanes_bits (keccakf_1600_unrolled (M := Pure) A)
  = FIPS202.KECCAK_p 24 (lanes_bits A) ∧
  lanes_bits (keccakf_1600_loop (M := Pure) A)
  = FIPS202.KECCAK_p 24 (lanes_bits A) ∧
  length (keccakf_1600_unrolled (M := Pure) A) = 25%nat ∧
  Forall is_lane (keccakf_1600_unrolled (M := Pure) A).
Proof.
  rewrite <- keccakf_1600_loop_unrolled, keccakf_1600_loop_spec by exact HA.
  destruct (KECCAK_p_lanes A HA Hv) as (-> & Hl & Hv').
  split; [reflexivity|]. split; [reflexivity|]. split; [exact Hl|exact Hv'].
Qed.

Lemma keccakf_1600_is_KECCAK_p_1600_24_witness :
  lanes_bits (keccakf_1600_unrolled (M := Pure) (replicate 25 0))
  = FIPS202.KECCAK_p 24 (lanes_bits (replicate 25 0)).
Proof.
  refine (proj1 (keccakf_1600_is_KECCAK_p_1600_24 (replicate 25 0) eq_refl _)).
  apply Forall_replicate. unfold is_lane. lia.
Defined.

(** X15: on a little-endian host [keccakf_1600(ctx->u64)] takes 200 state
    bytes to 200 state bytes, and on the bits of the bytes, the least
    significant bit of each byte first, it is KECCAK-p[1600, 24]. *)
Theorem keccakf_1600_on_the_state_bytes
    (m : list Z) (Hlen : length m = 200%nat) (Hb : Forall is_byte m) :
  FIPS202.h2b (keccakf_1600_u64 LittleEndian m)
  = FIPS202.KECCAK_p 24 (FIPS202.h2b m) ∧
  length (keccakf_1600_u64 LittleEndian m) = 200%nat ∧
  Forall is_byte (keccakf_1600_u64 LittleEndian m).
Proof.
  split; [by apply keccakf_1600_u64_bits|]. apply keccakf_1600_u64_bytes.
Qed.

Lemma keccakf_1600_on_the_state_bytes_witness :
  FIPS202.h2b (keccakf_1600_u64 LittleEndian (replicate 200 0))
  = FIPS202.KECCAK_p 24 (FIPS202.h2b (replicate 200 0)).
Proof.
  refine (proj1 (keccakf_1600_on_the_state_bytes (replicate 200 0) eq_refl _)).
  apply Forall_replicate. unfold is_byte. lia.
Defined.

(** ** The bounds of the arrays *)

Lemma absorb_byte_checked_defined (h : byte_order) (c : sha3_ctx) (b : byte) :
  initialized c → absorb_byte_checked h c b = Some (absorb_byte h c b).
Proof.
  intros Hc. destruct (initialized_rate c Hc) as (_ & _ & Hr).
  destruct Hc as [_ _ Hi _ _].
  unfold absorb_byte_checked, absorb_byte, xor_u8, in_bounds. cbv zeta.
  destruct h.
  - rewrite (proj2 (Z.leb_le 0 _)), (proj2 (Z.ltb_lt _ 200)) by lia. reflexivity.
  - rewrite (proj2 (Z.leb_le 0 _)), (proj2 (Z.ltb_lt _ 200)) by zdiv.
    reflexivity.
Qed.

Lemma absorb_bytes_checked_defined (h : byte_order) (c : sha3_ctx) (buf : list byte) :
  initialized c →
  absorb_bytes_checked h c buf = Some (foldl (absorb_byte h) c buf).
Proof.
  revert c. induction buf as [|b buf IH]; intros c Hc; [reflexivity|].
  cbn [foldl absorb_bytes_checked]. rewrite absorb_byte_checked_defined by exact Hc.
  apply IH, absorb_byte_initialized, Hc.
Qed.

Lemma sha3_update_aligned_checked_words (n : nat) (h : byte_order)
    (c : sha3_ctx) (buf : list byte) :
  initialized c → index c mod 8 = 0 → length buf = (8 * n)%nat →
  sha3_update_aligned_checked h c buf = Some (sha3_update_aligned h c buf).
Proof.
  revert c buf. induction n as [|n IH]; intros c buf Hc Hi Hlen.
  - destruct buf; [reflexivity|cbn [length] in Hlen; lia].
  - do 8 (destruct buf as [|? buf]; [cbn [length] in Hlen; lia|]).
    cbn [sha3_update_aligned_checked sha3_update_aligned].
    assert (0 ≤ index c / 8 < 25) as Hk
      by (destruct (initialized_rate c Hc) as (_ & _ & ?);
          destruct Hc as [_ _ ? _ _]; zdiv).
    unfold xor_u64 at 1, in_bounds.
    rewrite (proj2 (Z.leb_le 0 _)), (proj2 (Z.ltb_lt _ 25)) by lia.
    cbn [andb].
    match goal with
    | |- context [absorb_word h c ?bs] =>
        assert (Forall is_byte bs) as Hbs
          by (apply Forall_fmap, Forall_forall; intros ? _; apply is_byte_value);
        destruct (absorb_word_lanes h c bs Hc Hi Hbs eq_refl) as (Hd & Hdi & _)
    end.
    apply IH; [exact Hd|exact Hdi|cbn [length] in Hlen; lia].
Qed.

Lemma sha3_final_checked_defined (h : byte_order) (c : sha3_ctx) :
  initialized c → sha3_final_checked h c = Some (sha3_final h c).
Proof.
  intros Hc. destruct (initialized_rate c Hc) as (_ & _ & Hr).
  destruct Hc as [Hs _ Hi _ _].
  assert (size c ≤ 200) as Hs200.
  { repeat (apply elem_of_cons in Hs as [->|Hs]; [lia|]). by apply elem_of_nil in Hs. }
  unfold sha3_final_checked, sha3_final, xor_u8, in_bounds. cbv zeta.
  rewrite (proj2 (Z.leb_le 0 (index c))), (proj2 (Z.ltb_lt (index c) 200)) by lia.
  cbn [andb]. fields.
  rewrite (proj2 (Z.leb_le 0 (rate c - 1))), (proj2 (Z.ltb_lt (rate c - 1) 200)) by lia.
  cbn [andb]. unfold permute. fields.
  rewrite (proj2 (Z.leb_le (size c) 200)) by exact Hs200. reflexivity.
Qed.

(** X16: on an initialised context, on either host, [sha3_update] and
    [sha3_final] stay within the bounds of [ctx->u8] and [ctx->u64],
    [sha3_update_aligned] is entered only with a fill index and a length that
    are multiples of 8 and reads no byte beyond the input, and [sha3_final]
    copies at most 200 bytes: the driver with the bounds checked runs to the
    result of the driver. *)
Theorem sha3_driver_stays_within_bounds
    (h : byte_order) (c : sha3_ctx) (addr : Z) (buf : list byte)
    (Hc : initialized c) :
  sha3_update_checked h c addr buf = Some (sha3_update h c addr buf) ∧
  sha3_final_checked h c = Some (sha3_final h c).
Proof.
  split; [|by apply sha3_final_checked_defined].
  unfold sha3_update_checked, sha3_update. cbv zeta. rewrite !land_7.
  destruct (Z.eqb_spec (Z.of_nat (length buf) mod 8) 0) as [Hlen|_];
    destruct (Z.eqb_spec (index c mod 8) 0) as [Hi|_];
    destruct (Z.eqb_spec (addr mod 8) 0) as [_|_]; cbn [andb];
    try (by apply absorb_bytes_checked_defined).
  apply Z.mod_divide in Hlen as [q Hq]; [|lia].
  apply (sha3_update_aligned_checked_words (Z.to_nat q)); [assumption..|lia].
Qed.

Lemma sha3_driver_stays_within_bounds_witness :
  let c := sha3_init (Ctx 0 0 0 []) SHA3_224 in
  is_Some (sha3_update_checked BigEndian c 0 (replicate 143 "a"%byte)) ∧
  is_Some (sha3_final_checked BigEndian c).
Proof.
  intros c.
  destruct (sha3_driver_stays_within_bounds BigEndian c 0 (replicate 143 "a"%byte))
    as [-> ->]; [apply sha3_init_initialized|].
  split; eexists; reflexivity.
Defined.

(** A context that was never initialised can send [sha3_final] out of
    bounds. *)
Lemma sha3_final_checked_uninitialized :
  sha3_final_checked LittleEndian (Ctx 200 0 0 (replicate 200 0)) = None.
Proof. reflexivity. Qed.

(** ** The union *)

Lemma u64_bytes_loads (h : byte_order) (m : list Z) (n : nat) :
  Forall is_byte m → (8 * n ≤ length m)%nat →
  u64_bytes h (load64 h m <$> seq 0 n) = take (8 * n) m.
Proof.
  intros Hm. induction n as [|n IH]; intros Hn; [reflexivity|].
  unfold u64_bytes in *. rewrite seq_S, fmap_app, bind_app, IH by lia.
  cbn [fmap list_fmap mbind list_bind app Nat.add]. rewrite app_nil_r.
  unfold load64. rewrite split64_combine64.
  - rewrite take_take_drop. f_equal. lia.
  - by apply Forall_take, Forall_drop.
  - rewrite length_take, length_drop. lia.
Qed.

(** X17: the two members of the union in [struct sha3_ctx] are views of the
    same 200 bytes on either host: the 25 lanes read through [u64] from 200
    state bytes are 64-bit values whose bytes are those 200 bytes, and 25
    lanes of 64 bits stored through [u64] are read back as they are. *)
Theorem u8_and_u64_are_views_of_the_same_bytes
    (h : byte_order) (m A : list Z)
    (Hlen : length m = 200%nat) (Hb : Forall is_byte m)
    (HA : length A = 25%nat) (Hv : Forall is_lane A) :
  u64_bytes h (u64 h m) = m ∧
  length (u64 h m) = 25%nat ∧ Forall is_lane (u64 h m) ∧
  u64 h (u64_bytes h A) = A ∧
  length (u64_bytes h A) = 200%nat ∧ Forall is_byte (u64_bytes h A).
Proof.
  split.
  { unfold u64. rewrite u64_bytes_loads by (assumption || lia).
    apply take_ge. lia. }
  split; [apply length_u64|]. split; [by apply Forall_is_lane_u64|].
  split; [by apply u64_u64_bytes|].
  split; [rewrite length_u64_bytes, HA; reflexivity|apply Forall_is_byte_u64_bytes].
Qed.

Lemma u8_and_u64_are_views_of_the_same_bytes_witness :
  let m := Z.of_nat <$> seq 0 200 in
  u64_bytes BigEndian (u64 BigEndian m) = m ∧
  (u64 BigEndian m).[0] = 0x0001020304050607 ∧
  (u64 LittleEndian m).[0] = 0x0706050403020100.
Proof.
  intros m. split; [|split; reflexivity].
  refine (proj1 (u8_and_u64_are_views_of_the_same_bytes BigEndian m (replicate 25 0)
                   _ _ eq_refl _)).
  - vm_compute. reflexivity.
  - apply (bool_decide_unpack _). vm_compute. exact I.
  - apply Forall_replicate. unfold is_lane. lia.
Defined.

(** ** The shifts do not depend on the data *)

Lemma round_loop_trace (i_r j_r : nat) (A B : list Z) :
  length A = 25%nat → length B = 25%nat →
  (round_loop (M := Traced) i_r A).1 = (round_loop (M := Traced) j_r B).1 ∧
  length (round_loop (M := Traced) i_r A).1 = 58%nat.
Proof.
  intros HA HB. lanes25 A HA. lanes25 B HB. split; lanewise; reflexivity.
Qed.

Lemma round_unrolled_trace (i_r j_r : nat) (A B : list Z) :
  length A = 25%nat → length B = 25%nat →
  (round_unrolled (M := Traced) i_r A).1 = (round_unrolled (M := Traced) j_r B).1 ∧
  length (round_unrolled (M := Traced) i_r A).1 = 58%nat.
Proof.
  intros HA HB. lanes25 A HA. lanes25 B HB. split; lanewise; reflexivity.
Qed.

Lemma rounds_loop_trace (idx : list nat) (A B : list Z) :
  length A = 25%nat → length B = 25%nat →
  (mfor (M := Traced) idx round_loop A).1 = (mfor (M := Traced) idx round_loop B).1 ∧
  length (mfor (M := Traced) idx round_loop A).1 = (58 * length idx)%nat ∧
  (mfor (M := Traced) idx round_loop A).2 = mfor (M := Pure) idx round_loop A.
Proof.
  revert A B. induction idx as [|i idx IH]; intros A B HA HB; [by repeat split|].
  rewrite !mfor_traced_cons, mfor_pure_cons. cbn [fst snd].
  destruct (round_loop_trace i i A B HA HB) as [Ht Hl].
  destruct (round_loop_traced i A HA) as [_ HvA].
  destruct (round_loop_traced i B HB) as [_ HvB].
  assert (length (round_loop (M := Pure) i A) = 25%nat) as HA'
    by (rewrite round_loop_unrolled by exact HA; apply round_unrolled_length, HA).
  assert (length (round_loop (M := Pure) i B) = 25%nat) as HB'
    by (rewrite round_loop_unrolled by exact HB; apply round_unrolled_length, HB).
  rewrite HvA, HvB, Ht.
  destruct (IH _ _ HA' HB') as (IH1 & IH2 & IH3).
  rewrite IH1, length_app, <- Ht, Hl.
  rewrite <- IH1, IH2, IH3. cbn [length]. split; [reflexivity|]. split; [lia|reflexivity].
Qed.

Lemma rounds_unrolled_trace (idx : list nat) (A B : list Z) :
  length A = 25%nat → length B = 25%nat →
  (mfor (M := Traced) idx round_unrolled A).1
  = (mfor (M := Traced) idx round_unrolled B).1 ∧
  length (mfor (M := Traced) idx round_unrolled A).1 = (58 * length idx)%nat ∧
  (mfor (M := Traced) idx round_unrolled A).2 = mfor (M := Pure) idx round_unrolled A.
Proof.
  revert A B. induction idx as [|i idx IH]; intros A B HA HB; [by repeat split|].
  rewrite !mfor_traced_cons, mfor_pure_cons. cbn [fst snd].
  destruct (round_unrolled_trace i i A B HA HB) as [Ht Hl].
  destruct (round_unrolled_traced i A HA) as [_ HvA].
  destruct (round_unrolled_traced i B HB) as [_ HvB].
  pose proof (round_unrolled_length i A HA) as HA'.
  pose proof (round_unrolled_length i B HB) as HB'.
  rewrite HvA, HvB, Ht.
  destruct (IH _ _ HA' HB') as (IH1 & IH2 & IH3).
  rewrite IH1, length_app, <- Ht, Hl.
  rewrite <- IH1, IH2, IH3. cbn [length]. split; [reflexivity|]. split; [lia|reflexivity].
Qed.

(** X18: the shifts that [keccakf_1600] executes do not depend on the state:
    on any two states each version executes the same sequence of shifts with
    the same counts, 1392 shifts in all (two for each of the 29 rotations of
    a round), and the run that records them returns the state that
    [keccakf_1600] returns. *)
Theorem keccakf_1600_shifts_do_not_depend_on_the_state
    (A B : list Z) (HA : length A = 25%nat) (HB : length B = 25%nat) :
  (keccakf_1600_loop (M := Traced) A).1 = (keccakf_1600_loop (M := Traced) B).1 ∧
  (keccakf_1600_unrolled (M := Traced) A).1
  = (keccakf_1600_unrolled (M := Traced) B).1 ∧
  length (keccakf_1600_loop (M := Traced) A).1 = 1392%nat ∧
  length (keccakf_1600_unrolled (M := Traced) A).1 = 1392%nat ∧
  (keccakf_1600_loop (M := Traced) A).2 = keccakf_1600_loop (M := Pure) A ∧
  (keccakf_1600_unrolled (M := Traced) A).2 = keccakf_1600_unrolled (M := Pure) A.
Proof.
  destruct (rounds_loop_trace (seq 0 24) A B HA HB) as (H1 & H2 & H3).
  destruct (rounds_unrolled_trace (seq 0 24) A B HA HB) as (H4 & H5 & H6).
  split; [exact H1|]. split; [exact H4|].
  split; [exact H2|]. split; [exact H5|]. split; [exact H3|exact H6].
Qed.

Lemma keccakf_1600_shifts_do_not_depend_on_the_state_witness :
  (keccakf_1600_unrolled (M := Traced) (replicate 25 0)).1
  = (keccakf_1600_unrolled (M := Traced) (Z.of_nat <$> seq 1 25)).1.
Proof.
  refine (proj1 (proj2 (keccakf_1600_shifts_do_not_depend_on_the_state
                          (replicate 25 0) (Z.of_nat <$> seq 1 25) eq_refl _))).
  vm_compute. reflexivity.
Defined.

(** ** A context used again after [sha3_final] *)

Lemma absorb_zero_byte_le (c : sha3_ctx) :
  initialized c → index c + 1 < rate c →
  absorb_byte LittleEndian c x00 = set_index c (index c + 1).
Proof.
  intros Hc Hfit. destruct (initialized_rate c Hc) as (_ & _ & Hr).
  destruct Hc as [_ _ Hi Hl _].
  assert (uint8_t (index c + 1) = index c + 1) as Hu
    by (unfold uint8_t; apply Z.mod_small; lia).
  unfold absorb_byte, block_boundary. cbv zeta. fields. rewrite Hu.
  change (byte_value x00) with 0. rewrite Z.lxor_0_r.
  rewrite list_insert_id by (apply list_lookup_lookup_total_lt; lia).
  destruct (Z.eqb_spec (index c + 1) (rate c)) as [E|_]; [lia|reflexivity].
Qed.

Lemma absorb_zero_bytes_le (k : nat) (c : sha3_ctx) :
  initialized c → index c + Z.of_nat k < rate c →
  foldl (absorb_byte LittleEndian) c (replicate k x00)
  = set_index c (index c + Z.of_nat k).
Proof.
  revert c. induction k as [|k IH]; intros c Hc Hfit.
  - cbn [replicate foldl]. destruct c as [i r s m]. fields. f_equal. lia.
  - cbn [replicate foldl]. rewrite absorb_zero_byte_le by (exact Hc || lia).
    rewrite IH.
    + fields. f_equal. lia.
    + destruct Hc as [Hs Hr Hi Hl Hb]. split; fields; (assumption || lia).
    + fields. lia.
Qed.

(** X19: on a little-endian host a context that is used again after
    [sha3_final], without [sha3_init], gives the FIPS 202 digest of the
    message with as many zero bytes in front of it as the fill index was at
    the time of [sha3_final]. *)
Theorem sha3_final_context_reused_prepends_zero_bytes
    (algo : sha3_algo) (c : sha3_ctx) (addr : Z) (msg : list byte)
    (Hc : initialized c) (Hs : size c = algo_value algo) :
  (sha3_final LittleEndian
     (sha3_update LittleEndian (sha3_final LittleEndian c).2 addr msg)).1
  = fips202_digest algo (replicate (Z.to_nat (index c)) x00 ++ msg).
Proof.
  assert ((sha3_final LittleEndian c).2
          = foldl (absorb_byte LittleEndian) (sha3_init c algo)
              (replicate (Z.to_nat (index c)) x00)) as ->.
  { destruct Hc as [_ Hr Hi _ _]. rewrite sha3_final_context.
    rewrite absorb_zero_bytes_le.
    - unfold set_index, sha3_init. cbn [index rate size u8].
      rewrite Hr, Hs, Z.add_0_l, Z2Nat.id by lia.
      destruct algo; reflexivity.
    - apply sha3_init_initialized.
    - rewrite (init_rate _ (sha3_init_initialized c algo)), size_sha3_init.
      rewrite Hr, Hs in Hi. unfold sha3_init. cbn [index]. lia. }
  rewrite sha3_update_le
    by (apply absorb_bytes_initialized, sha3_init_initialized).
  rewrite <- foldl_app.
  rewrite <- (sha3_update_le _ 0) by apply sha3_init_initialized.
  pose proof (sha3_le_fips202 algo c 0 (replicate (Z.to_nat (index c)) x00 ++ msg)) as H.
  unfold sha3 in H. exact H.
Qed.

Lemma sha3_final_context_reused_prepends_zero_bytes_witness :
  let c := sha3_update LittleEndian (sha3_init (Ctx 0 0 0 []) SHA3_256) 0
             ["a"; "b"; "c"]%byte in
  (sha3_final LittleEndian (sha3_update LittleEndian (sha3_final LittleEndian c).2 0 [])).1
  = fips202_digest SHA3_256 [x00; x00; x00].
Proof.
  intros c.
  refine (sha3_final_context_reused_prepends_zero_bytes SHA3_256 c 0 [] _ _).
  - apply sha3_update_le_initialized, sha3_init_initialized.
  - reflexivity.
Defined.

(** ** Where the byte loop puts the bytes *)

Lemma absorb_byte_be_inner (c : sha3_ctx) (b : byte) :
  initialized c → index c + 1 < rate c →
  absorb_byte BigEndian c b
  = {| index := index c + 1; rate := rate c; size := size c;
       u8 := (u8 c).[Z.to_nat (index c / 8 + (7 - index c mod 8)) <-
                (u8 c).[Z.to_nat (index c / 8 + (7 - index c mod 8))] .^ byte_value b] |}.
Proof.
  intros Hc Hfit. destruct (initialized_rate c Hc) as (_ & _ & Hr).
  destruct Hc as [_ _ Hi _ _].
  assert (uint8_t (index c + 1) = index c + 1) as Hu
    by (unfold uint8_t; apply Z.mod_small; lia).
  unfold absorb_byte, block_boundary. cbv zeta. fields. rewrite Hu.
  destruct (Z.eqb_spec (index c + 1) (rate c)) as [E|_]; [lia|reflexivity].
Qed.




(** ** The padding in the lanes *)

(** Bit [z] of lane [k] of the state is a bit of one state byte: byte
    [z / 8] of the lane on a little-endian host, byte [7 - z / 8] on a
    big-endian one. *)
Lemma testbit_load64 (h : byte_order) (m : list Z) (k : nat) (z : Z) :
  Forall is_byte m → (8 * k + 8 ≤ length m)%nat → 0 ≤ z < 64 →
  Z.testbit (load64 h m k) z
  = Z.testbit m.[8 * k + match h with
                         | LittleEndian => Z.to_nat (z / 8)
                         | BigEndian => 7 - Z.to_nat (z / 8)
                         end] (z mod 8).
Proof.
  intros Hm Hk Hz.
  assert (Forall is_byte (take 8 (drop (8 * k) m))) as Hchunk
    by (by apply Forall_take, Forall_drop).
  assert (length (take 8 (drop (8 * k) m)) = 8%nat) as Hlen
    by (rewrite length_take, length_drop; lia).
  assert (Z.to_nat (z / 8) < 8)%nat as Hq by zdiv.
  unfold load64, combine64. destruct h.
  - rewrite testbit_le_combine by (rewrite ?Hlen; assumption || lia).
    rewrite lookup_total_take_lt, lookup_total_drop by exact Hq. reflexivity.
  - rewrite testbit_le_combine
      by (rewrite ?length_reverse, ?Hlen; try apply Forall_reverse; assumption || lia).
    rewrite list_lookup_total_alt, reverse_lookup, <- list_lookup_total_alt, Hlen
      by (rewrite Hlen; exact Hq).
    rewrite lookup_total_take_lt, lookup_total_drop by lia.
    do 2 f_equal; lia.
Qed.

Lemma is_lane_byte_shiftl (v p : Z) : is_byte v → 0 ≤ p ≤ 7 → is_lane (v ≪ (8 * p)).
Proof.
  intros Hv Hp. unfold is_lane, is_byte in *. rewrite Z.shiftl_mul_pow2 by lia.
  split; [apply Z.mul_nonneg_nonneg; lia|].
  apply Z.lt_le_trans with (2 ^ 8 * 2 ^ (8 * p)).
  - apply Z.mul_lt_mono_pos_r; lia.
  - rewrite <- Z.pow_add_r by lia. apply Z.pow_le_mono_r; lia.
Qed.

Lemma testbit_byte_shiftl (v p z : Z) :
  is_byte v → 0 ≤ p → 0 ≤ z →
  Z.testbit (v ≪ (8 * p)) z = (z / 8 =? p) && Z.testbit v (z mod 8).
Proof.
  intros Hv Hp Hz. rewrite Z.shiftl_spec by lia.
  destruct (Z.eqb_spec (z / 8) p) as [E|E]; cbn [andb].
  - f_equal. zdiv.
  - destruct (Z.lt_ge_cases (z - 8 * p) 0); [apply Z.testbit_neg_r; lia|].
    apply testbit_byte_high; [exact Hv|zdiv].
Qed.

(** A byte XORed into the state through [u8], seen through [u64]. *)
Lemma u64_xor_byte (h : byte_order) (m : list Z) (j v : Z) :
  length m = 200%nat → Forall is_byte m → is_byte v → 0 ≤ j < 200 →
  u64 h m.[Z.to_nat j <- m.[Z.to_nat j] .^ v]
  = (u64 h m).[Z.to_nat (j / 8) <-
      (u64 h m).[Z.to_nat (j / 8)]
      .^ (v ≪ (8 * match h with
                     | LittleEndian => j mod 8
                     | BigEndian => 7 - j mod 8
                     end))].
Proof.
  intros Hlen Hm Hv Hj.
  assert (Forall is_byte m.[Z.to_nat j <- m.[Z.to_nat j] .^ v]) as Hm'
    by (apply Forall_is_byte_insert; [exact Hm|];
        apply is_byte_lxor; [by apply is_byte_lookup_total|exact Hv]).
  assert (is_lane (v ≪ (8 * match h with
                             | LittleEndian => j mod 8
                             | BigEndian => 7 - j mod 8
                             end))) as Hshift
    by (apply is_lane_byte_shiftl; [exact Hv|destruct h; zdiv]).
  apply (list_eq_same_length _ _ 25); [by rewrite length_insert, length_u64|apply length_u64|].
  intros k x y Hk Hx Hy. rewrite u64_lookup in Hx by exact Hk. injection Hx as <-.
  assert (y = if decide (Z.to_nat (j / 8) = k)
              then load64 h m k .^ (v ≪ (8 * match h with
                                               | LittleEndian => j mod 8
                                               | BigEndian => 7 - j mod 8
                                               end))
              else load64 h m k) as ->.
  { rewrite list_lookup_insert in Hy. rewrite length_u64 in Hy.
    destruct (decide (Z.to_nat (j / 8) = k)) as [E|E].
    - rewrite decide_True in Hy by (split; [exact E|lia]).
      injection Hy as <-. rewrite u64_lookup_total, E by lia. reflexivity.
    - rewrite decide_False, u64_lookup in Hy by (exact Hk || tauto).
      by injection Hy as <-. }
  assert (is_lane (load64 h m k)) as Hlane by (apply is_lane_load64; [exact Hm|lia]).
  apply Z.bits_inj'. intros z Hz0.
  destruct (Z.lt_ge_cases z 64) as [Hz|Hz].
  - rewrite testbit_load64 by (rewrite ?length_insert; assumption || lia).
    rewrite list_lookup_total_insert, Hlen.
    destruct (decide (Z.to_nat (j / 8) = k)) as [E|E].
    + rewrite Z.lxor_spec, testbit_load64 by (assumption || lia).
      rewrite testbit_byte_shiftl by (exact Hv || destruct h; zdiv).
      destruct h.
      * destruct (Z.eqb_spec (z / 8) (j mod 8)) as [Ez|Ez].
        -- rewrite decide_True by zdiv. cbn [andb].
           rewrite Z.lxor_spec. do 3 f_equal. zdiv.
        -- rewrite decide_False by zdiv. cbn [andb]. by rewrite xorb_false_r.
      * destruct (Z.eqb_spec (z / 8) (7 - j mod 8)) as [Ez|Ez].
        -- rewrite decide_True by zdiv. cbn [andb].
           rewrite Z.lxor_spec. do 3 f_equal. zdiv.
        -- rewrite decide_False by zdiv. cbn [andb]. by rewrite xorb_false_r.
    + rewrite decide_False by (destruct h; zdiv).
      rewrite testbit_load64 by (assumption || lia). reflexivity.
  - rewrite (is_lane_testbit_high (load64 h _ k) z);
      [|apply is_lane_load64; [exact Hm'|rewrite length_insert; lia]|exact Hz].
    symmetry. apply is_lane_testbit_high; [|exact Hz].
    destruct (decide (Z.to_nat (j / 8) = k)); [by apply is_lane_lxor|exact Hlane].
Qed.

(** X21: the padding of [sha3_final] as the permutation sees it, by host.
    With [i] the fill index and [r = rate - 1], the lanes handed to
    [keccakf_1600] are the lanes of the state with 0x06 XORed into byte
    [i % 8] of lane [i / 8] and 0x80 into byte 7, the most significant, of
    lane [r / 8] on a little-endian host; on a big-endian host with 0x06
    XORed into byte [7 - i % 8] of lane [i / 8] and 0x80 into byte 0, the
    least significant, of lane [r / 8].  The digest is the first [size]
    bytes of the lanes returned, as the host stores them. *)
Theorem sha3_final_padding_in_the_lanes_by_host
    (h : byte_order) (c : sha3_ctx) (Hc : initialized c) :
  let byte_of j := match h with
                   | LittleEndian => j mod 8
                   | BigEndian => 7 - j mod 8
                   end in
  let i := index c in
  let r := rate c - 1 in
  let A0 := u64 h (u8 c) in
  let A1 := A0.[Z.to_nat (i / 8) <- A0.[Z.to_nat (i / 8)] .^ (0x06 ≪ (8 * byte_of i))] in
  let A2 := A1.[Z.to_nat (r / 8) <- A1.[Z.to_nat (r / 8)] .^ (0x80 ≪ (8 * byte_of r))] in
  (sha3_final h c).1 = take (Z.to_nat (size c)) (u64_bytes h (keccakf_1600 A2)) ∧
  byte_of r = match h with LittleEndian => 7 | BigEndian => 0 end.
Proof.
  intros byte_of i r A0 A1 A2. subst byte_of i r A0 A1 A2. cbv beta.
  destruct (initialized_rate c Hc) as (Hr & Hr8 & Hr144).
  destruct Hc as [_ _ Hi Hlen Hb].
  split; [|destruct h; zdiv].
  rewrite sha3_final_digest. unfold keccakf_1600_u64.
  rewrite <- (u64_xor_byte h (u8 c) (index c) 0x06)
    by (assumption || unfold is_byte; lia).
  rewrite <- (u64_xor_byte h _ (rate c - 1) 0x80).
  - reflexivity.
  - by rewrite length_insert.
  - apply Forall_is_byte_insert; [exact Hb|].
    apply is_byte_lxor; [by apply is_byte_lookup_total|unfold is_byte; lia].
  - unfold is_byte; lia.
  - lia.
Qed.

Lemma sha3_final_padding_in_the_lanes_by_host_witness :
  let c := sha3_init (Ctx 0 0 0 []) SHA3_256 in
  ∃ A : list Z,
    A.[0] = 0x0600000000000000 ∧ A.[16] = 0x80 ∧
    (sha3_final BigEndian c).1 = take 32 (u64_bytes BigEndian (keccakf_1600 A)).
Proof.
  intros c. eexists. split; [|split]; cycle 2.
  - exact (proj1 (sha3_final_padding_in_the_lanes_by_host BigEndian c
                    (sha3_init_initialized (Ctx 0 0 0 []) SHA3_256))).
  - reflexivity.
  - reflexivity.
Defined.

(** X22: one iteration of the byte loop of [sha3_update] that does not
    complete the block, as the permutation sees it, by host.  With [i] the
    fill index, a little-endian host XORs the input byte into byte [i % 8] of
    lane [i / 8].  A big-endian host XORs it into state byte
    [j = i / 8 + (7 - i % 8)], which is byte [7 - j % 8] of lane [j / 8]:
    the same byte of the same lane when [i < 8], and another one for every
    [i] from 8 on. *)
Theorem sha3_update_byte_loop_in_the_lanes_by_host
    (c : sha3_ctx) (b : byte)
    (Hc : initialized c) (Hfit : index c + 1 < rate c) :
  let i := index c in
  let j := i / 8 + (7 - i mod 8) in
  u64 LittleEndian (u8 (absorb_byte LittleEndian c b))
  = (u64 LittleEndian (u8 c)).[Z.to_nat (i / 8) <-
      (u64 LittleEndian (u8 c)).[Z.to_nat (i / 8)]
      .^ (byte_value b ≪ (8 * (i mod 8)))] ∧
  u64 BigEndian (u8 (absorb_byte BigEndian c b))
  = (u64 BigEndian (u8 c)).[Z.to_nat (j / 8) <-
      (u64 BigEndian (u8 c)).[Z.to_nat (j / 8)]
      .^ (byte_value b ≪ (8 * (7 - j mod 8)))] ∧
  (j / 8 = i / 8 ∧ 7 - j mod 8 = i mod 8 ↔ i < 8).
Proof.
  intros i j. subst i j.
  destruct (initialized_rate c Hc) as (_ & _ & Hr).
  pose proof Hc as [_ _ Hi Hlen Hb].
  split; [|split].
  - rewrite absorb_byte_le_inner by lia. cbn [u8 xor_bytes].
    apply (u64_xor_byte LittleEndian); [assumption..|apply is_byte_value|lia].
  - rewrite absorb_byte_be_inner by assumption. cbn [u8].
    apply (u64_xor_byte BigEndian); [assumption..|apply is_byte_value|zdiv].
  - zdiv.
Qed.

Lemma sha3_update_byte_loop_in_the_lanes_by_host_witness :
  let c := sha3_update BigEndian (sha3_init (Ctx 0 0 0 []) SHA3_256) 1
             [x01; x02; x03; x04; x05; x06; x07; x08] in
  index c = 8 ∧
  (u64 BigEndian (u8 (absorb_byte BigEndian c x09))).[1] = 0x0900000000000000 ∧
  (u64 LittleEndian (u8 (absorb_byte LittleEndian c x09))).[1]
  = (u64 LittleEndian (u8 c)).[1] .^ 0x09.
Proof.
  intros c.
  assert (initialized c) as Hc by apply sha3_update_fields, sha3_init_initialized.
  assert (index c + 1 < rate c) as Hfit by reflexivity.
  destruct (sha3_update_byte_loop_in_the_lanes_by_host c x09 Hc Hfit) as (-> & -> & _).
  repeat split; reflexivity.
Defined.
